(** * The cluster coordination layer of src/cluster.cpp

    A shallow embedding of the MPI branch of [namespace Cluster] (thread-local
    cache of deep transposition-table entries, ring exchange, signal loop,
    input relay, move picker, counters) and of the branch without MPI, with
    the properties of the specification proved about it.

    Conventions.  A [uint64_t] is a [Z] in [0, 2^64) and every arithmetic
    operation on it is reduced by [wrap64]; an [int] that only carries small
    engine values (scores, depths, moves) is a [Z]; arrays are lists indexed
    with stdpp's lookup and insert; every call into MPI or into the external
    transposition table is recorded as an [event]. *)

From Stdlib Require Import ZArith Lia ZifyNat Bool Ascii String.
From stdpp Require Import base option list gmap strings.

Ltac Zify.zify_post_hook ::= Z.to_euclidean_division_equations.

(** ** Machine integers *)

Definition wrap64 (z : Z) : Z := (z mod 2 ^ 64)%Z.

Definition is_uint64 (z : Z) : Prop := (0 <= z < 2 ^ 64)%Z.

(** [int] has 32 bits.  A sum or difference of two [int] that leaves the
    range is an overflow, to which C++ gives no meaning; the compiled code
    keeps the low 32 bits, and [wrap_int] is that value. *)
Definition is_int (z : Z) : Prop := (- 2 ^ 31 <= z < 2 ^ 31)%Z.

Definition wrap_int (z : Z) : Z := ((z + 2 ^ 31) mod 2 ^ 32 - 2 ^ 31)%Z.

(** ** Heap algorithms of the C++ standard library

    [replace] calls [std::pop_heap] and [std::push_heap]; the definitions
    below follow the GNU implementation (bits/stl_heap.h): a hole is moved
    through the array and the pending value is written last.  The results
    proved about the cache only use the contract of the two functions
    ([std_pop_heap_spec], [std_push_heap_spec]). *)

Section StdHeap.
Context {A : Type} (comp : A → A → bool).

Definition parent (i : nat) : nat := (i - 1) / 2.

(** [std::__push_heap(first, holeIndex, topIndex, value, comp)]: the loop
    runs at most [holeIndex] times, which is the fuel given to it. *)
Fixpoint push_heap_loop (fuel : nat) (a : list A) (holeIndex topIndex : nat)
    (v : A) : list A :=
  match fuel with
  | S fuel' =>
      if topIndex <? holeIndex then
        match a !! parent holeIndex with
        | Some p =>
            if comp p v
            then push_heap_loop fuel' (<[holeIndex := p]> a)
                   (parent holeIndex) topIndex v
            else <[holeIndex := v]> a
        | None => <[holeIndex := v]> a
        end
      else <[holeIndex := v]> a
  | 0 => <[holeIndex := v]> a
  end.

Definition std__push_heap (a : list A) (holeIndex topIndex : nat) (v : A)
    : list A :=
  push_heap_loop holeIndex a holeIndex topIndex v.

(** First loop of [std::__adjust_heap]: the hole sinks to the bottom, each
    time taking the place of the child that [comp] does not put first. *)
Fixpoint adjust_heap_loop (fuel : nat) (a : list A) (holeIndex len : nat)
    : list A * nat :=
  match fuel with
  | S fuel' =>
      if holeIndex <? (len - 1) / 2 then
        let secondChild := 2 * (holeIndex + 1) in
        match a !! secondChild, a !! (secondChild - 1) with
        | Some r, Some l =>
            if comp r l
            then adjust_heap_loop fuel' (<[holeIndex := l]> a)
                   (secondChild - 1) len
            else adjust_heap_loop fuel' (<[holeIndex := r]> a)
                   secondChild len
        | _, _ => (a, holeIndex)
        end
      else (a, holeIndex)
  | 0 => (a, holeIndex)
  end.

(** [std::__adjust_heap(first, holeIndex, len, value, comp)].  The test
    [secondChild == (len - 2) / 2] is on signed integers, hence [Z.quot]. *)
Definition std__adjust_heap (a : list A) (holeIndex len : nat) (v : A)
    : list A :=
  let '(a1, h1) := adjust_heap_loop len a holeIndex len in
  let '(a2, h2) :=
    if (len mod 2 =? 0)
       && (Z.of_nat h1 =? Z.quot (Z.of_nat len - 2) 2)%Z then
      match a1 !! (2 * (h1 + 1) - 1) with
      | Some l => (<[h1 := l]> a1, 2 * (h1 + 1) - 1)
      | None => (a1, h1)
      end
    else (a1, h1) in
  std__push_heap a2 h2 holeIndex v.

(** [std::pop_heap(first, last, comp)] on the whole array. *)
Definition std_pop_heap (a : list A) : list A :=
  let n := length a in
  if 1 <? n then
    match a !! (n - 1), a !! 0 with
    | Some v, Some f => std__adjust_heap (<[n - 1 := f]> a) 0 (n - 1) v
    | _, _ => a
    end
  else a.

(** [std::push_heap(first, last, comp)] on the whole array. *)
Definition std_push_heap (a : list A) : list A :=
  let n := length a in
  match a !! (n - 1) with
  | Some v => std__push_heap a (n - 1) 0 v
  | None => a
  end.

(** [std::is_heap] on the first [len] elements: no element is put by
    [comp] before its child. *)
Definition heap_upto (a : list A) (len : nat) : Prop :=
  ∀ i x y, 0 < i < len → a !! i = Some x → a !! parent i = Some y →
           comp y x = false.

Definition is_heap (a : list A) : Prop := heap_upto a (length a).

Definition is_heapb (a : list A) : bool :=
  forallb (λ i, match a !! i, a !! parent i with
                | Some x, Some y => negb (comp y x)
                | _, _ => true
                end) (seq 1 (length a - 1)).

(** The array is a heap on its first [len] elements except at the hole [h]:
    every pair that does not involve the hole is in order, and so are the
    elements above and below the hole. *)
Definition hole_heap (a : list A) (h len : nat) : Prop :=
  (∀ i x y, 0 < i < len → i ≠ h → parent i ≠ h →
     a !! i = Some x → a !! parent i = Some y → comp y x = false) ∧
  (∀ i x y, 0 < i < len → parent i = h → 0 < h →
     a !! i = Some x → a !! parent h = Some y → comp y x = false).

End StdHeap.


(** ** Transposition-table entries

    Modelled from the spec: tt.h is absent; an entry exposes [depth], [value],
    [eval], [move], [bound] and [pv_hit], and a value-initialised entry has
    every field zero.  Depths are counted in plies. *)

Definition Key : Type := Z.
Bind Scope Z_scope with Key.

Record TTEntry := mkTTEntry {
  move : Z;
  value : Z;
  eval : Z;
  pv_hit : bool;
  bound : Z;
  depth : Z
}.

(** [std::pair<Key, TTEntry>]: [first] is the key, [second] the entry. *)
Definition KeyedTTEntry : Type := Key * TTEntry.

(** [KeyedTTEntry()] *)
Definition sentinel : KeyedTTEntry := (0%Z, mkTTEntry 0 0 0 false 0 0).

(** Modelled from the spec: types.h is absent; a depth is a number of plies,
    so that one ply is one unit of [Depth]. *)
Definition ONE_PLY : Z := 1.

(** ** Calls into MPI and into the external transposition table *)

Inductive Comm := InputComm | TTComm | MoveComm | signalsComm.

Inductive MPI_Request := MPI_REQUEST_NULL | Pending | Complete.

Inductive event :=
  | TT_probe (k : Key)
  | TTEntry_save (k : Key) (v : Z) (pv : bool) (b : Z) (d : Z) (m : Z) (ev : Z)
  | MPI_Irecv (buf count source : nat) (tag : Z) (comm : Comm)
  | MPI_Isend (buf count dest : nat) (tag : Z) (comm : Comm)
  | MPI_Testall (flag : bool)
  | MPI_Test (flag : bool)
  | MPI_Wait
  | MPI_Iallreduce (comm : Comm)
  | MPI_Allreduce (comm : Comm).

(** The calls that may wait for another rank. *)
Definition blocking (e : event) : bool :=
  match e with
  | MPI_Wait | MPI_Allreduce _ => true
  | _ => false
  end.

(** ** ClusterCache

    Modelled from the spec: the class is declared in cluster.h, which is
    absent.  [buffer] is the array of [TTCacheSize] entries kept as a heap,
    [TTSendRecvBuffs] the two vectors of the exchange, [reqsTTSendRecv] the
    receive and the send request, [TTCacheCounter] an unsigned 64-bit count
    of the calls of [replace] since the last flush.  [TTCacheSize] itself is
    a parameter of the definitions that need it. *)

Record ClusterCache := mkClusterCache {
  buffer : list KeyedTTEntry;
  TTSendRecvBuffs : list KeyedTTEntry * list KeyedTTEntry;
  reqsTTSendRecv : MPI_Request * MPI_Request;
  TTCacheCounter : Z
}.

Definition set_buffer (b : list KeyedTTEntry) (c : ClusterCache) :=
  mkClusterCache b (TTSendRecvBuffs c) (reqsTTSendRecv c) (TTCacheCounter c).
Definition set_TTSendRecvBuffs (bs : list KeyedTTEntry * list KeyedTTEntry)
    (c : ClusterCache) :=
  mkClusterCache (buffer c) bs (reqsTTSendRecv c) (TTCacheCounter c).
Definition set_reqsTTSendRecv (rs : MPI_Request * MPI_Request)
    (c : ClusterCache) :=
  mkClusterCache (buffer c) (TTSendRecvBuffs c) rs (TTCacheCounter c).
Definition set_TTCacheCounter (n : Z) (c : ClusterCache) :=
  mkClusterCache (buffer c) (TTSendRecvBuffs c) (reqsTTSendRecv c) n.

(** The lambda [compare] of [replace]: [lhs] is deeper than [rhs]. *)
Definition compare (lhs rhs : KeyedTTEntry) : bool :=
  (depth rhs.2 <? depth lhs.2)%Z.

(** [ClusterCache::replace].  [front()] of an empty array is undefined:
    [None]. *)
Definition replace (v : KeyedTTEntry) (c : ClusterCache)
    : option (bool * ClusterCache) :=
  let c := set_TTCacheCounter (wrap64 (TTCacheCounter c + 1)) c in
  front ← buffer c !! 0;
  if compare v front then
    let b := std_pop_heap compare (buffer c) in
    let b := <[length b - 1 := v]> b in
    let b := std_push_heap compare b in
    Some (true, set_buffer b c)
  else Some (false, c).

(** A run of [replace] calls, with the result of each. *)
Fixpoint replace_all (vs : list KeyedTTEntry) (c : ClusterCache)
    : option (list bool * ClusterCache) :=
  match vs with
  | [] => Some ([], c)
  | v :: vs' =>
      '(r, c1) ← replace v c;
      '(rs, c2) ← replace_all vs' c1;
      Some (r :: rs, c2)
  end.

(** [ClusterCache::ClusterCache()], for a cluster of [size] ranks; the
    constructor also resets [sendRecvPosted] (see [ClusterCache_ctor]). *)
Definition ClusterCache_new (TTCacheSize size : nat) : ClusterCache :=
  mkClusterCache (replicate TTCacheSize sentinel)
    (replicate (TTCacheSize * size) sentinel,
     replicate (TTCacheSize * size) sentinel)
    (MPI_REQUEST_NULL, MPI_REQUEST_NULL) 0.

(** The buffer holds the deepest entries of [pool]: the entries of [pool]
    that it does not hold are at most as deep as each one it holds. *)
Definition holds_deepest (b pool : list KeyedTTEntry) : Prop :=
  ∃ dropped, b ++ dropped ≡ₚ pool ∧
    ∀ d h, d ∈ dropped → h ∈ b → (depth d.2 ≤ depth h.2)%Z.

(** ** The ring exchange: [handle_buffer] *)

(** [TTSendRecvBuffs[p % 2]] *)
Definition TTSendRecvBuff (c : ClusterCache) (p : Z) : list KeyedTTEntry :=
  if (p mod 2 =? 0)%Z then (TTSendRecvBuffs c).1 else (TTSendRecvBuffs c).2.

Definition set_TTSendRecvBuff (p : Z) (b : list KeyedTTEntry)
    (c : ClusterCache) : ClusterCache :=
  if (p mod 2 =? 0)%Z
  then set_TTSendRecvBuffs (b, (TTSendRecvBuffs c).2) c
  else set_TTSendRecvBuffs ((TTSendRecvBuffs c).1, b) c.

(** [TT.probe(e.first, found)] followed by [replace_tte->save(...)]. *)
Definition save_received (e : KeyedTTEntry) : list event :=
  [TT_probe e.1;
   TTEntry_save e.1 (value e.2) (pv_hit e.2) (bound e.2) (depth e.2)
     (move e.2) (eval e.2)].

(** [for (auto&& e : buffer) TTSendRecvBuffs[p][i++] = e;] a write outside
    the vector is undefined: [None]. *)
Fixpoint copy_to_buffer (es : list KeyedTTEntry) (i : nat)
    (B : list KeyedTTEntry) : option (list KeyedTTEntry) :=
  match es with
  | [] => Some B
  | e :: es' =>
      if decide (i < length B)
      then copy_to_buffer es' (S i) (<[i := e]> B)
      else None
  end.

(** The loop over the [n] cells from [i] of the slot of another rank. *)
Fixpoint process_received (n i : nat) (B : list KeyedTTEntry)
    : option (list event) :=
  match n with
  | 0 => Some []
  | S n' =>
      e ← B !! i;
      evs ← process_received n' (S i) B;
      Some (save_received e ++ evs)
  end.

(** The loop over [irank], with [n] ranks still to handle. *)
Fixpoint handle_ranks (TTCacheSize rank : nat) (sendRecvPosted : Z)
    (n irank : nat) (c : ClusterCache) : option (ClusterCache * list event) :=
  match n with
  | 0 => Some (c, [])
  | S n' =>
      '(c1, ev1) ←
        (if decide (irank = rank) then
           B ← copy_to_buffer (buffer c) (irank * TTCacheSize)
                 (TTSendRecvBuff c sendRecvPosted);
           Some (set_TTCacheCounter 0
                   (set_buffer (replicate TTCacheSize sentinel)
                      (set_TTSendRecvBuff sendRecvPosted B c)), [])
         else
           evs ← process_received TTCacheSize (irank * TTCacheSize)
                   (TTSendRecvBuff c sendRecvPosted);
           Some (c, evs));
      '(c2, ev2) ← handle_ranks TTCacheSize rank sendRecvPosted n' (S irank) c1;
      Some (c2, ev1 ++ ev2)
  end.

(** [ClusterCache::handle_buffer], on a rank [rank] of [size]: the new value
    of [sendRecvPosted], the cache and the calls made.  The count of the two
    transfers is given in entries. *)
Definition handle_buffer (TTCacheSize size rank : nat) (sendRecvPosted : Z)
    (c : ClusterCache) : option (Z * ClusterCache * list event) :=
  '(c1, evs) ← handle_ranks TTCacheSize rank sendRecvPosted size 0 c;
  let posted := wrap64 (sendRecvPosted + 1) in
  if decide (size = 0) then None
  else
    Some (posted, set_reqsTTSendRecv (Pending, Pending) c1,
          evs ++
          [MPI_Irecv (Z.to_nat (posted mod 2))
             (length (TTSendRecvBuff c1 posted))
             ((rank + size - 1) mod size) 42 TTComm;
           MPI_Isend (Z.to_nat (wrap64 (posted + 1) mod 2))
             (length (TTSendRecvBuff c1 (wrap64 (posted + 1))))
             ((rank + 1) mod size) 42 TTComm]).

(** ** The process-wide state of [namespace Cluster] *)

(** [uint64_t signalsSend[SIG_NB]], indexed by [enum Signals]. *)
Record Signals := mkSignals {
  SIG_NODES : Z;
  SIG_STOP : Z;
  SIG_TB : Z;
  SIG_TTS : Z
}.

Definition Signals_zero : Signals := mkSignals 0 0 0 0.

(** The sum that [MPI_SUM] computes on two vectors of [MPI_UINT64_T]. *)
Definition Signals_add (a b : Signals) : Signals :=
  mkSignals (wrap64 (SIG_NODES a + SIG_NODES b)) (wrap64 (SIG_STOP a + SIG_STOP b))
    (wrap64 (SIG_TB a + SIG_TB b)) (wrap64 (SIG_TTS a + SIG_TTS b)).

Definition Signals_sum (l : list Signals) : Signals :=
  foldr Signals_add Signals_zero l.

(** Modelled from the spec: thread.h is absent; the thread pool exposes the
    totals [nodes_searched()], [tb_hits()], [TT_saves()] as unsigned 64-bit
    numbers and the flag [stop]. *)
Record ThreadPool := mkThreadPool {
  Threads_nodes_searched : Z;
  Threads_tb_hits : Z;
  Threads_TT_saves : Z;
  Threads_stop : bool
}.

Definition ThreadPool_wf (t : ThreadPool) : Prop :=
  is_uint64 (Threads_nodes_searched t) ∧ is_uint64 (Threads_tb_hits t) ∧
  is_uint64 (Threads_TT_saves t).

(** The static variables of cluster.cpp, and the thread pool.  [world_rank]
    and [world_size] are what [rank()] and [size()] return;
    [sendRecvPosted] is the one atomic counter of that name, which
    [handle_buffer], [save], [signals_init], [cluster_info] and the
    constructor of [ClusterCache] all refer to. *)
Record Cluster := mkCluster {
  world_rank : nat;
  world_size : nat;
  reqSignals : MPI_Request;
  signalsCallCounter : Z;
  signalsSend : Signals;
  signalsRecv : Signals;
  nodesSearchedOthers : Z;
  tbHitsOthers : Z;
  TTsavesOthers : Z;
  stopSignalsPosted : Z;
  sendRecvPosted : Z;
  Threads : ThreadPool
}.

Definition set_reqSignals (r : MPI_Request) (s : Cluster) : Cluster :=
  mkCluster (world_rank s) (world_size s) r (signalsCallCounter s)
    (signalsSend s) (signalsRecv s) (nodesSearchedOthers s) (tbHitsOthers s)
    (TTsavesOthers s) (stopSignalsPosted s) (sendRecvPosted s) (Threads s).

Definition set_signalsRecv (v : Signals) (s : Cluster) : Cluster :=
  mkCluster (world_rank s) (world_size s) (reqSignals s) (signalsCallCounter s)
    (signalsSend s) v (nodesSearchedOthers s) (tbHitsOthers s)
    (TTsavesOthers s) (stopSignalsPosted s) (sendRecvPosted s) (Threads s).

Definition set_sendRecvPosted (n : Z) (s : Cluster) : Cluster :=
  mkCluster (world_rank s) (world_size s) (reqSignals s) (signalsCallCounter s)
    (signalsSend s) (signalsRecv s) (nodesSearchedOthers s) (tbHitsOthers s)
    (TTsavesOthers s) (stopSignalsPosted s) n (Threads s).

Definition set_Threads (t : ThreadPool) (s : Cluster) : Cluster :=
  mkCluster (world_rank s) (world_size s) (reqSignals s) (signalsCallCounter s)
    (signalsSend s) (signalsRecv s) (nodesSearchedOthers s) (tbHitsOthers s)
    (TTsavesOthers s) (stopSignalsPosted s) (sendRecvPosted s) t.

(** The state at program start, once [init] has set rank and size. *)
Definition Cluster_start (rank size : nat) (t : ThreadPool) : Cluster :=
  mkCluster rank size MPI_REQUEST_NULL 0 Signals_zero Signals_zero 0 0 0 0 0 t.

(** ** The signal loop *)

(** [signals_send] *)
Definition signals_send (s : Cluster) : Cluster * list event :=
  (mkCluster (world_rank s) (world_size s) Pending
     (wrap64 (signalsCallCounter s + 1))
     (mkSignals (Threads_nodes_searched (Threads s))
        (if Threads_stop (Threads s) then 1 else 0)
        (Threads_tb_hits (Threads s)) (Threads_TT_saves (Threads s)))
     (signalsRecv s) (nodesSearchedOthers s) (tbHitsOthers s)
     (TTsavesOthers s) (stopSignalsPosted s) (sendRecvPosted s) (Threads s),
   [MPI_Iallreduce signalsComm]).

(** [signals_process] *)
Definition signals_process (s : Cluster) : Cluster :=
  mkCluster (world_rank s) (world_size s) (reqSignals s) (signalsCallCounter s)
    (signalsSend s) (signalsRecv s)
    (wrap64 (SIG_NODES (signalsRecv s) - SIG_NODES (signalsSend s)))
    (wrap64 (SIG_TB (signalsRecv s) - SIG_TB (signalsSend s)))
    (wrap64 (SIG_TTS (signalsRecv s) - SIG_TTS (signalsSend s)))
    (SIG_STOP (signalsRecv s)) (sendRecvPosted s)
    (if (0 <? SIG_STOP (signalsRecv s))%Z
     then mkThreadPool (Threads_nodes_searched (Threads s))
            (Threads_tb_hits (Threads s)) (Threads_TT_saves (Threads s)) true
     else Threads s).

(** The transport completes the outstanding all-reduce: the receive vector
    becomes the sum of this rank's vector and those of the other ranks. *)
Definition iallreduce_complete (others : list Signals) (s : Cluster) : Cluster :=
  match reqSignals s with
  | Pending =>
      set_reqSignals Complete
        (set_signalsRecv (Signals_sum (signalsSend s :: others)) s)
  | _ => s
  end.

(** [MPI_Test(&reqSignals, &flag, ...)]: a request that is null or complete
    gives a true flag and is null afterwards. *)
Definition MPI_Test_reqSignals (s : Cluster) : bool * Cluster :=
  match reqSignals s with
  | Pending => (false, s)
  | _ => (true, set_reqSignals MPI_REQUEST_NULL s)
  end.

(** [MPI_Wait(&reqSignals, ...)]: returns once the transport has completed
    the request, here with the vectors [others] of the other ranks. *)
Definition MPI_Wait_reqSignals (others : list Signals) (s : Cluster) : Cluster :=
  set_reqSignals MPI_REQUEST_NULL (iallreduce_complete others s).

(** [signals_poll] *)
Definition signals_poll (s : Cluster) : Cluster * list event :=
  let '(flag, s1) := MPI_Test_reqSignals s in
  if flag then
    let '(s2, evs) := signals_send (signals_process s1) in
    (s2, MPI_Test true :: evs)
  else (s1, [MPI_Test false]).

(** [signals_init] *)
Definition signals_init (s : Cluster) : Cluster :=
  mkCluster (world_rank s) (world_size s) (reqSignals s) 0
    Signals_zero Signals_zero 0 0 0 0 0 (Threads s).

(** The loop [while (stopSignalsPosted < uint64_t(size())) signals_poll();]
    Before each poll the transport may complete the outstanding request
    ([Some others]) or not ([None]); the loop has not ended when the schedule
    is used up. *)
Fixpoint signals_sync_loop (sched : list (option (list Signals)))
    (s : Cluster) : option (Cluster * list event) :=
  if (stopSignalsPosted s <? Z.of_nat (world_size s))%Z then
    match sched with
    | [] => None
    | env :: sched' =>
        let s1 := match env with
                  | Some others => iallreduce_complete others s
                  | None => s
                  end in
        let '(s2, ev1) := signals_poll s1 in
        '(s3, ev2) ← signals_sync_loop sched' s2;
        Some (s3, ev1 ++ ev2)
    end
  else Some (s, []).

(** What follows the loop in [signals_sync]: [globalCounter] is the result of
    the blocking [MPI_Allreduce] with [MPI_MAX]; [others1] and [others2] are
    the vectors of the other ranks in the all-reduces that the two waits
    complete.  A failed [assert] ends the program: [None]. *)
Definition signals_sync_finish (globalCounter : Z) (others1 others2 : list Signals)
    (s : Cluster) : option (Cluster * list event) :=
  let '(s1, ev1) :=
    if (signalsCallCounter s <? globalCounter)%Z then
      let '(s1, ev) := signals_send (MPI_Wait_reqSignals others1 s) in
      (s1, MPI_Wait :: ev)
    else (s, []) in
  if (signalsCallCounter s1 =? globalCounter)%Z then
    Some (signals_process (MPI_Wait_reqSignals others2 s1),
          MPI_Allreduce MoveComm :: ev1 ++ [MPI_Wait])
  else None.

(** [signals_sync] *)
Definition signals_sync (sched : list (option (list Signals)))
    (globalCounter : Z) (others1 others2 : list Signals) (s : Cluster)
    : option (Cluster * list event) :=
  '(s1, ev1) ← signals_sync_loop sched s;
  '(s2, ev2) ← signals_sync_finish globalCounter others1 others2 s1;
  Some (s2, ev1 ++ ev2).

(** ** The counters *)

(** [nodes_searched], [tb_hits], [TT_saves] of the MPI branch. *)
Definition nodes_searched (s : Cluster) : Z :=
  wrap64 (nodesSearchedOthers s + Threads_nodes_searched (Threads s)).
Definition tb_hits (s : Cluster) : Z :=
  wrap64 (tbHitsOthers s + Threads_tb_hits (Threads s)).
Definition TT_saves (s : Cluster) : Z :=
  wrap64 (TTsavesOthers s + Threads_TT_saves (Threads s)).

(** The branch without MPI. *)
Module NoMPI.
Definition nodes_searched (t : ThreadPool) : Z := Threads_nodes_searched t.
Definition tb_hits (t : ThreadPool) : Z := Threads_tb_hits t.
Definition TT_saves (t : ThreadPool) : Z := Threads_TT_saves t.
End NoMPI.

(** The states a rank with [size] ranks in all goes through.  The search
    changes the thread pool; the transport completes the outstanding
    all-reduce with the vectors of the [size - 1] other ranks; the exchange of
    entries changes [sendRecvPosted]; the engine polls during a search, calls
    [signals_sync] at its end and [signals_init] at the start of the next,
    when no all-reduce is outstanding (MPI forbids writing its buffers
    before). *)
Inductive reachable (rank size : nat) : Cluster → Prop :=
  | reach_start t :
      ThreadPool_wf t → reachable rank size (Cluster_start rank size t)
  | reach_search s t :
      reachable rank size s → ThreadPool_wf t →
      reachable rank size (set_Threads t s)
  | reach_complete s others :
      reachable rank size s → length others = size - 1 →
      reachable rank size (iallreduce_complete others s)
  | reach_posted s n :
      reachable rank size s → reachable rank size (set_sendRecvPosted n s)
  | reach_init s :
      reachable rank size s → reqSignals s ≠ Pending →
      reachable rank size (signals_init s)
  | reach_poll s :
      reachable rank size s → reachable rank size (signals_poll s).1
  | reach_sync s sched g others1 others2 s' evs :
      reachable rank size s →
      Forall (λ env, ∀ others, env = Some others → length others = size - 1)
        sched →
      length others1 = size - 1 → length others2 = size - 1 →
      signals_sync sched g others1 others2 s = Some (s', evs) →
      reachable rank size s'.

(** What one rank brings to [signals_sync]: its state, the schedule of the
    transport during its loop, and the vectors of the other ranks in the
    all-reduces its two waits complete. *)
Record rank_run := mkRankRun {
  run_state : Cluster;
  run_sched : list (option (list Signals));
  run_others1 : list Signals;
  run_others2 : list Signals
}.

(** [signals_sync] on every rank of the cluster: each rank runs its loop,
    the blocking all-reduce gives every rank the maximum of the counters, and
    each rank finishes with it. *)
Definition signals_sync_all (ranks : list rank_run)
    : option (list (Cluster * list event)) :=
  loops ← mapM (λ r, signals_sync_loop (run_sched r) (run_state r)) ranks;
  let globalCounter :=
    foldr Z.max 0%Z ((λ l, signalsCallCounter l.1) <$> loops) in
  mapM (λ rl : rank_run * (Cluster * list event),
          '(s2, ev2) ← signals_sync_finish globalCounter (run_others1 rl.1)
                         (run_others2 rl.1) rl.2.1;
          Some (s2, rl.2.2 ++ ev2))
       (zip ranks loops).

(** ** [cluster_info] *)

(** Unsigned 64-bit division; a zero divisor is undefined: [None]. *)
Definition udiv64 (a b : Z) : option Z :=
  if (b =? 0)%Z then None else Some (a / b)%Z.

(** The numbers printed by [cluster_info]: depth, signals, sps, sendRecvs,
    srpps, TTSaves, TTSavesps.  [now_elapsed] is the value of
    [Time.elapsed()], a signed 64-bit number of milliseconds; adding one to
    the largest is undefined: [None].  In the three quotients the divisor
    is converted to [uint64_t]. *)
Definition cluster_info (TTCacheSize : nat) (now_elapsed : Z) (depth : Z)
    (s : Cluster) : option (list Z) :=
  if (now_elapsed + 1 <? 2 ^ 63)%Z then
    let elapsed := (now_elapsed + 1)%Z in
    let TTSaves := TT_saves s in
    if (ONE_PLY =? 0)%Z then None
    else
      sps ← udiv64 (wrap64 (signalsCallCounter s * 1000)) (wrap64 elapsed);
      srpps ← udiv64
                (wrap64 (wrap64 (wrap64 (Z.of_nat TTCacheSize
                                         * Z.of_nat (world_size s))
                                 * sendRecvPosted s) * 1000))
                (wrap64 elapsed);
      TTSavesps ← udiv64 (wrap64 (TTSaves * 1000)) (wrap64 elapsed);
      Some [Z.quot depth ONE_PLY; signalsCallCounter s; sps;
            sendRecvPosted s; srpps; TTSaves; TTSavesps]
  else None.

(** ** [save] *)

(** Modelled from the spec: thread.h is absent.  A search thread has a
    counter of saves [TTsaves], its cache [ttCache], and, when it is the main
    thread ([thread == Threads.main()]), the counter [callsCnt].  The
    counter is one of those that [Threads.TT_saves()] adds up; the state
    keeps the pool as the signal loop reads it, and does not add the
    counter of this thread into [Threads_TT_saves]. *)
Record Thread := mkThread {
  TTsaves : Z;
  ttCache : ClusterCache;
  callsCnt : Z;
  is_main : bool
}.

(** [MPI_Testall] on the two requests of the cache: the flag is true when
    none is outstanding, and the requests are then null. *)
Definition MPI_Testall_reqs (c : ClusterCache) : bool * ClusterCache :=
  match reqsTTSendRecv c with
  | (Pending, _) | (_, Pending) => (false, c)
  | _ => (true, set_reqsTTSendRecv (MPI_REQUEST_NULL, MPI_REQUEST_NULL) c)
  end.

Section Save.
(** The save of the external transposition table, [TTEntry::save]: the entry
    it leaves in the table. *)
Context (tte_save : TTEntry → Key → Z → bool → Z → Z → Z → Z → TTEntry).
Context (TTCacheSize : nat).

(** [save(thread, tte, k, v, PvHit, b, d, m, ev)]: the state, the thread, the
    entry [*tte] and the calls made. *)
Definition save (s : Cluster) (thread : Thread) (tte : TTEntry)
    (k : Key) (v : Z) (PvHit : bool) (b d m ev : Z)
    : option (Cluster * Thread * TTEntry * list event) :=
  let tte := tte_save tte k v PvHit b d m ev in
  let saved := TTEntry_save k v PvHit b d m ev in
  if (3 * ONE_PLY <? d)%Z then
    let TTsaves' := wrap64 (TTsaves thread + 1) in
    '(_, c1) ← replace (k, tte) (ttCache thread);
    if (Z.of_nat TTCacheSize <=? TTCacheCounter c1)%Z then
      let '(flag, c2) := MPI_Testall_reqs c1 in
      if flag then
        '(posted, c3, evs) ←
          handle_buffer TTCacheSize (world_size s) (world_rank s)
            (sendRecvPosted s) c2;
        Some (set_sendRecvPosted (wrap64 (posted + 1)) s,
              mkThread TTsaves' c3
                (if is_main thread then 0%Z else callsCnt thread)
                (is_main thread),
              tte, saved :: MPI_Testall true :: evs)
      else
        Some (s, mkThread TTsaves' c2 (callsCnt thread) (is_main thread),
              tte, [saved; MPI_Testall false])
    else
      Some (s, mkThread TTsaves' c1 (callsCnt thread) (is_main thread),
            tte, [saved])
  else Some (s, thread, tte, [saved]).

End Save.

(** ** The operations of the file on the state of a rank and one thread *)

Inductive operation :=
  | Op_ClusterCache
  | Op_replace (value : KeyedTTEntry)
  | Op_handle_buffer
  | Op_signals_send
  | Op_signals_process
  | Op_sendrecv_sync
  | Op_signals_sync (sched : list (option (list Signals))) (globalCounter : Z)
      (others1 others2 : list Signals)
  | Op_signals_init
  | Op_signals_poll
  | Op_cluster_info (now_elapsed depth : Z)
  | Op_save (tte : TTEntry) (k : Key) (v : Z) (PvHit : bool) (b d m ev : Z)
  | Op_nodes_searched
  | Op_tb_hits
  | Op_TT_saves.

Definition set_ttCache (c : ClusterCache) (t : Thread) : Thread :=
  mkThread (TTsaves t) c (callsCnt t) (is_main t).

Section Exec.
Context (tte_save : TTEntry → Key → Z → bool → Z → Z → Z → Z → TTEntry).
Context (TTCacheSize : nat).

(** [ClusterCache::ClusterCache()] on the cache of the thread: the last
    statement also assigns [sendRecvPosted]. *)
Definition ClusterCache_ctor (st : Cluster * Thread) : Cluster * Thread :=
  (set_sendRecvPosted 0 st.1,
   set_ttCache (ClusterCache_new TTCacheSize (world_size st.1)) st.2).

(** The state after an operation; [None] where the operation is undefined.
    [sendrecv_sync] has an empty body; [cluster_info] and the three counters
    only compute a value. *)
Definition exec (op : operation) (st : Cluster * Thread)
    : option (Cluster * Thread) :=
  match op with
  | Op_ClusterCache => Some (ClusterCache_ctor st)
  | Op_replace value =>
      '(_, c) ← replace value (ttCache st.2);
      Some (st.1, set_ttCache c st.2)
  | Op_handle_buffer =>
      '(posted, c, _) ←
        handle_buffer TTCacheSize (world_size st.1) (world_rank st.1)
          (sendRecvPosted st.1) (ttCache st.2);
      Some (set_sendRecvPosted posted st.1, set_ttCache c st.2)
  | Op_signals_send => Some ((signals_send st.1).1, st.2)
  | Op_signals_process => Some (signals_process st.1, st.2)
  | Op_sendrecv_sync => Some st
  | Op_signals_sync sched globalCounter others1 others2 =>
      '(s, _) ← signals_sync sched globalCounter others1 others2 st.1;
      Some (s, st.2)
  | Op_signals_init => Some (signals_init st.1, st.2)
  | Op_signals_poll => Some ((signals_poll st.1).1, st.2)
  | Op_cluster_info now_elapsed depth =>
      _ ← cluster_info TTCacheSize now_elapsed depth st.1;
      Some st
  | Op_save tte k v PvHit b d m ev =>
      '(s, t, _, _) ← save tte_save TTCacheSize st.1 st.2 tte k v PvHit b d m ev;
      Some (s, t)
  | Op_nodes_searched | Op_tb_hits | Op_TT_saves => Some st
  end.


End Exec.

Definition Signals_wf (v : Signals) : Prop :=
  is_uint64 (SIG_NODES v) ∧ is_uint64 (SIG_STOP v) ∧ is_uint64 (SIG_TB v) ∧
  is_uint64 (SIG_TTS v).

(** What holds of the signal state of a cluster with a single rank: the
    deltas of the other ranks are zero, and a completed all-reduce returned
    the vector that was sent. *)
Definition single_rank_inv (s : Cluster) : Prop :=
  world_size s = 1 ∧
  nodesSearchedOthers s = 0%Z ∧ tbHitsOthers s = 0%Z ∧ TTsavesOthers s = 0%Z ∧
  Signals_wf (signalsSend s) ∧ ThreadPool_wf (Threads s) ∧
  (reqSignals s ≠ Pending → signalsRecv s = signalsSend s).

(** ** The move picker: [pick_moves] *)

Module MovePicker.

(** [struct MoveInfo]: the five [int] fields that [init] registers with
    MPI. *)
Record MoveInfo := mkMoveInfo {
  move : Z;
  ponder : Z;
  depth : Z;
  score : Z;
  rank : Z
}.

(** [votes[k]] of a [std::map<int, int>]: a missing key reads as zero. *)
Definition votes_at (votes : gmap Z Z) (k : Z) : Z := default 0%Z (votes !! k).

(** The first loop on the root: the minimum score, and every move that was
    reported gets the vote zero. *)
Definition min_and_clear (pMoveInfo : list MoveInfo) (minScore : Z)
    (votes : gmap Z Z) : Z * gmap Z Z :=
  fold_left (λ (acc : Z * gmap Z Z) (c : MoveInfo),
               (Z.min acc.1 (score c), <[move c := 0%Z]> acc.2))
    pMoveInfo (minScore, votes).

(** The second loop: [votes[move] += score - minScore + depth], each of
    the three operations in [int]. *)
Definition add_votes (minScore : Z) (pMoveInfo : list MoveInfo)
    (votes : gmap Z Z) : gmap Z Z :=
  fold_left (λ (votes : gmap Z Z) (c : MoveInfo),
               <[move c := wrap_int
                             (votes_at votes (move c)
                              + wrap_int (wrap_int (score c - minScore)
                                          + depth c))]> votes)
    pMoveInfo votes.

(** The third loop: a record replaces [mi] when the vote of its move is
    strictly above [bestVote]. *)
Definition select_best (votes : gmap Z Z) (pMoveInfo : list MoveInfo)
    (bestVote : Z) (mi : MoveInfo) : Z * MoveInfo :=
  fold_left (λ (acc : Z * MoveInfo) (c : MoveInfo),
               if (acc.1 <? votes_at votes (move c))%Z
               then (votes_at votes (move c), c) else acc)
    pMoveInfo (bestVote, mi).

(** The block run by the root on the gathered records, with [mi] the record
    of the root itself; an empty array has no [pMoveInfo[0]]: [None]. *)
Definition pick_root (mi : MoveInfo) (pMoveInfo : list MoveInfo)
    : option MoveInfo :=
  first ← pMoveInfo !! 0;
  let '(minScore, votes) := min_and_clear pMoveInfo (score first) ∅ in
  let votes := add_votes minScore pMoveInfo votes in
  Some (select_best votes pMoveInfo (votes_at votes (move first)) mi).2.

(** [pick_moves] on the whole cluster: [ranks] gives for each rank its
    record and its PV line.  The records are gathered on the root, the root
    selects, the selection is broadcast, and when its [rank] field is not
    zero the rank it names sends its PV line to the root.  The result gives
    every rank's record and PV line, and the rank that sent its PV line if
    one did.  A [rank] field that names no rank leaves the root waiting:
    [None]. *)
Definition pick_moves (ranks : list (MoveInfo * string))
    : option (list (MoveInfo * string) * option nat) :=
  root ← ranks !! 0;
  mi ← pick_root root.1 (ranks.*1);
  if (rank mi =? 0)%Z then Some ((λ r, (mi, r.2)) <$> ranks, None)
  else if (0 <? rank mi)%Z then
    sender ← ranks !! Z.to_nat (rank mi);
    Some (<[0 := (mi, sender.2)]> ((λ r, (mi, r.2)) <$> ranks),
          Some (Z.to_nat (rank mi)))
  else None.

(** The vote of a move as the specification states it: the sum, over the
    records that name it, of [(score - minScore) + depth]. *)
Definition vote_total (minScore : Z) (records : list MoveInfo) (m : Z) : Z :=
  foldr (λ c acc, if decide (move c = m)
                  then ((score c - minScore) + depth c + acc)%Z else acc)
    0%Z records.

End MovePicker.

(** ** The input relay: [getline] *)

Module InputRelay.

(** A [std::istream]: the characters not yet read and two state bits. *)
Record istream := mkIstream {
  unread : list ascii;
  eofbit : bool;
  failbit : bool
}.

(** The characters up to the first newline, and what follows it; [None]
    when the input ends first. *)
Fixpoint extract_line (cs : list ascii) : list ascii * option (list ascii) :=
  match cs with
  | [] => ([], None)
  | c :: cs' =>
      if Ascii.eqb c "010"%char then ([], Some cs')
      else let '(line, rest) := extract_line cs' in (c :: line, rest)
  end.

(** [std::getline(input, str)]: a stream that is not good only gets its
    failbit set; otherwise the string is erased and filled up to the newline,
    which is dropped; reaching the end sets eofbit, and extracting nothing
    sets failbit. *)
Definition std_getline (input : istream) (str : string) : istream * string :=
  if eofbit input || failbit input
  then (mkIstream (unread input) (eofbit input) true, str)
  else
    match extract_line (unread input) with
    | (line, Some rest) => (mkIstream rest false false, string_of_list_ascii line)
    | (line, None) =>
        (mkIstream [] true (match line with [] => true | _ => false end),
         string_of_list_ascii line)
    end.

(** The conversion of a [size_t] to [int]. *)
Definition to_int (n : nat) : Z :=
  ((Z.of_nat n + 2 ^ 31) mod 2 ^ 32 - 2 ^ 31)%Z.

(** [getline] on the whole cluster, rank 0 being the root: [input] is the
    stream of the root and [strs] the string of each rank.  The root reads
    a line; its length as an [int], that many characters and the state are
    broadcast.  A negative count is an error of the transport: [None]. *)
Definition getline (input : istream) (strs : list string)
    : option (istream * list (bool * string)) :=
  str0 ← strs !! 0;
  let '(input', str) := std_getline input str0 in
  let state := negb (failbit input') in
  let vec := list_ascii_of_string str in
  let size := to_int (length vec) in
  if (size <? 0)%Z then None
  else
    let received := string_of_list_ascii (take (Z.to_nat size) vec) in
    Some (input', (state, str) :: ((λ _, (state, received)) <$> tail strs)).

End InputRelay.

(** ** Runs of operations

    The engine calls the functions above many times in a row; a run applies
    each call to the state left by the one before. *)

(** A run of operations on a rank and one of its threads. *)
Fixpoint exec_all
    (tte_save : TTEntry → Key → Z → bool → Z → Z → Z → Z → TTEntry)
    (TTCacheSize : nat) (ops : list operation) (st : Cluster * Thread)
    : option (Cluster * Thread) :=
  match ops with
  | [] => Some st
  | op :: ops' =>
      st1 ← exec tte_save TTCacheSize op st;
      exec_all tte_save TTCacheSize ops' st1
  end.

(** The operations that can end the program for a reason of their own:
    [cluster_info] divides by the elapsed time, [signals_sync] waits for the
    other ranks and asserts. *)
Definition may_abort (op : operation) : bool :=
  match op with
  | Op_cluster_info _ _ | Op_signals_sync _ _ _ _ => true
  | _ => false
  end.

(** The shape that the constructor gives a cache on a cluster of [size]
    ranks: a heap of [TTCacheSize] cells and two vectors of
    [TTCacheSize * size] cells. *)
Definition ClusterCache_wf (TTCacheSize size : nat) (c : ClusterCache) : Prop :=
  length (buffer c) = TTCacheSize ∧
  is_heap compare (buffer c) ∧
  length (TTSendRecvBuffs c).1 = TTCacheSize * size ∧
  length (TTSendRecvBuffs c).2 = TTCacheSize * size.


Section SaveAll.
Context (tte_save : TTEntry → Key → Z → bool → Z → Z → Z → Z → TTEntry).
Context (TTCacheSize : nat).




End SaveAll.

(** What a rank and one of its threads keep from the constructor of the
    cache on: the rank is one of the cluster, [sendRecvPosted] is a 64-bit
    number, and the cache has the shape the constructor gave it. *)
Definition rank_wf (TTCacheSize : nat) (st : Cluster * Thread) : Prop :=
  world_rank st.1 < world_size st.1 ∧
  is_uint64 (sendRecvPosted st.1) ∧
  ClusterCache_wf TTCacheSize (world_size st.1) (ttCache st.2).



(** What the signal loop may do to the thread pool: it leaves the three
    totals as they are and can set the flag [stop], never clear it. *)
Definition pool_kept (t t' : ThreadPool) : Prop :=
  Threads_nodes_searched t' = Threads_nodes_searched t ∧
  Threads_tb_hits t' = Threads_tb_hits t ∧
  Threads_TT_saves t' = Threads_TT_saves t ∧
  (Threads_stop t = true → Threads_stop t' = true).

(** A run of [getline] calls, as a caller that reads line after line makes
    them: each call starts from the strings the ranks were left with. *)
Fixpoint getline_run (n : nat) (input : InputRelay.istream)
    (strs : list string)
    : option (InputRelay.istream * list (list (bool * string))) :=
  match n with
  | 0 => Some (input, [])
  | S n' =>
      '(input1, outs) ← InputRelay.getline input strs;
      '(input2, rest) ← getline_run n' input1 (outs.*2);
      Some (input2, outs :: rest)
  end.

(** A record with [k] added to its score. *)
Definition shift_score (k : Z) (r : MovePicker.MoveInfo) : MovePicker.MoveInfo :=
  MovePicker.mkMoveInfo (MovePicker.move r) (MovePicker.ponder r)
    (MovePicker.depth r) (MovePicker.score r + k) (MovePicker.rank r).

(** ** The MPI session: [init], [finalize], [size], [rank] *)

Module Session.

(** The levels of thread support of MPI, in increasing order. *)
Inductive thread_level :=
  | MPI_THREAD_SINGLE
  | MPI_THREAD_FUNNELED
  | MPI_THREAD_SERIALIZED
  | MPI_THREAD_MULTIPLE.

Definition level (l : thread_level) : nat :=
  match l with
  | MPI_THREAD_SINGLE => 0
  | MPI_THREAD_FUNNELED => 1
  | MPI_THREAD_SERIALIZED => 2
  | MPI_THREAD_MULTIPLE => 3
  end.

(** The fields of [struct MoveInfo] whose displacements [init] hands to
    MPI, in the order of [MIdisps]. *)
Inductive MoveInfo_field := f_move | f_ponder | f_depth | f_score | f_rank.

(** A datatype built from blocks of [MPI_INT]: the length of a block, the
    displacement of each block, and whether it has been committed. *)
Record datatype := mkDatatype {
  blocklength : nat;
  displacements : list MoveInfo_field;
  committed : bool
}.

(** The MPI library as [init] and [finalize] see it: the level of thread
    support it grants, the rank and the size of [MPI_COMM_WORLD], whether
    it has been initialised and finalised, the communicators and the
    datatypes the program holds, by handle, and the next handle it will
    give out. *)
Record MPI := mkMPI {
  provided : thread_level;
  comm_world_rank : nat;
  comm_world_size : nat;
  initialized : bool;
  finalized : bool;
  comms : gset nat;
  types : gmap nat datatype;
  fresh : nat
}.

Definition active (m : MPI) : bool := initialized m && negb (finalized m).

(** A handle; [None] is [MPI_COMM_NULL] or [MPI_DATATYPE_NULL]. *)
Definition handle : Type := option nat.

(** [MPI_Init_thread]: MPI is initialised once; the call returns the level
    of thread support granted. *)
Definition MPI_Init_thread (required : thread_level) (m : MPI)
    : option (MPI * thread_level) :=
  if initialized m then None
  else Some (mkMPI (provided m) (comm_world_rank m) (comm_world_size m) true
               (finalized m) (comms m) (types m) (fresh m),
             provided m).

(** [MPI_Comm_dup(MPI_COMM_WORLD, &c)]: a new communicator. *)
Definition MPI_Comm_dup (m : MPI) : option (MPI * handle) :=
  if active m then
    Some (mkMPI (provided m) (comm_world_rank m) (comm_world_size m)
            (initialized m) (finalized m) ({[fresh m]} ∪ comms m) (types m)
            (S (fresh m)),
          Some (fresh m))
  else None.

(** [MPI_Comm_free(&c)]: the communicator must be one the program holds;
    the handle becomes [MPI_COMM_NULL]. *)
Definition MPI_Comm_free (c : handle) (m : MPI) : option (MPI * handle) :=
  match c with
  | Some h =>
      if active m && bool_decide (h ∈ comms m) then
        Some (mkMPI (provided m) (comm_world_rank m) (comm_world_size m)
                (initialized m) (finalized m) (comms m ∖ {[h]}) (types m)
                (fresh m),
              None)
      else None
  | None => None
  end.

(** [MPI_Type_create_hindexed_block(count, blocklength, disps, MPI_INT, &t)]:
    a new datatype, not yet committed. *)
Definition MPI_Type_create_hindexed_block (count blocklength : nat)
    (disps : list MoveInfo_field) (m : MPI) : option (MPI * handle) :=
  if active m && (count =? length disps) then
    Some (mkMPI (provided m) (comm_world_rank m) (comm_world_size m)
            (initialized m) (finalized m) (comms m)
            (<[fresh m := mkDatatype blocklength disps false]> (types m))
            (S (fresh m)),
          Some (fresh m))
  else None.

(** [MPI_Type_commit(&t)] *)
Definition MPI_Type_commit (t : handle) (m : MPI) : option MPI :=
  h ← t;
  d ← types m !! h;
  if active m then
    Some (mkMPI (provided m) (comm_world_rank m) (comm_world_size m)
            (initialized m) (finalized m) (comms m)
            (<[h := mkDatatype (blocklength d) (displacements d) true]>
               (types m))
            (fresh m))
  else None.

(** [MPI_Type_free(&t)]: the handle becomes [MPI_DATATYPE_NULL]. *)
Definition MPI_Type_free (t : handle) (m : MPI) : option (MPI * handle) :=
  h ← t;
  _ ← types m !! h;
  if active m then
    Some (mkMPI (provided m) (comm_world_rank m) (comm_world_size m)
            (initialized m) (finalized m) (comms m) (delete h (types m))
            (fresh m),
          None)
  else None.

(** [MPI_Finalize] *)
Definition MPI_Finalize (m : MPI) : option MPI :=
  if active m then
    Some (mkMPI (provided m) (comm_world_rank m) (comm_world_size m)
            (initialized m) true (comms m) (types m) (fresh m))
  else None.

(** The static variables of cluster.cpp that [init] sets; [world_rank] is
    [MPI_PROC_NULL] ([None]) at program start. *)
Record Statics := mkStatics {
  world_rank : option nat;
  world_size : nat;
  signalsComm : handle;
  InputComm : handle;
  TTComm : handle;
  MoveComm : handle;
  MIDatatype : handle
}.

Definition Statics_start : Statics :=
  mkStatics None 0 None None None None None.

(** How a call ends: it returns, or the program exits with a status after
    writing to [std::cerr]. *)
Inductive outcome (A : Type) :=
  | Returned (a : A)
  | Exited (status : Z) (stderr : string).
Arguments Returned {A} a.
Arguments Exited {A} status stderr.

Definition EXIT_FAILURE : Z := 1.

(** What [std::endl] writes: a newline (the stream is then flushed). *)
Definition endl : string := String "010"%char EmptyString.

(** [init] *)
Definition init (m : MPI) (st : Statics) : option (MPI * outcome Statics) :=
  '(m, thread_support) ← MPI_Init_thread MPI_THREAD_MULTIPLE m;
  if level thread_support <? level MPI_THREAD_MULTIPLE then
    Some (m, Exited EXIT_FAILURE
               (String.append
                  "Stockfish requires support for MPI_THREAD_MULTIPLE."
                  endl))
  else
    let rank := Some (comm_world_rank m) in
    let size := comm_world_size m in
    '(m, MIDatatype) ←
      MPI_Type_create_hindexed_block 5 1
        [f_move; f_ponder; f_depth; f_score; f_rank] m;
    m ← MPI_Type_commit MIDatatype m;
    '(m, InputComm) ← MPI_Comm_dup m;
    '(m, TTComm) ← MPI_Comm_dup m;
    '(m, MoveComm) ← MPI_Comm_dup m;
    '(m, signalsComm) ← MPI_Comm_dup m;
    Some (m, Returned (mkStatics rank size signalsComm InputComm TTComm
                         MoveComm MIDatatype)).

(** [finalize] *)
Definition finalize (m : MPI) (st : Statics) : option (MPI * Statics) :=
  '(m, MIDatatype) ← MPI_Type_free (MIDatatype st) m;
  '(m, InputComm) ← MPI_Comm_free (InputComm st) m;
  '(m, TTComm) ← MPI_Comm_free (TTComm st) m;
  '(m, MoveComm) ← MPI_Comm_free (MoveComm st) m;
  '(m, signalsComm) ← MPI_Comm_free (signalsComm st) m;
  m ← MPI_Finalize m;
  Some (m, mkStatics (world_rank st) (world_size st) signalsComm InputComm
             TTComm MoveComm MIDatatype).

(** [size] and [rank] *)
Definition size (st : Statics) : nat := world_size st.
Definition rank (st : Statics) : option nat := world_rank st.

(** The handles the library has given out are below the next one. *)
Definition MPI_wf (m : MPI) : Prop :=
  (∀ c, c ∈ comms m → c < fresh m) ∧
  (∀ t, is_Some (types m !! t) → t < fresh m).

End Session.

(** ** The signal loop on the whole cluster

    The ranks of a cluster run the signal loop side by side.  A state of
    the cluster gives the state of each rank, in the order of the ranks. *)

(** The cluster at the start of a search: no rank has posted an
    all-reduce. *)
Definition cluster_start (ranks : list Cluster) : Prop :=
  Forall (λ s, signalsCallCounter s = 0%Z ∧ reqSignals s = MPI_REQUEST_NULL)
    ranks.

(** One step of one rank [r] during a search.  Its search threads change
    the thread pool; or it calls [signals_poll]; or the transport completes
    its outstanding all-reduce.  This all-reduce is the one numbered
    [signalsCallCounter] on the rank, and it cannot complete before every
    rank has posted the all-reduce of that number, since its result depends
    on the vector of each; the vectors [others] it delivers are left open
    here.  A rank posts fewer than 2^64 all-reduces. *)
Inductive cluster_action :=
  | Act_search (r : nat) (t : ThreadPool)
  | Act_poll (r : nat)
  | Act_complete (r : nat) (others : list Signals).

(** The cluster after a step; [None] when the step cannot be taken. *)
Definition cluster_do (a : cluster_action) (ranks : list Cluster)
    : option (list Cluster) :=
  match a with
  | Act_search r t =>
      s ← ranks !! r;
      Some (<[r := set_Threads t s]> ranks)
  | Act_poll r =>
      s ← ranks !! r;
      if (signalsCallCounter s <? 2 ^ 64 - 1)%Z
      then Some (<[r := (signals_poll s).1]> ranks)
      else None
  | Act_complete r others =>
      s ← ranks !! r;
      match reqSignals s with
      | Pending =>
          if forallb (λ q, (signalsCallCounter s <=? signalsCallCounter q)%Z)
               ranks
          then Some (<[r := iallreduce_complete others s]> ranks)
          else None
      | _ => None
      end
  end.

(** A run of steps, in any order of the ranks. *)
Fixpoint cluster_run (acts : list cluster_action) (ranks : list Cluster)
    : option (list Cluster) :=
  match acts with
  | [] => Some ranks
  | a :: acts' =>
      ranks1 ← cluster_do a ranks;
      cluster_run acts' ranks1
  end.

(** What the steps keep: a rank is at most one all-reduce ahead of any
    other, and not ahead at all unless its own all-reduce is outstanding. *)
Definition cluster_inv (ranks : list Cluster) : Prop :=
  ∀ s q, s ∈ ranks → q ∈ ranks →
    is_uint64 (signalsCallCounter s) ∧
    (signalsCallCounter s ≤ signalsCallCounter q + 1)%Z ∧
    (reqSignals s ≠ Pending →
     (signalsCallCounter s ≤ signalsCallCounter q)%Z).

(** The vector that a rank contributes to the last all-reduce of
    [signals_sync], the one numbered [globalCounter]: a rank that is behind
    sends it in [signals_sync] itself, from its thread pool; the others have
    sent it in their last poll. *)
Definition final_vector (globalCounter : Z) (s : Cluster) : Signals :=
  if (signalsCallCounter s <? globalCounter)%Z
  then signalsSend (signals_send s).1
  else signalsSend s.

(** * Properties *)

Section StdHeapContract.
Context {A : Type} (comp : A → A → bool).

Local Abbreviation push_heap_loop := (push_heap_loop comp).
Local Abbreviation std__push_heap := (std__push_heap comp).
Local Abbreviation adjust_heap_loop := (adjust_heap_loop comp).
Local Abbreviation std__adjust_heap := (std__adjust_heap comp).
Local Abbreviation std_pop_heap := (std_pop_heap comp).
Local Abbreviation std_push_heap := (std_push_heap comp).
Local Abbreviation heap_upto := (heap_upto comp).
Local Abbreviation is_heap := (is_heap comp).
Local Abbreviation is_heapb := (is_heapb comp).
Local Abbreviation hole_heap := (hole_heap comp).

(** *** The contract of the heap algorithms

    [comp] is a strict weak ordering, as the standard requires: here, that
    it is asymmetric and that its complement is transitive. *)

Hypothesis comp_asym : ∀ x y, comp x y = true → comp y x = false.
Hypothesis comp_negtrans :
  ∀ x y z, comp x y = false → comp y z = false → comp x z = false.

Lemma comp_irrefl x : comp x x = false.
Proof.
  destruct (comp x x) eqn:E; [|done].
  pose proof (comp_asym _ _ E). congruence.
Qed.

Lemma insert_hole_swap (a : list A) h c z v :
  a !! c = Some z → h < length a → h ≠ c →
  <[c := v]> (<[h := z]> a) ≡ₚ <[h := v]> a.
Proof.
  intros Hc Hh Hne.
  rewrite <- (list_insert_insert_eq a h z v).
  apply Permutation_insert_swap.
  - by apply list_lookup_insert_eq.
  - by rewrite list_lookup_insert_ne.
Qed.

Lemma heap_upto_hole a len :
  heap_upto a len → hole_heap a 0 len.
Proof.
  intros H; split.
  - intros i x y Hi _ _ Hx Hy. by apply (H i).
  - intros i x y _ _ Hh. lia.
Qed.

Lemma heap_upto_insert_ge a len j x :
  len ≤ j → heap_upto a len → heap_upto (<[j := x]> a) len.
Proof.
  intros Hj H i u w Hi Hu Hw.
  rewrite list_lookup_insert_ne in Hu by lia.
  rewrite list_lookup_insert_ne in Hw by (unfold parent in *; lia).
  by apply (H i).
Qed.

Lemma heap_upto_le a len len' :
  len' ≤ len → heap_upto a len → heap_upto a len'.
Proof. intros Hle H i x y Hi. apply H. lia. Qed.

(** The hole takes the place of a child that no other child precedes. *)
Lemma hole_heap_sink a h len c z :
  hole_heap a h len → h < len → len ≤ length a →
  0 < c < len → parent c = h → a !! c = Some z →
  (∀ s x, 0 < s < len → parent s = h → a !! s = Some x → comp z x = false) →
  hole_heap (<[h := z]> a) c len.
Proof.
  intros [H1 H2] Hh Hlen Hc Hpc Hz Hmin.
  assert (Hhc : h < c) by (unfold parent in *; lia).
  split.
  - intros i x y Hi Hic Hpic Hx Hy.
    destruct (decide (i = h)) as [->|Hih].
    + rewrite list_lookup_insert_eq in Hx by lia. simplify_eq.
      rewrite list_lookup_insert_ne in Hy by (unfold parent in *; lia).
      apply (H2 c x y); auto. lia.
    + rewrite list_lookup_insert_ne in Hx by done.
      destruct (decide (parent i = h)) as [Hpi|Hpi].
      * rewrite Hpi, list_lookup_insert_eq in Hy by lia. simplify_eq.
        by apply (Hmin i).
      * rewrite list_lookup_insert_ne in Hy by done. by apply (H1 i).
  - intros i x y Hi Hpi _ Hx Hy.
    assert (i ≠ h) by (unfold parent in *; lia).
    rewrite list_lookup_insert_ne in Hx by done.
    rewrite Hpc, list_lookup_insert_eq in Hy by lia. simplify_eq.
    apply (H1 i x y); auto; lia.
Qed.

Lemma adjust_heap_loop_spec fuel : ∀ a h len a' h',
  hole_heap a h len → h < len → len ≤ length a →
  adjust_heap_loop fuel a h len = (a', h') →
  hole_heap a' h' len ∧ h ≤ h' < len ∧ length a' = length a ∧
  (∀ j, len ≤ j → a' !! j = a !! j) ∧
  (∀ v, <[h' := v]> a' ≡ₚ <[h := v]> a) ∧
  (len ≤ fuel + h → ¬ h' < (len - 1) / 2).
Proof.
  induction fuel as [|fuel IH]; intros a h len a' h' Hh Hlt Hlen Hrun;
    cbn [adjust_heap_loop] in Hrun.
  { simplify_eq. split_and!; [done|lia|lia|done|done|done|lia]. }
  destruct (Nat.ltb_spec h ((len - 1) / 2)) as [Hin|Hout]; cycle 1.
  { simplify_eq. split_and!; [done|lia|lia|done|done|done|lia]. }
  destruct (lookup_lt_is_Some_2 a (2 * (h + 1))) as [r Hr]; [lia|].
  destruct (lookup_lt_is_Some_2 a (2 * (h + 1) - 1)) as [l Hl]; [lia|].
  rewrite Hr, Hl in Hrun.
  assert (Hkids : ∀ s, 0 < s → parent s = h →
                       s = 2 * (h + 1) ∨ s = 2 * (h + 1) - 1)
    by (unfold parent in *; lia).
  destruct (comp r l) eqn:Hrl.
  - apply IH in Hrun as (Hh' & Hb & Hl' & Hge & Hperm & Hfuel);
      [| | lia | by rewrite length_insert].
    + rewrite length_insert in Hl'.
      split_and!; [done|lia|lia|done| | |lia].
      * intros j Hj. rewrite Hge by done.
        apply list_lookup_insert_ne; lia.
      * intros v. rewrite Hperm.
        apply insert_hole_swap; auto; lia.
    + apply hole_heap_sink; auto; [lia|unfold parent in *; lia|].
      intros s x Hs Hps Hx.
      destruct (Hkids s) as [->| ->]; [lia|done| |]; simplify_eq.
      * by apply comp_asym.
      * apply comp_irrefl.
  - apply IH in Hrun as (Hh' & Hb & Hl' & Hge & Hperm & Hfuel);
      [| | lia | by rewrite length_insert].
    + rewrite length_insert in Hl'.
      split_and!; [done|lia|lia|done| | |lia].
      * intros j Hj. rewrite Hge by done.
        apply list_lookup_insert_ne; lia.
      * intros v. rewrite Hperm.
        apply insert_hole_swap; auto; lia.
    + apply hole_heap_sink; auto; [lia|unfold parent in *; lia|].
      intros s x Hs Hps Hx.
      destruct (Hkids s) as [->| ->]; [lia|done| |]; simplify_eq.
      * apply comp_irrefl.
      * done.
Qed.

(** The hole rises while its parent is put by [comp] before the value; the
    value is written where the hole stops. *)
Lemma push_heap_loop_spec fuel : ∀ a h len v,
  hole_heap a h len →
  (∀ i x, 0 < i < len → parent i = h → a !! i = Some x → comp v x = false) →
  h < len → len ≤ length a → h ≤ fuel →
  heap_upto (push_heap_loop fuel a h 0 v) len ∧
  length (push_heap_loop fuel a h 0 v) = length a ∧
  (∀ j, len ≤ j → push_heap_loop fuel a h 0 v !! j = a !! j) ∧
  push_heap_loop fuel a h 0 v ≡ₚ <[h := v]> a.
Proof.
  assert (Hstop : ∀ a h len v,
    hole_heap a h len →
    (∀ i x, 0 < i < len → parent i = h → a !! i = Some x →
            comp v x = false) →
    h < len → len ≤ length a →
    (0 < h → ∀ p, a !! parent h = Some p → comp p v = false) →
    heap_upto (<[h := v]> a) len ∧ length (<[h := v]> a) = length a ∧
    (∀ j, len ≤ j → <[h := v]> a !! j = a !! j) ∧
    <[h := v]> a ≡ₚ <[h := v]> a).
  { intros a h len v [H1 H2] Hkids Hlt Hlen Htop. split_and!.
    - intros i x y Hi Hx Hy.
      destruct (decide (i = h)) as [->|Hih].
      + rewrite list_lookup_insert_eq in Hx by lia. simplify_eq.
        rewrite list_lookup_insert_ne in Hy by (unfold parent in *; lia).
        apply (Htop ltac:(lia) y Hy).
      + rewrite list_lookup_insert_ne in Hx by done.
        destruct (decide (parent i = h)) as [Hpi|Hpi].
        * rewrite Hpi, list_lookup_insert_eq in Hy by lia. simplify_eq.
          by apply (Hkids i).
        * rewrite list_lookup_insert_ne in Hy by done. by apply (H1 i).
    - apply length_insert.
    - intros j Hj. apply list_lookup_insert_ne. lia.
    - done. }
  induction fuel as [|fuel IH]; intros a h len v Hh Hkids Hlt Hlen Hfuel;
    cbn [push_heap_loop].
  { apply Hstop; auto. lia. }
  destruct (Nat.ltb_spec 0 h) as [Hpos|Hzero]; cycle 1.
  { apply Hstop; auto. lia. }
  destruct (lookup_lt_is_Some_2 a (parent h)) as [p Hp];
    [unfold parent; lia|].
  rewrite Hp. destruct (comp p v) eqn:Hpv; cycle 1.
  { apply Hstop; auto. intros _ q Hq. by simplify_eq. }
  destruct Hh as [H1 H2].
  assert (Hph : parent h < h) by (unfold parent; lia).
  destruct (IH (<[h := p]> a) (parent h) len v) as (Hheap & Hl & Hge & Hperm).
  - split.
    + intros i x y Hi Hiph Hpiph Hx Hy.
      assert (i ≠ h) by congruence.
      rewrite list_lookup_insert_ne in Hx by done.
      destruct (decide (parent i = h)) as [Hpi|Hpi].
      * rewrite Hpi, list_lookup_insert_eq in Hy by lia. simplify_eq.
        by apply (H2 i x y).
      * rewrite list_lookup_insert_ne in Hy by done. by apply (H1 i).
    + intros i x y Hi Hpi Hpp Hx Hy.
      rewrite list_lookup_insert_ne in Hy by (unfold parent in *; lia).
      assert (Hpy : comp y p = false).
      { apply (H1 (parent h) p y); auto; unfold parent in *; lia. }
      destruct (decide (i = h)) as [->|Hih].
      * rewrite list_lookup_insert_eq in Hx by lia. by simplify_eq.
      * rewrite list_lookup_insert_ne in Hx by done.
        apply (comp_negtrans y p x); [done|].
        apply (H1 i x p); auto; [unfold parent in *; lia|by rewrite Hpi].
  - intros i x Hi Hpi Hx.
    destruct (decide (i = h)) as [->|Hih].
    + rewrite list_lookup_insert_eq in Hx by lia. simplify_eq.
      by apply comp_asym.
    + rewrite list_lookup_insert_ne in Hx by done.
      apply (comp_negtrans v p x); [by apply comp_asym|].
      apply (H1 i x p); auto; [unfold parent in *; lia|by rewrite Hpi].
  - lia.
  - by rewrite length_insert.
  - lia.
  - rewrite length_insert in Hl. split_and!; [done|done| |].
    + intros j Hj. rewrite Hge by done. apply list_lookup_insert_ne. lia.
    + rewrite Hperm. apply insert_hole_swap; auto; lia.
Qed.

(** A hole at the bottom of the heap has no child. *)
Lemma std__adjust_heap_spec a len v :
  heap_upto a len → 0 < len ≤ length a →
  heap_upto (std__adjust_heap a 0 len v) len ∧
  length (std__adjust_heap a 0 len v) = length a ∧
  (∀ j, len ≤ j → std__adjust_heap a 0 len v !! j = a !! j) ∧
  std__adjust_heap a 0 len v ≡ₚ <[0 := v]> a.
Proof.
  intros Hheap Hlen. unfold std__adjust_heap.
  destruct (adjust_heap_loop len a 0 len) as [a1 h1] eqn:Hloop.
  apply adjust_heap_loop_spec in Hloop
    as (Hh1 & Hb1 & Hl1 & Hge1 & Hperm1 & Hfuel1);
    [|by apply heap_upto_hole|lia|lia].
  specialize (Hfuel1 ltac:(lia)).
  assert (Hstep : ∃ a2 h2,
    (if (len mod 2 =? 0)
        && (Z.of_nat h1 =? Z.quot (Z.of_nat len - 2) 2)%Z then
       match a1 !! (2 * (h1 + 1) - 1) with
       | Some l => (<[h1 := l]> a1, 2 * (h1 + 1) - 1)
       | None => (a1, h1)
       end
     else (a1, h1)) = (a2, h2) ∧
    hole_heap a2 h2 len ∧ h2 < len ∧ length a2 = length a ∧
    (∀ j, len ≤ j → a2 !! j = a !! j) ∧
    (∀ w, <[h2 := w]> a2 ≡ₚ <[0 := w]> a) ∧
    len ≤ 2 * h2 + 1).
  { destruct (Nat.eqb_spec (len mod 2) 0) as [Heven|Hodd]; cycle 1.
    { exists a1, h1. cbn [andb]. split_and!; auto; lia. }
    destruct (Z.eqb_spec (Z.of_nat h1) (Z.quot (Z.of_nat len - 2) 2))
      as [Hlast|Hnot]; cycle 1.
    { exists a1, h1. cbn [andb]. split_and!; auto; lia. }
    cbn [andb].
    destruct (lookup_lt_is_Some_2 a1 (2 * (h1 + 1) - 1)) as [l Hl]; [lia|].
    rewrite Hl. eexists _, _. split; [done|].
    split_and!; [|lia|by rewrite length_insert| | |lia].
    - apply hole_heap_sink; auto; try (unfold parent in *; lia).
      intros s x Hs Hps Hx.
      assert (s = 2 * (h1 + 1) - 1) as -> by (unfold parent in *; lia).
      simplify_eq. apply comp_irrefl.
    - intros j Hj. rewrite <- Hge1 by done.
      apply list_lookup_insert_ne. lia.
    - intros w. rewrite <- Hperm1. apply insert_hole_swap; auto; lia. }
  destruct Hstep as (a2 & h2 & -> & Hh2 & Hb2 & Hl2 & Hge2 & Hperm2 & Hleaf).
  unfold std__push_heap.
  destruct (push_heap_loop_spec h2 a2 h2 len v) as (H1 & H2 & H3 & H4);
    auto; try lia.
  { intros i x Hi Hpi _. unfold parent in *; lia. }
  split_and!; [done|lia| |].
  - intros j Hj. by rewrite H3, Hge2.
  - by rewrite H4.
Qed.

(** Contract of [std::pop_heap]: the first element is moved to the last
    position and the other elements form a heap. *)
Lemma std_pop_heap_spec a f :
  is_heap a → a !! 0 = Some f →
  length (std_pop_heap a) = length a ∧
  std_pop_heap a !! (length a - 1) = Some f ∧
  heap_upto (std_pop_heap a) (length a - 1) ∧
  std_pop_heap a ≡ₚ a.
Proof.
  intros Hheap Hf. unfold std_pop_heap.
  destruct (Nat.ltb_spec 1 (length a)) as [Hn|Hn]; cycle 1.
  { assert (length a = 1) as Hone
      by (apply lookup_lt_Some in Hf; lia).
    rewrite Hone. split_and!; [done|done| |done].
    intros i x y Hi. lia. }
  destruct (lookup_lt_is_Some_2 a (length a - 1)) as [v Hv]; [lia|].
  rewrite Hv, Hf.
  destruct (std__adjust_heap_spec (<[length a - 1 := f]> a)
              (length a - 1) v) as (H1 & H2 & H3 & H4).
  { apply heap_upto_insert_ge; [lia|].
    apply (heap_upto_le a (length a)); [lia|done]. }
  { rewrite length_insert. lia. }
  rewrite length_insert in H2.
  split_and!; [done| |done|].
  - rewrite H3 by lia. apply list_lookup_insert_eq. lia.
  - rewrite H4. apply Permutation_insert_swap; done.
Qed.

(** Contract of [std::push_heap]: when all elements but the last form a
    heap, the result is a heap of the same elements. *)
Lemma std_push_heap_spec a :
  0 < length a → heap_upto a (length a - 1) →
  is_heap (std_push_heap a) ∧ std_push_heap a ≡ₚ a.
Proof.
  intros Hn Hheap. unfold std_push_heap, std__push_heap.
  destruct (lookup_lt_is_Some_2 a (length a - 1)) as [v Hv]; [lia|].
  rewrite Hv.
  destruct (push_heap_loop_spec (length a - 1) a (length a - 1)
              (length a) v) as (H1 & H2 & H3 & H4); try lia.
  - split.
    + intros i x y Hi Hne Hpne Hx Hy. apply (Hheap i); auto. lia.
    + intros i x y Hi Hpi. unfold parent in *; lia.
  - intros i x Hi Hpi. unfold parent in *; lia.
  - unfold is_heap. rewrite H2. split; [done|].
    by rewrite H4, list_insert_id.
Qed.

(** The first element of a heap is not preceded by any other. *)
Lemma heap_upto_front a len f :
  heap_upto a len → a !! 0 = Some f →
  ∀ i x, i < len → a !! i = Some x → comp f x = false.
Proof.
  intros Hheap Hf i. induction (lt_wf i) as [i _ IH]. intros x Hi Hx.
  destruct (decide (i = 0)) as [->|Hpos].
  { simplify_eq. apply comp_irrefl. }
  destruct (lookup_lt_is_Some_2 a (parent i)) as [y Hy].
  { apply lookup_lt_Some in Hx. unfold parent. lia. }
  apply (comp_negtrans f y x).
  - apply (IH (parent i)); auto; unfold parent; lia.
  - apply (Hheap i); auto. lia.
Qed.

Lemma is_heapb_spec a : is_heapb a = true ↔ is_heap a.
Proof.
  unfold is_heapb, is_heap, heap_upto. rewrite forallb_forall. split.
  - intros H i x y Hi Hx Hy.
    specialize (H i). rewrite Hx, Hy in H.
    apply negb_true_iff, H, in_seq. lia.
  - intros H i Hi%in_seq.
    destruct (a !! i) as [x|] eqn:Hx; [|done].
    destruct (a !! parent i) as [y|] eqn:Hy; [|done].
    apply negb_true_iff, (H i); auto. lia.
Qed.

End StdHeapContract.

Lemma compare_asym x y : compare x y = true → compare y x = false.
Proof. unfold compare. lia. Qed.

Lemma compare_negtrans x y z :
  compare x y = false → compare y z = false → compare x z = false.
Proof. unfold compare. lia. Qed.

Example replace_ex :
  replace (7%Z, mkTTEntry 0 0 0 false 0 9)
    (mkClusterCache
       [(1%Z, mkTTEntry 0 0 0 false 0 4); (2%Z, mkTTEntry 0 0 0 false 0 8);
        (3%Z, mkTTEntry 0 0 0 false 0 5)] ([], [])
       (MPI_REQUEST_NULL, MPI_REQUEST_NULL) 0)
  = Some (true,
      mkClusterCache
       [(3%Z, mkTTEntry 0 0 0 false 0 5); (2%Z, mkTTEntry 0 0 0 false 0 8);
        (7%Z, mkTTEntry 0 0 0 false 0 9)] ([], [])
       (MPI_REQUEST_NULL, MPI_REQUEST_NULL) 1).
Proof. vm_compute. reflexivity. Qed.

(** ** The thread-local cache: [replace] *)

Lemma replace_unfold (c : ClusterCache) (e front : KeyedTTEntry) :
  buffer c !! 0 = Some front →
  replace e c =
    Some (compare e front,
          mkClusterCache
            (if compare e front
             then std_push_heap compare
                    (<[length (std_pop_heap compare (buffer c)) - 1 := e]>
                       (std_pop_heap compare (buffer c)))
             else buffer c)
            (TTSendRecvBuffs c) (reqsTTSendRecv c)
            (wrap64 (TTCacheCounter c + 1))).
Proof.
  intros Hf. unfold replace. cbn. rewrite Hf. cbn.
  by destruct (compare e front).
Qed.

(** The front of a heap is the shallowest entry. *)
Lemma heap_front_shallowest (b : list KeyedTTEntry) (front : KeyedTTEntry) :
  is_heap compare b → b !! 0 = Some front →
  ∀ x, x ∈ b → (depth front.2 ≤ depth x.2)%Z.
Proof.
  intros Hheap Hf x [i Hi]%list_elem_of_lookup.
  pose proof (heap_upto_front compare compare_asym compare_negtrans
                b (length b) front Hheap Hf i x
                (lookup_lt_Some _ _ _ Hi) Hi) as H.
  unfold compare in H. lia.
Qed.

(** An accepted entry takes the place of the front, and the result is again
    a heap. *)
Lemma replace_buffer_heap (b : list KeyedTTEntry) (e front : KeyedTTEntry) :
  is_heap compare b → b !! 0 = Some front →
  let b' := std_push_heap compare
              (<[length (std_pop_heap compare b) - 1 := e]>
                 (std_pop_heap compare b)) in
  is_heap compare b' ∧ length b' = length b ∧
  ∃ rest, b ≡ₚ front :: rest ∧ b' ≡ₚ e :: rest.
Proof.
  intros Hheap Hf b'.
  destruct (std_pop_heap_spec compare compare_asym compare_negtrans b front
              Hheap Hf) as (Hlen & Hlast & Hh & Hperm).
  assert (Hpos : 0 < length b) by (by apply lookup_lt_Some in Hf).
  destruct (std_push_heap_spec compare compare_asym compare_negtrans
              (<[length (std_pop_heap compare b) - 1 := e]>
                 (std_pop_heap compare b))) as (Hh' & Hperm').
  { rewrite length_insert. lia. }
  { rewrite length_insert, Hlen. apply heap_upto_insert_ge; [lia|done]. }
  split; [done|]. split.
  { unfold b'. by rewrite (Permutation_length Hperm'), length_insert. }
  exists (delete (length b - 1) (std_pop_heap compare b)). split.
  - etrans; [symmetry; exact Hperm|]. by apply delete_Permutation.
  - unfold b'. etrans; [exact Hperm'|]. rewrite Hlen.
    etrans; [apply (delete_Permutation _ (length b - 1) e),
               list_lookup_insert_eq; lia|].
    apply Permutation_cons; [done|].
    assert (Hdel : ∀ (l : list KeyedTTEntry) i,
               delete i (<[i := e]> l) = delete i l).
    { induction l as [|x l IH]; intros [|i]; cbn; [done|done|done|].
      by rewrite IH. }
    by rewrite Hdel.
Qed.

(** What one call of [replace] does to the cache. *)
Lemma replace_step (c : ClusterCache) (e front : KeyedTTEntry) :
  buffer c !! 0 = Some front →
  is_heap compare (buffer c) →
  ∃ r c',
    replace e c = Some (r, c') ∧
    TTCacheCounter c' = wrap64 (TTCacheCounter c + 1) ∧
    TTSendRecvBuffs c' = TTSendRecvBuffs c ∧
    reqsTTSendRecv c' = reqsTTSendRecv c ∧
    (r = true ↔ (depth front.2 < depth e.2)%Z) ∧
    (∀ x, x ∈ buffer c → (depth front.2 ≤ depth x.2)%Z) ∧
    (r = true →
     is_heap compare (buffer c') ∧ length (buffer c') = length (buffer c) ∧
     ∃ rest, buffer c ≡ₚ front :: rest ∧ buffer c' ≡ₚ e :: rest) ∧
    (r = false → buffer c' = buffer c).
Proof.
  intros Hf Hheap. eexists _, _. split; [by apply replace_unfold|]. cbn.
  split_and!; try done.
  - unfold compare. lia.
  - by apply heap_front_shallowest.
  - intros ->. by apply replace_buffer_heap.
  - by intros ->.
Qed.

(** C2: [replace] adds one to [TTCacheCounter] whatever the outcome; it
    returns true exactly when the offered entry is strictly deeper than
    [front()], and then the front, which is the shallowest entry held, is
    removed and the offered entry inserted, the buffer being a heap again;
    otherwise it returns false and the buffer is unchanged.  With a single
    cell the cell is replaced exactly when the offer is deeper than it. *)
Theorem replace_spec (c : ClusterCache) (e front : KeyedTTEntry) :
  buffer c !! 0 = Some front →
  is_heap compare (buffer c) →
  ∃ r c',
    replace e c = Some (r, c') ∧
    TTCacheCounter c' = wrap64 (TTCacheCounter c + 1) ∧
    ((0 ≤ TTCacheCounter c < 2 ^ 64 - 1)%Z →
     TTCacheCounter c' = (TTCacheCounter c + 1)%Z) ∧
    TTSendRecvBuffs c' = TTSendRecvBuffs c ∧
    reqsTTSendRecv c' = reqsTTSendRecv c ∧
    (r = true ↔ (depth front.2 < depth e.2)%Z) ∧
    (∀ x, x ∈ buffer c → (depth front.2 ≤ depth x.2)%Z) ∧
    (r = true →
     is_heap compare (buffer c') ∧ length (buffer c') = length (buffer c) ∧
     ∃ rest, buffer c ≡ₚ front :: rest ∧ buffer c' ≡ₚ e :: rest) ∧
    (r = false → buffer c' = buffer c) ∧
    (length (buffer c) = 1 →
     buffer c = [front] ∧ (r = true → buffer c' = [e])).
Proof.
  intros Hf Hheap.
  destruct (replace_step c e front Hf Hheap)
    as (r & c' & Hrun & Hcnt & HB & Hreq & Hr & Hmin & Htrue & Hfalse).
  exists r, c'. split_and!; try done.
  - intros Hrange. rewrite Hcnt. unfold wrap64. lia.
  - intros Hone.
    assert (Hb : buffer c = [front]).
    { destruct (buffer c) as [|x [|y l]]; cbn in *; try lia. by simplify_eq. }
    split; [done|]. intros Ht.
    destruct (Htrue Ht) as (_ & _ & rest & Hp & Hp').
    rewrite Hb in Hp. apply Permutation_cons_inv, Permutation_nil_l in Hp.
    subst rest. by apply Permutation_singleton_r in Hp'.
Qed.

Lemma replace_spec_witness :
  let c := mkClusterCache
             [(1%Z, mkTTEntry 0 0 0 false 0 4); (2%Z, mkTTEntry 0 0 0 false 0 8);
              (3%Z, mkTTEntry 0 0 0 false 0 5)] ([], [])
             (MPI_REQUEST_NULL, MPI_REQUEST_NULL) 15 in
  ∃ r c', replace (7%Z, mkTTEntry 0 0 0 false 0 9) c = Some (r, c') ∧
          TTCacheCounter c' = 16%Z ∧ r = true.
Proof.
  intros c.
  destruct (replace_spec c (7%Z, mkTTEntry 0 0 0 false 0 9)
              (1%Z, mkTTEntry 0 0 0 false 0 4)) as (r & c' & H & _ & Hc & _ & _ & Hr & _).
  - reflexivity.
  - apply is_heapb_spec. reflexivity.
  - exists r, c'. split; [exact H|]. split.
    + apply Hc. cbn. lia.
    + apply Hr. cbn. lia.
Defined.

Lemma is_heap_replicate (n : nat) (x : KeyedTTEntry) :
  is_heap compare (replicate n x).
Proof.
  intros i u w _ Hu%lookup_replicate_1 Hw%lookup_replicate_1.
  destruct Hu as [-> _], Hw as [-> _]. unfold compare. lia.
Qed.

Lemma wrap64_add_l (x n : Z) : wrap64 (wrap64 x + n) = wrap64 (x + n).
Proof. unfold wrap64. apply Z.add_mod_idemp_l. lia. Qed.

(** One call keeps the deepest entries of what was held and what is
    offered. *)
Lemma replace_holds_deepest (c : ClusterCache) (e : KeyedTTEntry)
    (pool : list KeyedTTEntry) :
  is_heap compare (buffer c) → 0 < length (buffer c) →
  holds_deepest (buffer c) pool →
  ∃ r c', replace e c = Some (r, c') ∧
    is_heap compare (buffer c') ∧ length (buffer c') = length (buffer c) ∧
    holds_deepest (buffer c') (e :: pool) ∧
    TTCacheCounter c' = wrap64 (TTCacheCounter c + 1).
Proof.
  intros Hheap Hpos (dropped & Hpool & Hle).
  destruct (lookup_lt_is_Some_2 (buffer c) 0 Hpos) as [front Hf].
  destruct (replace_step c e front Hf Hheap)
    as (r & c' & Hrun & Hcnt & _ & _ & Hr & Hmin & Htrue & Hfalse).
  exists r, c'. split; [done|]. destruct r.
  - destruct (Htrue eq_refl) as (Hheap' & Hlen & rest & Hp & Hp').
    split_and!; [done|done| |done].
    exists (front :: dropped). split.
    + rewrite Hp', <- Hpool, Hp. cbn.
      rewrite <- Permutation_middle. by rewrite Permutation_swap.
    + assert (Hfe : (depth front.2 < depth e.2)%Z) by by apply Hr.
      assert (Hfront : front ∈ buffer c)
        by (apply list_elem_of_lookup; eauto).
      intros d h Hd Hh. rewrite Hp' in Hh.
      assert (depth d.2 ≤ depth front.2)%Z as Hdf.
      { apply elem_of_cons in Hd as [->|Hd]; [lia|by apply Hle]. }
      apply elem_of_cons in Hh as [->|Hh]; [lia|].
      assert (h ∈ buffer c) by (rewrite Hp; by right).
      specialize (Hmin h). lia.
  - rewrite (Hfalse eq_refl). split_and!; [done|done| |done].
    exists (e :: dropped). split.
    + by rewrite <- Permutation_middle, Hpool.
    + assert (Hfe : ¬ (depth front.2 < depth e.2)%Z)
        by (intros H%Hr; done).
      intros d h Hd Hh. specialize (Hmin h Hh).
      apply elem_of_cons in Hd as [->|Hd]; [lia|by apply Hle].
Qed.

Lemma replace_all_holds_deepest (es : list KeyedTTEntry) :
  ∀ (c : ClusterCache) (pool : list KeyedTTEntry),
  is_heap compare (buffer c) → 0 < length (buffer c) →
  holds_deepest (buffer c) pool → is_uint64 (TTCacheCounter c) →
  ∃ rs c', replace_all es c = Some (rs, c') ∧ length rs = length es ∧
    is_heap compare (buffer c') ∧ length (buffer c') = length (buffer c) ∧
    holds_deepest (buffer c') (es ++ pool) ∧
    TTCacheCounter c' = wrap64 (TTCacheCounter c + Z.of_nat (length es)).
Proof.
  induction es as [|e es IH]; intros c pool Hheap Hpos Hpool Hcnt.
  { exists [], c. cbn. split_and!; try done.
    unfold wrap64, is_uint64 in *. lia. }
  destruct (replace_holds_deepest c e pool)
    as (r & c1 & Hrun & Hheap1 & Hlen1 & Hpool1 & Hcnt1); auto.
  destruct (IH c1 (e :: pool)) as (rs & c2 & Hrun2 & Hrs & Hheap2 & Hlen2
                                     & Hpool2 & Hcnt2); auto; try lia.
  { rewrite Hcnt1. unfold is_uint64, wrap64. lia. }
  exists (r :: rs), c2. cbn [replace_all]. rewrite Hrun. cbn. rewrite Hrun2.
  cbn. split_and!; auto; try lia.
  - destruct Hpool2 as (dropped & Hp & Hle). exists dropped. split; [|done].
    by rewrite Hp, Permutation_middle.
  - rewrite Hcnt2, Hcnt1, wrap64_add_l. f_equal. lia.
Qed.

(** While sentinels remain in the buffer, every offer deeper than the
    sentinel is accepted and takes the place of one of them. *)
Lemma replace_all_fills (es : list KeyedTTEntry) :
  ∀ (c : ClusterCache) (xs : list KeyedTTEntry) (m : nat),
  is_heap compare (buffer c) → 0 < length (buffer c) →
  buffer c ≡ₚ xs ++ replicate m sentinel →
  (∀ x, x ∈ xs → (depth sentinel.2 < depth x.2)%Z) →
  (∀ e, e ∈ es → (depth sentinel.2 < depth e.2)%Z) →
  ∃ rs c', replace_all es c = Some (rs, c') ∧
    take m rs = replicate (m `min` length es) true ∧
    (m ≤ length es → ∀ h, h ∈ buffer c' → h ∈ xs ∨ h ∈ es).
Proof.
  induction es as [|e es IH]; intros c xs m Hheap Hpos Hb Hxs Hes.
  { exists [], c. cbn. split_and!; [done| |].
    - by rewrite take_nil, Nat.min_0_r.
    - intros Hm h Hh. assert (m = 0) as -> by lia.
      cbn in Hb. rewrite app_nil_r in Hb. left. by rewrite <- Hb. }
  destruct (lookup_lt_is_Some_2 (buffer c) 0 Hpos) as [front Hf].
  destruct (replace_step c e front Hf Hheap)
    as (r & c1 & Hrun & _ & _ & _ & Hr & Hmin & Htrue & Hfalse).
  assert (Hin : ∀ h, h ∈ buffer c1 → h = e ∨ h ∈ buffer c).
  { intros h Hh. destruct r.
    - destruct (Htrue eq_refl) as (_ & _ & rest & Hp & Hp').
      rewrite Hp' in Hh. apply elem_of_cons in Hh as [->|Hh]; [by left|].
      right. rewrite Hp. by right.
    - right. by rewrite <- (Hfalse eq_refl). }
  assert (Hheap1 : is_heap compare (buffer c1) ∧
                   length (buffer c1) = length (buffer c)).
  { destruct r.
    - by destruct (Htrue eq_refl) as (? & ? & _).
    - by rewrite (Hfalse eq_refl). }
  destruct Hheap1 as [Hheap1 Hlen1].
  assert (He : (depth sentinel.2 < depth e.2)%Z) by (apply Hes; by left).
  destruct m as [|m].
  - destruct (IH c1 (buffer c1) 0) as (rs & c2 & Hrun2 & _ & Hsub);
      auto; try lia.
    { cbn. by rewrite app_nil_r. }
    { intros x [->|Hx]%Hin; [done|]. apply Hxs.
      rewrite Hb in Hx. cbn in Hx. by rewrite app_nil_r in Hx. }
    { intros x Hx. apply Hes. by right. }
    exists (r :: rs), c2. cbn [replace_all]. rewrite Hrun. cbn.
    rewrite Hrun2. cbn. split_and!; [done|done|].
    intros _ h Hh. destruct (Hsub ltac:(lia) h Hh) as [Hh1|Hh1].
    + apply Hin in Hh1 as [->|Hh1]; [right; by left|].
      left. rewrite Hb in Hh1. cbn in Hh1. by rewrite app_nil_r in Hh1.
    + right. by right.
  - assert (Hsent : sentinel ∈ buffer c).
    { rewrite Hb. apply elem_of_app. right. by left. }
    assert (Hfront : front ∈ buffer c)
      by (apply list_elem_of_lookup; eauto).
    assert (Hfs : front = sentinel).
    { specialize (Hmin _ Hsent). rewrite Hb in Hfront.
      apply elem_of_app in Hfront as [Hx|Hx].
      - specialize (Hxs _ Hx). lia.
      - by apply elem_of_replicate in Hx as [? _]. }
    subst front.
    assert (r = true) as -> by (apply Hr; specialize (Hmin _ Hsent); lia).
    destruct (Htrue eq_refl) as (_ & _ & rest & Hp & Hp').
    assert (Hrest : rest ≡ₚ xs ++ replicate m sentinel).
    { apply (Permutation_cons_inv (a := sentinel)).
      rewrite <- Hp, Hb. cbn. by rewrite <- Permutation_middle. }
    destruct (IH c1 (e :: xs) m) as (rs & c2 & Hrun2 & Htake & Hsub);
      auto; try lia.
    { by rewrite Hp', Hrest. }
    { intros x [->|Hx]%elem_of_cons; [done|by apply Hxs]. }
    { intros x Hx. apply Hes. by right. }
    exists (true :: rs), c2. cbn [replace_all]. rewrite Hrun. cbn.
    rewrite Hrun2. cbn. split_and!; [done|by rewrite Htake|].
    intros Hm h Hh. destruct (Hsub ltac:(lia) h Hh) as [Hh1|Hh1].
    + apply elem_of_cons in Hh1 as [->|Hh1]; [right; by left|by left].
    + right. by right.
Qed.

(** C3: a run of [replace] calls on a flushed cache of capacity
    [TTCacheSize] (all cells hold the sentinel, the counter is zero).  After
    the run the buffer still has [TTCacheSize] cells, is a min-heap by depth
    whose front is the shallowest entry held, and holds the deepest entries
    among the sentinels and the offers; the counter counts the calls.  When
    every offer is deeper than the sentinel, the first [TTCacheSize] offers
    are all accepted, and from then on only offered entries are held. *)
Theorem replace_all_deepest (TTCacheSize : nat) (c : ClusterCache)
    (es : list KeyedTTEntry) :
  0 < TTCacheSize →
  buffer c = replicate TTCacheSize sentinel →
  TTCacheCounter c = 0%Z →
  ∃ rs c',
    replace_all es c = Some (rs, c') ∧
    length rs = length es ∧
    length (buffer c') = TTCacheSize ∧
    is_heap compare (buffer c') ∧
    (∃ front, buffer c' !! 0 = Some front ∧
       ∀ x, x ∈ buffer c' → (depth front.2 ≤ depth x.2)%Z) ∧
    holds_deepest (buffer c') (es ++ replicate TTCacheSize sentinel) ∧
    TTCacheCounter c' = wrap64 (Z.of_nat (length es)) ∧
    ((∀ e, e ∈ es → (depth sentinel.2 < depth e.2)%Z) →
     take TTCacheSize rs = replicate (TTCacheSize `min` length es) true ∧
     (TTCacheSize ≤ length es → ∀ h, h ∈ buffer c' → h ∈ es)).
Proof.
  intros HC Hb Hcnt.
  assert (Hheap : is_heap compare (buffer c))
    by (rewrite Hb; apply is_heap_replicate).
  assert (Hpos : 0 < length (buffer c)) by (by rewrite Hb, length_replicate).
  destruct (replace_all_holds_deepest es c (replicate TTCacheSize sentinel))
    as (rs & c' & Hrun & Hrs & Hheap' & Hlen' & Hpool & Hcnt'); auto.
  { exists []. rewrite Hb, app_nil_r. split; [done|].
    intros d h Hd. by apply elem_of_nil in Hd. }
  { rewrite Hcnt. unfold is_uint64. lia. }
  exists rs, c'. rewrite Hb, length_replicate in Hlen'.
  split_and!; auto.
  - destruct (lookup_lt_is_Some_2 (buffer c') 0) as [front Hf]; [lia|].
    exists front. split; [done|]. by apply heap_front_shallowest.
  - by rewrite Hcnt', Hcnt.
  - intros Hes.
    destruct (replace_all_fills es c [] TTCacheSize)
      as (rs2 & c2 & Hrun2 & Htake & Hsub); auto.
    { by rewrite Hb. }
    { intros x Hx. by apply elem_of_nil in Hx. }
    rewrite Hrun in Hrun2. simplify_eq. split; [done|].
    intros Hle h Hh. destruct (Hsub Hle h Hh) as [Hx|Hx]; [|done].
    by apply elem_of_nil in Hx.
Qed.

Lemma replace_all_deepest_witness :
  ∃ rs c',
    replace_all
      [(5%Z, mkTTEntry 0 0 0 false 0 7); (6%Z, mkTTEntry 0 0 0 false 0 4);
       (7%Z, mkTTEntry 0 0 0 false 0 9); (8%Z, mkTTEntry 0 0 0 false 0 5)]
      (ClusterCache_new 2 1) = Some (rs, c') ∧
    length (buffer c') = 2 ∧ TTCacheCounter c' = wrap64 4.
Proof.
  destruct (replace_all_deepest 2 (ClusterCache_new 2 1)
      [(5%Z, mkTTEntry 0 0 0 false 0 7); (6%Z, mkTTEntry 0 0 0 false 0 4);
       (7%Z, mkTTEntry 0 0 0 false 0 9); (8%Z, mkTTEntry 0 0 0 false 0 5)])
    as (rs & c' & H & _ & Hl & _ & _ & _ & Hc & _).
  - lia.
  - reflexivity.
  - reflexivity.
  - exists rs, c'. split; [exact H|]. split; [exact Hl|exact Hc].
Defined.

Example replace_all_ex :
  replace_all
    [(5%Z, mkTTEntry 0 0 0 false 0 7); (6%Z, mkTTEntry 0 0 0 false 0 4);
     (7%Z, mkTTEntry 0 0 0 false 0 9); (8%Z, mkTTEntry 0 0 0 false 0 5)]
    (ClusterCache_new 2 1)
  = Some ([true; true; true; false],
          mkClusterCache
            [(5%Z, mkTTEntry 0 0 0 false 0 7); (7%Z, mkTTEntry 0 0 0 false 0 9)]
            ([sentinel; sentinel], [sentinel; sentinel])
            (MPI_REQUEST_NULL, MPI_REQUEST_NULL) 4).
Proof. vm_compute. reflexivity. Qed.

(** ** The ring exchange *)

Example handle_buffer_ex :
  handle_buffer 2 2 1 0
    (mkClusterCache
       [(5%Z, mkTTEntry 1 2 3 false 1 7); (7%Z, mkTTEntry 4 5 6 true 2 9)]
       ([(1%Z, mkTTEntry 0 0 0 false 0 4); (2%Z, mkTTEntry 0 0 0 false 0 8);
         sentinel; sentinel], replicate 4 sentinel)
       (MPI_REQUEST_NULL, MPI_REQUEST_NULL) 2)
  = Some (1%Z,
      mkClusterCache [sentinel; sentinel]
       ([(1%Z, mkTTEntry 0 0 0 false 0 4); (2%Z, mkTTEntry 0 0 0 false 0 8);
         (5%Z, mkTTEntry 1 2 3 false 1 7); (7%Z, mkTTEntry 4 5 6 true 2 9)],
        replicate 4 sentinel)
       (Pending, Pending) 0,
      [TT_probe 1%Z; TTEntry_save 1%Z 0%Z false 0%Z 4%Z 0%Z 0%Z;
       TT_probe 2%Z; TTEntry_save 2%Z 0%Z false 0%Z 8%Z 0%Z 0%Z;
       MPI_Irecv 1 4 0 42%Z TTComm; MPI_Isend 0 4 0 42%Z TTComm]).
Proof. vm_compute. reflexivity. Qed.

Lemma copy_to_buffer_spec (es : list KeyedTTEntry) :
  ∀ i B, i + length es ≤ length B →
  copy_to_buffer es i B = Some (take i B ++ es ++ drop (i + length es) B).
Proof.
  induction es as [|e es IH]; intros i B Hlen; cbn [copy_to_buffer length] in *.
  { rewrite Nat.add_0_r. cbn. by rewrite take_drop. }
  rewrite decide_True by lia. rewrite IH by (rewrite length_insert; lia).
  f_equal. rewrite (take_S_r _ i e) by (apply list_lookup_insert_eq; lia).
  rewrite take_insert_ge by lia. rewrite drop_insert_lt by lia.
  rewrite <- app_assoc. cbn. by rewrite Nat.add_succ_r.
Qed.

Lemma process_received_spec (n : nat) :
  ∀ i B, i + n ≤ length B →
  process_received n i B
  = Some (flat_map save_received (take n (drop i B))).
Proof.
  induction n as [|n IH]; intros i B Hlen; cbn [process_received].
  { by rewrite take_0. }
  destruct (lookup_lt_is_Some_2 B i) as [e He]; [lia|].
  rewrite He. cbn. rewrite IH by lia. cbn.
  rewrite (drop_S _ e i He). cbn. done.
Qed.

Lemma TTSendRecvBuff_set_eq p B c :
  TTSendRecvBuff (set_TTSendRecvBuff p B c) p = B.
Proof.
  unfold TTSendRecvBuff, set_TTSendRecvBuff.
  by destruct (p mod 2 =? 0)%Z.
Qed.

Lemma TTSendRecvBuff_set_ne p q B c :
  (p mod 2 ≠ q mod 2)%Z →
  TTSendRecvBuff (set_TTSendRecvBuff p B c) q = TTSendRecvBuff c q.
Proof.
  unfold TTSendRecvBuff, set_TTSendRecvBuff. intros Hne.
  destruct (Z.eqb_spec (p mod 2) 0), (Z.eqb_spec (q mod 2) 0);
    try reflexivity; lia.
Qed.

Lemma flat_map_take_slot {A B} (f : A → list B) (l : list A) (i a b : nat) :
  flat_map f (take a (drop i l)) ++ flat_map f (take b (drop (i + a) l))
  = flat_map f (take (a + b) (drop i l)).
Proof.
  by rewrite <- flat_map_app, <- (drop_drop l), take_take_drop.
Qed.

Lemma TTSendRecvBuff_parity p q c :
  (p mod 2 = q mod 2)%Z → TTSendRecvBuff c p = TTSendRecvBuff c q.
Proof. unfold TTSendRecvBuff. by intros ->. Qed.

Lemma length_TTSendRecvBuff_set p q B c n :
  length B = n → (∀ r, length (TTSendRecvBuff c r) = n) →
  length (TTSendRecvBuff (set_TTSendRecvBuff p B c) q) = n.
Proof.
  intros HB Hc. destruct (decide (p mod 2 = q mod 2)%Z) as [Heq|Hne].
  - by rewrite <- (TTSendRecvBuff_parity p q), TTSendRecvBuff_set_eq.
  - by rewrite TTSendRecvBuff_set_ne.
Qed.

Section HandleRanks.
Context (TTCacheSize rank : nat) (sendRecvPosted : Z).

Local Abbreviation own_slot c :=
  (take (rank * TTCacheSize) (TTSendRecvBuff c sendRecvPosted) ++ buffer c ++
   drop ((rank + 1) * TTCacheSize) (TTSendRecvBuff c sendRecvPosted)).

(** Past the rank's own slot, the loop only saves what it reads. *)
Lemma handle_ranks_other (n : nat) :
  ∀ irank c,
  rank < irank →
  (irank + n) * TTCacheSize ≤ length (TTSendRecvBuff c sendRecvPosted) →
  handle_ranks TTCacheSize rank sendRecvPosted n irank c
  = Some (c, flat_map save_received
               (take (n * TTCacheSize)
                  (drop (irank * TTCacheSize)
                     (TTSendRecvBuff c sendRecvPosted)))).
Proof.
  induction n as [|n IH]; intros irank c Hlt Hlen; cbn [handle_ranks].
  { by rewrite take_0. }
  rewrite decide_False by lia.
  rewrite process_received_spec by lia. cbn.
  rewrite IH by lia. cbn. do 2 f_equal.
  rewrite (Nat.add_comm TTCacheSize (irank * TTCacheSize)).
  by rewrite flat_map_take_slot.
Qed.

(** Up to and including the rank's own slot. *)
Lemma handle_ranks_own (k : nat) :
  ∀ irank m c,
  rank = irank + k →
  length (buffer c) = TTCacheSize →
  (rank + S m) * TTCacheSize ≤ length (TTSendRecvBuff c sendRecvPosted) →
  handle_ranks TTCacheSize rank sendRecvPosted (k + S m) irank c
  = Some (set_TTCacheCounter 0
            (set_buffer (replicate TTCacheSize sentinel)
               (set_TTSendRecvBuff sendRecvPosted (own_slot c) c)),
          flat_map save_received
            (take (k * TTCacheSize)
               (drop (irank * TTCacheSize)
                  (TTSendRecvBuff c sendRecvPosted))) ++
          flat_map save_received
            (take (m * TTCacheSize)
               (drop ((rank + 1) * TTCacheSize)
                  (TTSendRecvBuff c sendRecvPosted)))).
Proof.
  induction k as [|k IH]; intros irank m c Hrank Hbuf Hlen.
  - assert (irank = rank) as -> by lia. cbn [Nat.add handle_ranks].
    rewrite decide_True by done.
    rewrite copy_to_buffer_spec by lia. cbn.
    rewrite handle_ranks_other; [|lia|].
    + cbn. rewrite take_0. cbn. do 3 f_equal.
      * do 4 f_equal. rewrite Hbuf. f_equal. lia.
      * change (TTSendRecvBuff (set_TTCacheCounter 0 (set_buffer ?b ?c)) ?p)
          with (TTSendRecvBuff c p).
        rewrite TTSendRecvBuff_set_eq.
        rewrite !drop_app, !length_take.
        rewrite (drop_ge (take _ _)) by (rewrite length_take; lia).
        rewrite (drop_ge (buffer c)) by lia. cbn.
        rewrite drop_drop. do 2 f_equal. lia.
    + change (TTSendRecvBuff (set_TTCacheCounter 0 (set_buffer ?b ?c)) ?p)
        with (TTSendRecvBuff c p).
      rewrite TTSendRecvBuff_set_eq, !length_app, length_take, length_drop.
      lia.
  - cbn [Nat.add handle_ranks]. rewrite decide_False by lia.
    rewrite process_received_spec by lia. cbn.
    rewrite (IH (S irank)) by (done || lia). cbn. do 2 f_equal.
    rewrite app_assoc. f_equal.
    rewrite (Nat.add_comm TTCacheSize (irank * TTCacheSize)).
    by rewrite flat_map_take_slot.
Qed.

End HandleRanks.

(** What one round of [handle_buffer] returns. *)
Lemma handle_buffer_round (TTCacheSize size rank : nat)
    (sendRecvPosted : Z) (c : ClusterCache) :
  rank < size →
  is_uint64 sendRecvPosted →
  length (buffer c) = TTCacheSize →
  length (TTSendRecvBuffs c).1 = TTCacheSize * size →
  length (TTSendRecvBuffs c).2 = TTCacheSize * size →
  handle_buffer TTCacheSize size rank sendRecvPosted c
  = Some (wrap64 (sendRecvPosted + 1),
          set_reqsTTSendRecv (Pending, Pending)
            (set_TTCacheCounter 0
               (set_buffer (replicate TTCacheSize sentinel)
                  (set_TTSendRecvBuff sendRecvPosted
                     (take (rank * TTCacheSize)
                        (TTSendRecvBuff c sendRecvPosted) ++
                      buffer c ++
                      drop ((rank + 1) * TTCacheSize)
                        (TTSendRecvBuff c sendRecvPosted)) c))),
          flat_map save_received
            (take (rank * TTCacheSize) (TTSendRecvBuff c sendRecvPosted)) ++
          flat_map save_received
            (drop ((rank + 1) * TTCacheSize)
               (TTSendRecvBuff c sendRecvPosted)) ++
          [MPI_Irecv (Z.to_nat ((sendRecvPosted + 1) mod 2))
             (TTCacheSize * size) ((rank + size - 1) mod size) 42 TTComm;
           MPI_Isend (Z.to_nat (sendRecvPosted mod 2))
             (TTCacheSize * size) ((rank + 1) mod size) 42 TTComm]).
Proof.
  intros Hrank Hposted Hbuf H1 H2.
  assert (Hsize : ∃ m, size = rank + S m)
    by (exists (size - rank - 1); lia).
  destruct Hsize as [m ->].
  assert (HB : ∀ p, length (TTSendRecvBuff c p)
                    = TTCacheSize * (rank + S m)).
  { intros p. unfold TTSendRecvBuff. by destruct (p mod 2 =? 0)%Z. }
  unfold handle_buffer.
  rewrite (handle_ranks_own TTCacheSize rank sendRecvPosted rank 0 m c
             eq_refl Hbuf) by (rewrite HB; lia).
  cbn. rewrite decide_False by lia.
  assert (HB' : ∀ q,
    length (TTSendRecvBuff
              (set_TTCacheCounter 0
                 (set_buffer (replicate TTCacheSize sentinel)
                    (set_TTSendRecvBuff sendRecvPosted
                       (take (rank * TTCacheSize)
                          (TTSendRecvBuff c sendRecvPosted) ++
                        buffer c ++
                        drop ((rank + 1) * TTCacheSize)
                          (TTSendRecvBuff c sendRecvPosted)) c))) q)
    = TTCacheSize * (rank + S m)).
  { intros q.
    change (TTSendRecvBuff (set_TTCacheCounter 0 (set_buffer ?b ?x)) ?r)
      with (TTSendRecvBuff x r).
    apply length_TTSendRecvBuff_set; [|done].
    rewrite !length_app, length_take, length_drop, HB. lia. }
  do 2 f_equal. rewrite drop_0, <- app_assoc. do 2 f_equal.
  - f_equal. apply take_ge. rewrite length_drop, HB. lia.
  - rewrite !HB'. unfold wrap64, is_uint64 in *.
    do 2 f_equal; [f_equal; lia|]. do 2 f_equal. lia.
Qed.



(** ** [save] *)

Lemma save_received_nonblocking (l : list KeyedTTEntry) :
  Forall (λ e, blocking e = false) (flat_map save_received l).
Proof.
  induction l as [|x l IH]; cbn; [done|].
  by repeat apply Forall_cons_2.
Qed.

Lemma MPI_Testall_reqs_flag (c : ClusterCache) :
  (MPI_Testall_reqs c).1 = true ↔
  (reqsTTSendRecv c).1 ≠ Pending ∧ (reqsTTSendRecv c).2 ≠ Pending.
Proof.
  unfold MPI_Testall_reqs.
  destruct (reqsTTSendRecv c) as [[] []]; cbn; split; try done;
    intros [? ?]; done.
Qed.

Lemma MPI_Testall_reqs_cache (c : ClusterCache) :
  (MPI_Testall_reqs c).2 =
  if (MPI_Testall_reqs c).1
  then set_reqsTTSendRecv (MPI_REQUEST_NULL, MPI_REQUEST_NULL) c
  else c.
Proof.
  unfold MPI_Testall_reqs. by destruct (reqsTTSendRecv c) as [[] []].
Qed.

(** C4: a call of [save].  The plain save of the entry is always made, and
    first.  Only an entry deeper than three plies is counted in [TTsaves]
    and offered to the cache of the thread.  Only when the counter of the
    cache has then reached [TTCacheSize] are the two requests tested, without
    waiting; [handle_buffer] runs exactly when the test finds neither
    outstanding, and otherwise [save] returns at once.  No call made by
    [save] can wait for another rank. *)
Theorem save_spec
    (tte_save : TTEntry → Key → Z → bool → Z → Z → Z → Z → TTEntry)
    (TTCacheSize : nat) (s : Cluster) (thread : Thread) (tte : TTEntry)
    (k : Key) (v : Z) (PvHit : bool) (b d m ev : Z) :
  0 < TTCacheSize →
  world_rank s < world_size s →
  is_uint64 (sendRecvPosted s) →
  length (buffer (ttCache thread)) = TTCacheSize →
  is_heap compare (buffer (ttCache thread)) →
  length (TTSendRecvBuffs (ttCache thread)).1 = TTCacheSize * world_size s →
  length (TTSendRecvBuffs (ttCache thread)).2 = TTCacheSize * world_size s →
  ∃ s' thread' rest,
    save tte_save TTCacheSize s thread tte k v PvHit b d m ev
    = Some (s', thread', tte_save tte k v PvHit b d m ev,
            TTEntry_save k v PvHit b d m ev :: rest) ∧
    Forall (λ e, blocking e = false) rest ∧
    ((d ≤ 3 * ONE_PLY)%Z → rest = [] ∧ s' = s ∧ thread' = thread) ∧
    ((3 * ONE_PLY < d)%Z →
     ∃ r c1,
       replace (k, tte_save tte k v PvHit b d m ev) (ttCache thread)
       = Some (r, c1) ∧
       TTsaves thread' = wrap64 (TTsaves thread + 1) ∧
       ((TTCacheCounter c1 < Z.of_nat TTCacheSize)%Z →
        rest = [] ∧ s' = s ∧ ttCache thread' = c1) ∧
       ((Z.of_nat TTCacheSize ≤ TTCacheCounter c1)%Z →
        ((MPI_Testall_reqs c1).1 = true ↔
         (reqsTTSendRecv (ttCache thread)).1 ≠ Pending ∧
         (reqsTTSendRecv (ttCache thread)).2 ≠ Pending) ∧
        ((MPI_Testall_reqs c1).1 = false →
         rest = [MPI_Testall false] ∧ s' = s ∧ ttCache thread' = c1) ∧
        ((MPI_Testall_reqs c1).1 = true →
         ∃ c3 evs,
           handle_buffer TTCacheSize (world_size s) (world_rank s)
             (sendRecvPosted s)
             (set_reqsTTSendRecv (MPI_REQUEST_NULL, MPI_REQUEST_NULL) c1)
           = Some (wrap64 (sendRecvPosted s + 1), c3, evs) ∧
           rest = MPI_Testall true :: evs ∧
           ttCache thread' = c3 ∧
           sendRecvPosted s' = wrap64 (wrap64 (sendRecvPosted s + 1) + 1) ∧
           callsCnt thread'
           = (if is_main thread then 0%Z else callsCnt thread)))).
Proof.
  intros HC Hrank Hposted Hlen Hheap HB1 HB2. unfold save.
  destruct (Z.ltb_spec (3 * ONE_PLY) d) as [Hd|Hd]; cycle 1.
  { eexists _, _, _. split; [done|].
    split_and!; [by apply Forall_nil|done|lia]. }
  destruct (lookup_lt_is_Some_2 (buffer (ttCache thread)) 0) as [front Hf];
    [lia|].
  destruct (replace_step (ttCache thread)
              (k, tte_save tte k v PvHit b d m ev) front Hf Hheap)
    as (r & c1 & Hrun & _ & HB & Hreq & _ & _ & Htrue & Hfalse).
  assert (Hlen1 : length (buffer c1) = TTCacheSize).
  { destruct r; [by destruct (Htrue eq_refl) as (_ & -> & _)|].
    by rewrite (Hfalse eq_refl). }
  rewrite Hrun. cbn -[MPI_Testall_reqs handle_buffer].
  destruct (Z.leb_spec (Z.of_nat TTCacheSize) (TTCacheCounter c1))
    as [Hfull|Hfull]; cycle 1.
  { eexists _, _, _. split; [done|].
    split_and!; [by apply Forall_nil|lia|].
    intros _. exists r, c1. split_and!; [done|done|done|lia]. }
  pose proof (MPI_Testall_reqs_flag c1) as Hflag.
  pose proof (MPI_Testall_reqs_cache c1) as Hcache.
  rewrite Hreq in Hflag.
  destruct (MPI_Testall_reqs c1) as [flag c2] eqn:Htest.
  cbn [fst snd] in Hflag, Hcache. destruct flag; subst c2; cycle 1.
  { eexists _, _, _. split; [done|]. split_and!; [|lia|].
    { by repeat apply Forall_cons_2. }
    intros _. exists r, c1. rewrite Htest.
    split_and!; [done|done|lia|].
    intros _. split_and!; [exact Hflag|done|done]. }
  pose proof (handle_buffer_round TTCacheSize (world_size s) (world_rank s)
                (sendRecvPosted s)
                (set_reqsTTSendRecv (MPI_REQUEST_NULL, MPI_REQUEST_NULL) c1))
    as Hround.
  specialize (Hround Hrank Hposted Hlen1).
  cbn [TTSendRecvBuffs set_reqsTTSendRecv] in Hround. rewrite HB in Hround.
  specialize (Hround HB1 HB2). rewrite Hround.
  cbn -[TTSendRecvBuff set_TTSendRecvBuff].
  eexists _, _, _. split; [done|]. split_and!; [|lia|].
  { apply Forall_cons_2; [done|]. apply Forall_app. split.
    - apply save_received_nonblocking.
    - apply Forall_app. split; [apply save_received_nonblocking|].
      by repeat apply Forall_cons_2. }
  intros _. exists r, c1. rewrite Htest. split_and!; [done|done|lia|].
  intros _. split_and!; [exact Hflag|done|].
  intros _. eexists _, _. split_and!; done.
Qed.

Lemma save_spec_witness :
  let tte_save := λ (_ : TTEntry) (_ : Key) v PvHit b d m ev,
                    mkTTEntry m v ev PvHit b d in
  let s := Cluster_start 1 2 (mkThreadPool 0 0 0 false) in
  let thread :=
    mkThread 0
      (mkClusterCache
         [(5%Z, mkTTEntry 1 2 3 false 1 7); (7%Z, mkTTEntry 4 5 6 true 2 9)]
         (replicate 4 sentinel, replicate 4 sentinel)
         (MPI_REQUEST_NULL, MPI_REQUEST_NULL) 1) 0 true in
  ∃ s' thread' rest,
    save tte_save 2 s thread (mkTTEntry 0 0 0 false 0 0) 11 30 true 1 8 77 25
    = Some (s', thread', mkTTEntry 77 30 25 true 1 8,
            TTEntry_save 11 30 true 1 8 77 25 :: rest) ∧
    Forall (λ e, blocking e = false) rest.
Proof.
  intros tte_save s thread.
  destruct (save_spec tte_save 2 s thread (mkTTEntry 0 0 0 false 0 0)
              11 30 true 1 8 77 25) as (s' & thread' & rest & H & Hnb & _).
  - lia.
  - cbn. lia.
  - cbn. unfold is_uint64. lia.
  - reflexivity.
  - apply is_heapb_spec. reflexivity.
  - reflexivity.
  - reflexivity.
  - exists s', thread', rest. split; [exact H|exact Hnb].
Defined.

Example save_ex :
  save (λ (_ : TTEntry) (_ : Key) v PvHit b d m ev, mkTTEntry m v ev PvHit b d)
    2 (Cluster_start 1 2 (mkThreadPool 0 0 0 false))
    (mkThread 0
       (mkClusterCache
          [(5%Z, mkTTEntry 1 2 3 false 1 7); (7%Z, mkTTEntry 4 5 6 true 2 9)]
          (replicate 4 sentinel, replicate 4 sentinel)
          (MPI_REQUEST_NULL, MPI_REQUEST_NULL) 1) 0 true)
    (mkTTEntry 0 0 0 false 0 0) 11 30 true 1 8 77 25
  = Some (set_sendRecvPosted 2 (Cluster_start 1 2 (mkThreadPool 0 0 0 false)),
          mkThread 1
            (mkClusterCache [sentinel; sentinel]
               ([sentinel; sentinel; (11%Z, mkTTEntry 77 30 25 true 1 8);
                 (7%Z, mkTTEntry 4 5 6 true 2 9)], replicate 4 sentinel)
               (Pending, Pending) 0) 0 true,
          mkTTEntry 77 30 25 true 1 8,
          [TTEntry_save 11 30 true 1 8 77 25; MPI_Testall true;
           TT_probe 0; TTEntry_save 0 0 false 0 0 0 0;
           TT_probe 0; TTEntry_save 0 0 false 0 0 0 0;
           MPI_Irecv 1 4 0 42 TTComm; MPI_Isend 0 4 0 42 TTComm]).
Proof. vm_compute. reflexivity. Qed.

(** ** The counters of a single rank *)

Lemma wrap64_id (z : Z) : is_uint64 z → wrap64 z = z.
Proof. unfold is_uint64, wrap64. lia. Qed.

Lemma Signals_sum_single (v : Signals) :
  Signals_wf v → Signals_sum [v] = v.
Proof.
  intros (H1 & H2 & H3 & H4). destruct v as [a b c d]. cbn in *.
  unfold Signals_add. cbn. rewrite !Z.add_0_r. by rewrite !wrap64_id.
Qed.

Lemma single_rank_inv_start rank t :
  ThreadPool_wf t → single_rank_inv (Cluster_start rank 1 t).
Proof.
  intros Ht. unfold single_rank_inv, Signals_wf, is_uint64. cbn.
  split_and!; try done; lia.
Qed.

Lemma single_rank_inv_Threads s t :
  single_rank_inv s → ThreadPool_wf t → single_rank_inv (set_Threads t s).
Proof. intros (?&?&?&?&?&?&?) Ht. by split_and!. Qed.

Lemma single_rank_inv_posted s n :
  single_rank_inv s → single_rank_inv (set_sendRecvPosted n s).
Proof. intros (?&?&?&?&?&?&?). by split_and!. Qed.

Lemma single_rank_inv_complete s :
  single_rank_inv s →
  single_rank_inv (iallreduce_complete [] s) ∧
  reqSignals (iallreduce_complete [] s) ≠ Pending.
Proof.
  intros (?&?&?&?&?&?&Hr). unfold iallreduce_complete.
  destruct (reqSignals s) eqn:Hreq; cbn; rewrite ?Hreq.
  - split; [|done]. split_and!; try done. by rewrite Hreq.
  - split; [|done]. split_and!; try done. intros _.
    by apply Signals_sum_single.
  - split; [|done]. split_and!; try done. by rewrite Hreq.
Qed.

Lemma single_rank_inv_init s :
  single_rank_inv s → single_rank_inv (signals_init s).
Proof.
  intros (?&?&?&?&?&?&?). unfold single_rank_inv, Signals_wf, is_uint64.
  cbn. split_and!; try done; lia.
Qed.

Lemma single_rank_inv_process s :
  single_rank_inv s → reqSignals s ≠ Pending →
  single_rank_inv (signals_process s).
Proof.
  intros (?&?&?&?&?&Ht&Hr) Hreq. specialize (Hr Hreq).
  unfold single_rank_inv, signals_process. cbn. rewrite Hr, !Z.sub_diag.
  split_and!; try done.
  destruct (0 <? SIG_STOP (signalsSend s))%Z; [|done].
  destruct Ht as (?&?&?). by split_and!.
Qed.

Lemma single_rank_inv_send s :
  single_rank_inv s → single_rank_inv (signals_send s).1.
Proof.
  intros (?&?&?&?&?&Ht&Hr). destruct Ht as (?&?&?).
  unfold single_rank_inv, Signals_wf. cbn. split_and!; try done.
  unfold is_uint64. destruct (Threads_stop (Threads s)); lia.
Qed.

Lemma signals_poll_state s :
  (signals_poll s).1 =
  match reqSignals s with
  | Pending => s
  | _ => (signals_send (signals_process (set_reqSignals MPI_REQUEST_NULL s))).1
  end.
Proof. unfold signals_poll, MPI_Test_reqSignals. by destruct (reqSignals s). Qed.

Lemma single_rank_inv_test s :
  single_rank_inv s → reqSignals s ≠ Pending →
  single_rank_inv (set_reqSignals MPI_REQUEST_NULL s).
Proof. intros (?&?&?&?&?&?&Hr) Hreq. split_and!; try done. intros _. by apply Hr. Qed.

Lemma single_rank_inv_poll s :
  single_rank_inv s → single_rank_inv (signals_poll s).1.
Proof.
  intros Hs. rewrite signals_poll_state.
  destruct (reqSignals s) eqn:Hreq; [|done|];
    apply single_rank_inv_send, single_rank_inv_process; try done;
    apply single_rank_inv_test; try done; by rewrite Hreq.
Qed.

Lemma single_rank_inv_wait s :
  single_rank_inv s →
  single_rank_inv (MPI_Wait_reqSignals [] s) ∧
  reqSignals (MPI_Wait_reqSignals [] s) ≠ Pending.
Proof.
  intros Hs. destruct (single_rank_inv_complete s Hs) as [Hc Hreq].
  unfold MPI_Wait_reqSignals. split; [|done].
  destruct Hc as (?&?&?&?&?&?&Hr). split_and!; try done.
  intros _. by apply Hr.
Qed.

Lemma single_rank_inv_sync_loop sched :
  ∀ s s' evs,
  single_rank_inv s →
  Forall (λ env, ∀ others, env = Some others → length others = 1 - 1) sched →
  signals_sync_loop sched s = Some (s', evs) →
  single_rank_inv s'.
Proof.
  induction sched as [|env sched IH]; intros s s' evs Hs Hsched Hrun;
    cbn [signals_sync_loop] in Hrun;
    destruct (stopSignalsPosted s <? Z.of_nat (world_size s))%Z;
    simplify_eq; try done.
  apply Forall_cons in Hsched as [Henv Hsched].
  destruct (signals_poll _) as [s2 ev1] eqn:Hpoll.
  destruct (signals_sync_loop sched s2) as [[s3 ev2]|] eqn:Hloop;
    cbn in Hrun; simplify_eq.
  apply (IH s2 s' ev2); [|done|done].
  change s2 with (s2, ev1).1. rewrite <- Hpoll.
  apply single_rank_inv_poll. destruct env as [others|]; [|done].
  assert (others = []) as ->
    by (apply nil_length_inv; by rewrite (Henv others)).
  by apply single_rank_inv_complete.
Qed.

Lemma single_rank_inv_sync_finish g s s' evs :
  single_rank_inv s →
  signals_sync_finish g [] [] s = Some (s', evs) →
  single_rank_inv s'.
Proof.
  intros Hs Hrun. unfold signals_sync_finish in Hrun.
  destruct (signalsCallCounter s <? g)%Z.
  - destruct (signals_send _) as [s1 ev] eqn:Hsend.
    destruct (signalsCallCounter s1 =? g)%Z; simplify_eq.
    assert (Hs1 : single_rank_inv s1).
    { change s1 with (s1, ev).1. rewrite <- Hsend.
      apply single_rank_inv_send. by apply single_rank_inv_wait. }
    destruct (single_rank_inv_wait s1 Hs1).
    by apply single_rank_inv_process.
  - destruct (signalsCallCounter s =? g)%Z; simplify_eq.
    destruct (single_rank_inv_wait s Hs).
    by apply single_rank_inv_process.
Qed.

Lemma reachable_single_rank_inv rank s :
  reachable rank 1 s → single_rank_inv s.
Proof.
  induction 1 as [t Ht|s t _ IH Ht|s others _ IH Hlen|s n _ IH|s _ IH Hreq
                  |s _ IH|s sched g o1 o2 s' evs _ IH Hsched Ho1 Ho2 Hrun].
  - by apply single_rank_inv_start.
  - by apply single_rank_inv_Threads.
  - apply nil_length_inv in Hlen as ->. by apply single_rank_inv_complete.
  - by apply single_rank_inv_posted.
  - by apply single_rank_inv_init.
  - by apply single_rank_inv_poll.
  - apply nil_length_inv in Ho1 as ->. apply nil_length_inv in Ho2 as ->.
    unfold signals_sync in Hrun.
    destruct (signals_sync_loop sched s) as [[s1 ev1]|] eqn:Hloop;
      cbn in Hrun; [|done].
    destruct (signals_sync_finish g [] [] s1) as [[s2 ev2]|] eqn:Hfin;
      cbn in Hrun; simplify_eq.
    eapply single_rank_inv_sync_finish; [|done].
    by eapply single_rank_inv_sync_loop.
Qed.

(** C8: on a cluster of a single rank, in every state the rank goes through,
    [nodes_searched], [tb_hits] and [TT_saves] are exactly the totals of the
    local thread pool, which is what the branch without MPI returns. *)
Theorem single_rank_counters (rank : nat) (s : Cluster) :
  reachable rank 1 s →
  nodesSearchedOthers s = 0%Z ∧
  nodes_searched s = Threads_nodes_searched (Threads s) ∧
  tb_hits s = Threads_tb_hits (Threads s) ∧
  TT_saves s = Threads_TT_saves (Threads s) ∧
  nodes_searched s = NoMPI.nodes_searched (Threads s) ∧
  tb_hits s = NoMPI.tb_hits (Threads s) ∧
  TT_saves s = NoMPI.TT_saves (Threads s).
Proof.
  intros (_ & Hn & Hb & Ht & _ & (?&?&?) & _)%reachable_single_rank_inv.
  unfold nodes_searched, tb_hits, TT_saves, NoMPI.nodes_searched,
    NoMPI.tb_hits, NoMPI.TT_saves.
  rewrite Hn, Hb, Ht. cbn. by rewrite !wrap64_id.
Qed.

Lemma single_rank_counters_witness :
  let s := (signals_poll
              (iallreduce_complete []
                 (signals_poll
                    (Cluster_start 0 1 (mkThreadPool 1234 5 6 false))).1)).1 in
  nodes_searched s = 1234%Z ∧ tb_hits s = 5%Z ∧ TT_saves s = 6%Z.
Proof.
  intros s. destruct (single_rank_counters 0 s) as (_ & H1 & H2 & H3 & _).
  - apply reach_poll, reach_complete; [|reflexivity].
    apply reach_poll, reach_start.
    unfold ThreadPool_wf, is_uint64. cbn. lia.
  - split; [exact H1|]. split; [exact H2|exact H3].
Defined.

(** ** The end of a search: [signals_sync] *)

Lemma signals_poll_world_size s : world_size (signals_poll s).1 = world_size s.
Proof. rewrite signals_poll_state. by destruct (reqSignals s). Qed.

Lemma iallreduce_complete_world_size others s :
  world_size (iallreduce_complete others s) = world_size s.
Proof. unfold iallreduce_complete. by destruct (reqSignals s). Qed.

(** The loop only polls, and ends once every rank's stop has been seen. *)
Lemma signals_sync_loop_exit sched :
  ∀ s s' evs,
  signals_sync_loop sched s = Some (s', evs) →
  (Z.of_nat (world_size s') ≤ stopSignalsPosted s')%Z ∧
  world_size s' = world_size s ∧
  Forall (λ e, blocking e = false) evs.
Proof.
  induction sched as [|env sched IH]; intros s s' evs Hrun;
    cbn [signals_sync_loop] in Hrun;
    destruct (Z.ltb_spec (stopSignalsPosted s) (Z.of_nat (world_size s)));
    simplify_eq; try by split_and!.
  destruct (signals_poll _) as [s2 ev1] eqn:Hpoll.
  destruct (signals_sync_loop sched s2) as [[s3 ev2]|] eqn:Hloop;
    cbn in Hrun; simplify_eq.
  destruct (IH _ _ _ Hloop) as (Hstop & Hsize & Hev).
  split_and!; [done| |].
  - rewrite Hsize. change s2 with (s2, ev1).1. rewrite <- Hpoll.
    rewrite signals_poll_world_size. destruct env; [|done].
    apply iallreduce_complete_world_size.
  - apply Forall_app. split; [|done].
    change ev1 with (s2, ev1).2. rewrite <- Hpoll.
    unfold signals_poll, MPI_Test_reqSignals.
    destruct (reqSignals _); cbn; by repeat apply Forall_cons_2.
Qed.

Lemma signals_sync_finish_unfold g others1 others2 s :
  signals_sync_finish g others1 others2 s =
  let lag := (signalsCallCounter s <? g)%Z in
  let s1 := if lag then (signals_send (MPI_Wait_reqSignals others1 s)).1
            else s in
  if (signalsCallCounter s1 =? g)%Z then
    Some (signals_process (MPI_Wait_reqSignals others2 s1),
          MPI_Allreduce MoveComm ::
          (if lag then [MPI_Wait; MPI_Iallreduce signalsComm] else []) ++
          [MPI_Wait])
  else None.
Proof.
  unfold signals_sync_finish. by destruct (signalsCallCounter s <? g)%Z.
Qed.

Lemma MPI_Wait_reqSignals_counter others s :
  signalsCallCounter (MPI_Wait_reqSignals others s) = signalsCallCounter s.
Proof.
  unfold MPI_Wait_reqSignals, iallreduce_complete. by destruct (reqSignals s).
Qed.

(** After its loop a rank that is one call behind the maximum sends once
    more; the program goes on only with a counter equal to the maximum. *)
Lemma signals_sync_finish_spec g others1 others2 s s' evs :
  signals_sync_finish g others1 others2 s = Some (s', evs) →
  evs = MPI_Allreduce MoveComm ::
        (if (signalsCallCounter s <? g)%Z
         then [MPI_Wait; MPI_Iallreduce signalsComm] else []) ++ [MPI_Wait] ∧
  signalsCallCounter s' = g ∧
  reqSignals s' = MPI_REQUEST_NULL ∧
  ((signalsCallCounter s <? g)%Z = true →
   g = wrap64 (signalsCallCounter s + 1)).
Proof.
  rewrite signals_sync_finish_unfold. cbn zeta.
  set (s1 := if (signalsCallCounter s <? g)%Z
             then (signals_send (MPI_Wait_reqSignals others1 s)).1 else s).
  destruct (Z.eqb_spec (signalsCallCounter s1) g) as [Heq|Hne]; [|done].
  intros [= <- <-]. split_and!.
  - done.
  - change (signalsCallCounter (signals_process ?x))
      with (signalsCallCounter x).
    by rewrite MPI_Wait_reqSignals_counter.
  - done.
  - intros Hlag. subst s1. rewrite Hlag in Heq. rewrite <- Heq.
    cbn [signals_send fst signalsCallCounter].
    by rewrite MPI_Wait_reqSignals_counter.
Qed.

Lemma signals_sync_finish_returns g others1 others2 s :
  is_uint64 (signalsCallCounter s) →
  (signalsCallCounter s ≤ g ≤ signalsCallCounter s + 1)%Z → is_uint64 g →
  is_Some (signals_sync_finish g others1 others2 s).
Proof.
  intros Hc Hg Hg'. rewrite signals_sync_finish_unfold. cbn zeta.
  destruct (Z.ltb_spec (signalsCallCounter s) g) as [Hlag|Hlag].
  - cbn [signals_send fst signalsCallCounter].
    rewrite MPI_Wait_reqSignals_counter.
    rewrite (proj2 (Z.eqb_eq _ _)); [done|].
    unfold wrap64, is_uint64 in *. lia.
  - rewrite (proj2 (Z.eqb_eq _ _)); [done|lia].
Qed.

Lemma foldr_max_ge (l : list Z) (x : Z) :
  x ∈ l → (x ≤ foldr Z.max 0%Z l)%Z.
Proof.
  induction l as [|y l IH]; [by intros ?%elem_of_nil|].
  intros [->|Hx]%elem_of_cons; cbn; [lia|]. specialize (IH Hx). lia.
Qed.

(** C7: [signals_sync] on all ranks, when it returns on every rank.  Each
    rank left its loop only with [stopSignalsPosted] at least the number of
    ranks, having only polled; it then made the blocking all-reduce on
    [MoveComm], whose result [globalCounter] is the maximum of the counters;
    a rank below it is exactly one call behind and makes one more
    [signals_send], between two waits, and a rank at the maximum only waits;
    at the end every rank has [signalsCallCounter] equal to [globalCounter]
    and no outstanding signal request. *)
Theorem signals_sync_all_spec (ranks : list rank_run)
    (results : list (Cluster * list event)) :
  signals_sync_all ranks = Some results →
  length results = length ranks ∧
  ∃ loops,
    mapM (λ r, signals_sync_loop (run_sched r) (run_state r)) ranks
    = Some loops ∧
    let globalCounter :=
      foldr Z.max 0%Z ((λ l, signalsCallCounter l.1) <$> loops) in
    ∀ i r res, ranks !! i = Some r → results !! i = Some res →
      ∃ s1 ev1,
        loops !! i = Some (s1, ev1) ∧
        signals_sync_loop (run_sched r) (run_state r) = Some (s1, ev1) ∧
        (Z.of_nat (world_size s1) ≤ stopSignalsPosted s1)%Z ∧
        Forall (λ e, blocking e = false) ev1 ∧
        (signalsCallCounter s1 ≤ globalCounter)%Z ∧
        ((signalsCallCounter s1 < globalCounter)%Z →
         globalCounter = wrap64 (signalsCallCounter s1 + 1)) ∧
        res.2 = ev1 ++ MPI_Allreduce MoveComm ::
                  (if (signalsCallCounter s1 <? globalCounter)%Z
                   then [MPI_Wait; MPI_Iallreduce signalsComm] else []) ++
                  [MPI_Wait] ∧
        signalsCallCounter res.1 = globalCounter ∧
        reqSignals res.1 = MPI_REQUEST_NULL.
Proof.
  unfold signals_sync_all. intros Hrun.
  destruct (mapM _ ranks) as [loops|] eqn:Hloops; [|done]. cbn in Hrun.
  apply mapM_Some_1 in Hloops. apply mapM_Some_1 in Hrun.
  pose proof (Forall2_length _ _ _ Hloops) as Hlen1.
  pose proof (Forall2_length _ _ _ Hrun) as Hlen2.
  rewrite length_zip in Hlen2. split; [lia|].
  exists loops. split; [done|]. cbn zeta. intros i r res Hr Hres.
  set (g := foldr Z.max 0%Z ((λ l, signalsCallCounter l.1) <$> loops)) in *.
  destruct (lookup_lt_is_Some_2 loops i) as [[s1 ev1] Hl].
  { apply lookup_lt_Some in Hr. lia. }
  pose proof (Forall2_lookup_lr _ _ _ _ _ _ Hloops Hr Hl) as Hloop.
  cbn in Hloop.
  assert (Hz : zip ranks loops !! i = Some (r, (s1, ev1))).
  { apply lookup_zip_with_Some. eauto. }
  pose proof (Forall2_lookup_lr _ _ _ _ _ _ Hrun Hz Hres) as Hfin.
  cbn in Hfin.
  destruct (signals_sync_finish g _ _ s1) as [[s2 ev2]|] eqn:Hfinish;
    cbn in Hfin; [|done]. injection Hfin as <-.
  apply signals_sync_finish_spec in Hfinish as (-> & Hc & Hreq & Hlag).
  destruct (signals_sync_loop_exit _ _ _ _ Hloop) as (Hstop & _ & Hnb).
  exists s1, ev1. split_and!; try done.
  - apply foldr_max_ge, list_elem_of_fmap. exists (s1, ev1).
    split; [done|]. apply list_elem_of_lookup. eauto.
  - intros Hlt. apply Hlag. by apply Z.ltb_lt.
Qed.

Lemma foldr_max_uint64 (l : list Z) :
  Forall is_uint64 l → is_uint64 (foldr Z.max 0%Z l).
Proof.
  induction 1 as [|x l Hx _ IH]; cbn; unfold is_uint64 in *; lia.
Qed.

(** When every rank leaves its loop at most one call behind the others, no
    assertion fails and [signals_sync] returns on every rank. *)
Lemma signals_sync_all_returns (ranks : list rank_run)
    (loops : list (Cluster * list event)) :
  mapM (λ r, signals_sync_loop (run_sched r) (run_state r)) ranks = Some loops →
  Forall (λ l, is_uint64 (signalsCallCounter l.1)) loops →
  (∀ a b, a ∈ loops → b ∈ loops →
          (signalsCallCounter a.1 ≤ signalsCallCounter b.1 + 1)%Z) →
  is_Some (signals_sync_all ranks).
Proof.
  intros Hloops Hwf Hlag. unfold signals_sync_all. rewrite Hloops. cbn.
  set (g := foldr Z.max 0%Z ((λ l, signalsCallCounter l.1) <$> loops)).
  assert (Hg : is_uint64 g).
  { apply foldr_max_uint64, Forall_fmap. by apply (Forall_impl _ _ _ Hwf). }
  assert (Hmax : ∀ b, b ∈ loops → (g ≤ signalsCallCounter b.1 + 1)%Z).
  { intros b Hb. subst g. clear Hg Hloops.
    assert (Hall : ∀ a, a ∈ loops →
                        (signalsCallCounter a.1 ≤ signalsCallCounter b.1 + 1)%Z)
      by (intros a Ha; by apply Hlag).
    assert (0 ≤ signalsCallCounter b.1)%Z as Hb0.
    { rewrite Forall_forall in Hwf. by destruct (Hwf b Hb). }
    clear Hlag Hwf Hb. induction loops as [|a loops IH]; cbn; [lia|].
    apply Z.max_lub.
    - apply Hall. by left.
    - apply IH. intros a' Ha'. apply Hall. by right. }
  apply mapM_is_Some_2, Forall_forall. intros [r [s1 ev1]] Hin. cbn.
  apply elem_of_zip_r in Hin.
  destruct (signals_sync_finish_returns g (run_others1 r) (run_others2 r) s1)
    as [[s2 ev2] ->]; [| |done|done].
  - rewrite Forall_forall in Hwf. apply (Hwf _ Hin).
  - split; [|by apply (Hmax _ Hin)].
    apply foldr_max_ge, list_elem_of_fmap. by exists (s1, ev1).
Qed.

Lemma signals_sync_all_spec_witness :
  let t := mkThreadPool 100 1 2 true in
  let v := mkSignals 100 1 1 2 in
  let ranks :=
    [mkRankRun (mkCluster 0 2 Pending 3 v v 0 0 0 2 0 t) [] [] [v];
     mkRankRun (mkCluster 1 2 Pending 2 v v 0 0 0 2 0 t) [] [v] [v]] in
  ∃ results,
    signals_sync_all ranks = Some results ∧ length results = length ranks.
Proof.
  intros t v ranks.
  destruct (signals_sync_all ranks) as [results|] eqn:H.
  - exists results. split; [reflexivity|].
    exact (proj1 (signals_sync_all_spec ranks results H)).
  - vm_compute in H. discriminate H.
Defined.

Example signals_sync_all_ex :
  let t := mkThreadPool 100 1 2 true in
  let v := mkSignals 100 1 1 2 in
  option_map
    (map (λ r : Cluster * list event,
            (signalsCallCounter r.1, reqSignals r.1, r.2)))
    (signals_sync_all
       [mkRankRun (mkCluster 0 2 Pending 3 v v 0 0 0 2 0 t) [] [] [v];
        mkRankRun (mkCluster 1 2 Pending 2 v v 0 0 0 2 0 t) [] [v] [v]])
  = Some [(3%Z, MPI_REQUEST_NULL, [MPI_Allreduce MoveComm; MPI_Wait]);
          (3%Z, MPI_REQUEST_NULL,
           [MPI_Allreduce MoveComm; MPI_Wait; MPI_Iallreduce signalsComm;
            MPI_Wait])].
Proof. vm_compute. reflexivity. Qed.

(** ** [cluster_info] *)

(** C10: every rate printed by [cluster_info] is a quotient by
    [Time.elapsed() + 1]; for an elapsed time that is not negative, zero
    included, this divisor is positive, so no division is by zero and the
    line is printed. *)
Theorem cluster_info_divisor (TTCacheSize : nat) (now_elapsed depth : Z)
    (s : Cluster) :
  (0 ≤ now_elapsed < 2 ^ 63 - 1)%Z →
  (0 < now_elapsed + 1)%Z ∧
  cluster_info TTCacheSize now_elapsed depth s
  = Some [Z.quot depth ONE_PLY;
          signalsCallCounter s;
          (wrap64 (signalsCallCounter s * 1000) / (now_elapsed + 1))%Z;
          sendRecvPosted s;
          (wrap64 (wrap64 (wrap64 (Z.of_nat TTCacheSize
                                   * Z.of_nat (world_size s))
                           * sendRecvPosted s) * 1000)
           / (now_elapsed + 1))%Z;
          TT_saves s;
          (wrap64 (TT_saves s * 1000) / (now_elapsed + 1))%Z].
Proof.
  intros Ht. split; [lia|]. unfold cluster_info.
  rewrite (proj2 (Z.ltb_lt _ _)) by lia.
  assert (Hw : wrap64 (now_elapsed + 1) = (now_elapsed + 1)%Z)
    by (apply wrap64_id; unfold is_uint64; lia).
  rewrite Hw. unfold udiv64.
  rewrite (proj2 (Z.eqb_neq (now_elapsed + 1) 0)) by lia.
  reflexivity.
Qed.

Lemma cluster_info_divisor_witness :
  ∃ line,
    cluster_info 16 0 12 (Cluster_start 0 1 (mkThreadPool 1000 0 7 false))
    = Some line.
Proof.
  eexists.
  apply (proj2 (cluster_info_divisor 16 0 12
                  (Cluster_start 0 1 (mkThreadPool 1000 0 7 false))
                  ltac:(lia))).
Defined.

Example cluster_info_ex :
  cluster_info 16 0 12
    (mkCluster 0 2 Pending 5 Signals_zero Signals_zero 3 0 4 0 6
       (mkThreadPool 1000 0 7 false))
  = Some [12; 5; 5000; 6; 192000; 11; 11000]%Z.
Proof. vm_compute. reflexivity. Qed.

(** With [Time.elapsed()] equal to -1 the divisor would be zero. *)
Example cluster_info_negative :
  cluster_info 16 (-1) 12 (Cluster_start 0 1 (mkThreadPool 1000 0 7 false))
  = None.
Proof. vm_compute. reflexivity. Qed.

(** ** Who writes [sendRecvPosted] *)


Lemma iallreduce_complete_sendRecvPosted others s :
  sendRecvPosted (iallreduce_complete others s) = sendRecvPosted s.
Proof. unfold iallreduce_complete. by destruct (reqSignals s). Qed.

Lemma signals_poll_sendRecvPosted s :
  sendRecvPosted (signals_poll s).1 = sendRecvPosted s.
Proof. rewrite signals_poll_state. by destruct (reqSignals s). Qed.

Lemma signals_sync_loop_sendRecvPosted sched :
  ∀ s s' evs, signals_sync_loop sched s = Some (s', evs) →
  sendRecvPosted s' = sendRecvPosted s.
Proof.
  induction sched as [|env sched IH]; intros s s' evs Hrun;
    cbn [signals_sync_loop] in Hrun;
    destruct (stopSignalsPosted s <? Z.of_nat (world_size s))%Z;
    simplify_eq; try done.
  destruct (signals_poll _) as [s2 ev1] eqn:Hpoll.
  destruct (signals_sync_loop sched s2) as [[s3 ev2]|] eqn:Hloop;
    cbn in Hrun; simplify_eq.
  rewrite (IH _ _ _ Hloop). change s2 with (s2, ev1).1. rewrite <- Hpoll.
  rewrite signals_poll_sendRecvPosted. destruct env; [|done].
  apply iallreduce_complete_sendRecvPosted.
Qed.

Lemma signals_sync_finish_sendRecvPosted g others1 others2 s s' evs :
  signals_sync_finish g others1 others2 s = Some (s', evs) →
  sendRecvPosted s' = sendRecvPosted s.
Proof.
  rewrite signals_sync_finish_unfold. cbn zeta.
  destruct (_ =? g)%Z; [|done]. intros [= <- _].
  unfold MPI_Wait_reqSignals. cbn [signals_process sendRecvPosted set_reqSignals].
  rewrite iallreduce_complete_sendRecvPosted.
  destruct (signalsCallCounter s <? g)%Z; [|done].
  cbn [signals_send fst sendRecvPosted set_reqSignals].
  apply iallreduce_complete_sendRecvPosted.
Qed.





(** ** The move picker *)

Section MovePickerFacts.
Import MovePicker.

Lemma votes_at_insert (votes : gmap Z Z) (k k' x : Z) :
  votes_at (<[k := x]> votes) k' = if decide (k = k') then x else votes_at votes k'.
Proof.
  unfold votes_at. destruct (decide (k = k')) as [->|Hne].
  - by rewrite lookup_insert_eq.
  - by rewrite lookup_insert_ne.
Qed.

Lemma min_and_clear_spec (l : list MoveInfo) :
  ∀ (m : Z) (votes : gmap Z Z),
  ((min_and_clear l m votes).1 ≤ m)%Z ∧
  (∀ c, c ∈ l → ((min_and_clear l m votes).1 ≤ score c)%Z) ∧
  ((min_and_clear l m votes).1 = m ∨
   ∃ c, c ∈ l ∧ score c = (min_and_clear l m votes).1) ∧
  ((∀ k, votes_at votes k = 0%Z) →
   ∀ k, votes_at (min_and_clear l m votes).2 k = 0%Z).
Proof.
  unfold min_and_clear.
  induction l as [|x l IH]; intros m votes; cbn [fold_left fst snd].
  { split_and!; [lia| |by left|done]. by intros c ?%elem_of_nil. }
  destruct (IH (Z.min m (score x)) (<[move x := 0%Z]> votes))
    as (Hle & Hall & Hex & Hzero).
  split_and!.
  - lia.
  - intros c [->|Hc]%elem_of_cons; [lia|by apply Hall].
  - destruct Hex as [Heq|(c & Hc & Heq)].
    + destruct (Z.min_spec m (score x)) as [[_ Hm]|[_ Hm]].
      * left. etrans; [exact Heq|exact Hm].
      * right. exists x. split; [by left|].
        symmetry. etrans; [exact Heq|exact Hm].
    + right. exists c. split; [by right|done].
  - intros Hv. apply Hzero. intros k. rewrite votes_at_insert.
    by destruct (decide _).
Qed.

Lemma wrap_int_id (z : Z) : is_int z → wrap_int z = z.
Proof. unfold is_int, wrap_int. lia. Qed.

(** Where scores and depths are bounded by [B] and the votes before the
    loop by [x], no operation of the second loop overflows as long as
    [3 * (x + n * B)] is an [int], for [n] records; the loop then adds to
    each vote the total of the specification. *)
Lemma add_votes_spec (minScore B : Z) (l : list MoveInfo) :
  (0 ≤ B)%Z →
  (∀ c, c ∈ l →
     (0 ≤ score c - minScore ≤ 2 * B)%Z ∧ (- B ≤ depth c ≤ B)%Z) →
  ∀ (votes : gmap Z Z) (x : Z),
  (0 ≤ x)%Z → (3 * (x + Z.of_nat (length l) * B) < 2 ^ 31)%Z →
  (∀ k, (- x ≤ votes_at votes k ≤ 3 * x)%Z) →
  ∀ k, votes_at (add_votes minScore l votes) k
       = (votes_at votes k + vote_total minScore l k)%Z.
Proof.
  intros HB. unfold add_votes.
  induction l as [|c l IH]; intros Hl votes x Hx Hfit Hvotes k;
    cbn [fold_left vote_total foldr].
  { lia. }
  destruct (Hl c) as [Hs Hd]; [by left|].
  cbn [length] in Hfit. rewrite Nat2Z.inj_succ in Hfit.
  pose proof (Hvotes (move c)) as Hv.
  assert (Hlen : (0 ≤ Z.of_nat (length l) * B)%Z) by nia.
  rewrite (wrap_int_id (score c - minScore)) by (unfold is_int; lia).
  rewrite (wrap_int_id (score c - minScore + depth c))
    by (unfold is_int; lia).
  rewrite (wrap_int_id (votes_at votes (move c) + _)) by (unfold is_int; lia).
  assert (Hl' : ∀ c', c' ∈ l →
            (0 ≤ score c' - minScore ≤ 2 * B)%Z ∧ (- B ≤ depth c' ≤ B)%Z).
  { intros c' Hc'. apply Hl. by right. }
  rewrite (IH Hl' _ (x + B)%Z); [|lia|lia|].
  - rewrite votes_at_insert. fold (vote_total minScore l k).
    destruct (decide (move c = k)) as [->|Hne]; lia.
  - intros k'. rewrite votes_at_insert. specialize (Hvotes k').
    destruct (decide (move c = k')); lia.
Qed.

(** The record selected is the first whose vote is the largest. *)
Lemma select_best_spec (votes : gmap Z Z) (l : list MoveInfo) :
  ∀ (cur : MoveInfo),
  ∃ w, select_best votes l (votes_at votes (move cur)) cur
       = (votes_at votes (move w), w) ∧
  ((w = cur ∧
    ∀ c, c ∈ l → (votes_at votes (move c) ≤ votes_at votes (move cur))%Z) ∨
   (∃ i, l !! i = Some w ∧
         (votes_at votes (move cur) < votes_at votes (move w))%Z ∧
         (∀ j c, j < i → l !! j = Some c →
                 (votes_at votes (move c) < votes_at votes (move w))%Z) ∧
         ∀ c, c ∈ l → (votes_at votes (move c) ≤ votes_at votes (move w))%Z)).
Proof.
  induction l as [|x l IH]; intros cur.
  { exists cur. split; [done|]. left. split; [done|].
    by intros c ?%elem_of_nil. }
  assert (Hstep : select_best votes (x :: l) (votes_at votes (move cur)) cur
          = if (votes_at votes (move cur) <? votes_at votes (move x))%Z
            then select_best votes l (votes_at votes (move x)) x
            else select_best votes l (votes_at votes (move cur)) cur).
  { unfold select_best. cbn [fold_left fst].
    by destruct (_ <? _)%Z. }
  rewrite Hstep. clear Hstep.
  destruct (Z.ltb_spec (votes_at votes (move cur)) (votes_at votes (move x)))
    as [Hlt|Hge].
  - destruct (IH x) as (w & -> & [[-> Hall]|(i & Hi & Hlt' & Hbefore & Hall)]).
    + exists x. split; [done|]. right. exists 0.
      split_and!; [done|done| |].
      * intros j c Hj. lia.
      * intros c [->|Hc]%elem_of_cons; [done|by apply Hall].
    + exists w. split; [done|]. right. exists (S i).
      split_and!; [done|lia| |].
      * intros [|j] c Hj Hc; cbn in Hc; [by simplify_eq|].
        apply (Hbefore j); [lia|done].
      * intros c [->|Hc]%elem_of_cons; [lia|by apply Hall].
  - destruct (IH cur)
      as (w & -> & [[-> Hall]|(i & Hi & Hlt' & Hbefore & Hall)]).
    + exists cur. split; [done|]. left. split; [done|].
      intros c [->|Hc]%elem_of_cons; [done|by apply Hall].
    + exists w. split; [done|]. right. exists (S i).
      split_and!; [done|done| |].
      * intros [|j] c Hj Hc; cbn in Hc; [simplify_eq; lia|].
        apply (Hbefore j); [lia|done].
      * intros c [->|Hc]%elem_of_cons; [lia|by apply Hall].
Qed.

(** The root selects the first record whose move has the largest vote, the
    votes being the totals of the specification. *)
Lemma pick_root_spec (first : MoveInfo) (l : list MoveInfo) (B : Z) :
  l !! 0 = Some first →
  (∀ c, c ∈ l → (- B ≤ score c ≤ B)%Z ∧ (- B ≤ depth c ≤ B)%Z) →
  (3 * B * Z.of_nat (length l) < 2 ^ 31)%Z →
  ∃ minScore i w,
    pick_root first l = Some w ∧ l !! i = Some w ∧
    (∀ c, c ∈ l → (minScore ≤ score c)%Z) ∧
    (∃ c, c ∈ l ∧ score c = minScore) ∧
    (∀ c, c ∈ l →
       (vote_total minScore l (move c) ≤ vote_total minScore l (move w))%Z) ∧
    (∀ j c, j < i → l !! j = Some c →
       (vote_total minScore l (move c) < vote_total minScore l (move w))%Z).
Proof.
  intros Hfirst Hrange Hfit. unfold pick_root. rewrite Hfirst. cbn.
  destruct (min_and_clear_spec l (score first) ∅)
    as (Hle & Hmin & Hex & Hzero).
  destruct (min_and_clear l (score first) ∅) as [minScore votes0].
  cbn [fst snd] in *.
  assert (Hfin : first ∈ l) by (apply list_elem_of_lookup; eauto).
  assert (Hempty : ∀ k, votes_at (∅ : gmap Z Z) k = 0%Z).
  { intros k. unfold votes_at. by rewrite lookup_empty. }
  assert (Hminex : ∃ c, c ∈ l ∧ score c = minScore).
  { destruct Hex as [->|?]; [by exists first|done]. }
  assert (HB : (0 ≤ B)%Z) by (destruct (Hrange first Hfin); lia).
  assert (HV : ∀ k, votes_at (add_votes minScore l votes0) k
                    = vote_total minScore l k).
  { intros k. rewrite (add_votes_spec minScore B l HB) with (x := 0%Z).
    - rewrite Hzero by done. lia.
    - intros c Hc. destruct Hminex as (c' & Hc' & <-).
      pose proof (Hmin c Hc). destruct (Hrange c Hc), (Hrange c' Hc'). lia.
    - lia.
    - lia.
    - intros k'. rewrite Hzero by done. lia. }
  destruct (select_best_spec (add_votes minScore l votes0) l first)
    as (w & -> & Hsel). cbn [snd].
  setoid_rewrite HV in Hsel.
  destruct Hsel as [[-> Hall]|(i & Hi & Hlt' & Hbefore & Hall)].
  - exists minScore, 0, first. split_and!; try done.
    intros j c Hj. lia.
  - exists minScore, i, w. split_and!; done.
Qed.

End MovePickerFacts.

Section PickMoves.
Import MovePicker.

(** C5: [pick_moves] on the root and on the cluster, where the [int]
    arithmetic of the votes does not overflow: the scores and depths lie
    between [-B] and [B], and [3 * B * size()] is below 2^31.  [minScore] is
    the least of the gathered scores; the vote of a move is the sum of
    [(score - minScore) + depth] over the records that name it; the record
    selected is that of the first rank whose move has the largest vote, and
    every rank ends with it; the PV line goes from that rank to the root
    unless that rank is the root.  For the records (A,100,20), (A,100,20),
    (B,100,21), (B,95,22) the votes are 50 for A and 48 for B, every rank ends
    with the record of rank 0, and no PV line is sent. *)
Theorem pick_moves_spec :
  (∀ (ranks : list (MoveInfo * string)) (B : Z),
     ranks ≠ [] →
     (∀ i r, ranks !! i = Some r → rank r.1 = Z.of_nat i) →
     (∀ r, r ∈ ranks →
        (- B ≤ score r.1 ≤ B)%Z ∧ (- B ≤ depth r.1 ≤ B)%Z) →
     (3 * B * Z.of_nat (length ranks) < 2 ^ 31)%Z →
     ∃ minScore i w outs,
       (∀ r, r ∈ ranks → (minScore ≤ score r.1)%Z) ∧
       (∃ r, r ∈ ranks ∧ score r.1 = minScore) ∧
       ranks !! i = Some w ∧
       (∀ r, r ∈ ranks →
          (vote_total minScore (ranks.*1) (move r.1)
           ≤ vote_total minScore (ranks.*1) (move w.1))%Z) ∧
       (∀ j r, j < i → ranks !! j = Some r →
          (vote_total minScore (ranks.*1) (move r.1)
           < vote_total minScore (ranks.*1) (move w.1))%Z) ∧
       pick_moves ranks
       = Some (outs, if decide (i = 0) then None else Some i) ∧
       length outs = length ranks ∧
       (∀ o, o ∈ outs → o.1 = w.1) ∧
       outs !! 0 = Some w) ∧
  (let A := 1%Z in
   let B := 2%Z in
   let r0 := mkMoveInfo A 7 20 100 0 in
   let records := [r0; mkMoveInfo A 8 20 100 1; mkMoveInfo B 9 21 100 2;
                   mkMoveInfo B 9 22 95 3] in
   vote_total 95 records A = 50%Z ∧
   vote_total 95 records B = 48%Z ∧
   pick_root r0 records = Some r0 ∧
   pick_moves (zip records ["pv0"; "pv1"; "pv2"; "pv3"]%string)
   = Some (zip [r0; r0; r0; r0] ["pv0"; "pv1"; "pv2"; "pv3"]%string, None)).
Proof.
  split; [|by vm_compute].
  intros ranks B Hne Hrank Hrange Hfit.
  assert (Hlen : 0 < length ranks) by (destruct ranks; [done|cbn; lia]).
  destruct (lookup_lt_is_Some_2 ranks 0 Hlen) as [root Hroot].
  destruct (pick_root_spec root.1 (ranks.*1) B)
    as (minScore & i & w & Hpick & Hi & Hmin & Hminex & Hmax & Hfirst).
  { rewrite list_lookup_fmap. by rewrite Hroot. }
  { intros c (r & -> & Hr)%list_elem_of_fmap. by apply Hrange. }
  { by rewrite length_fmap. }
  apply list_lookup_fmap_Some in Hi as (wr & -> & Hwr).
  pose proof (Hrank i wr Hwr) as Hwrank.
  exists minScore, i, wr.
  exists (if decide (i = 0) then (λ r, (wr.1, r.2)) <$> ranks
          else <[0 := (wr.1, wr.2)]> ((λ r, (wr.1, r.2)) <$> ranks)).
  split_and!.
  - intros r Hr. apply Hmin, list_elem_of_fmap. by exists r.
  - destruct Hminex as (c & (r & -> & Hr)%list_elem_of_fmap & Hc).
    by exists r.
  - done.
  - intros r Hr. apply Hmax, list_elem_of_fmap. by exists r.
  - intros j r Hj Hr. apply (Hfirst j); [done|].
    rewrite list_lookup_fmap. by rewrite Hr.
  - unfold pick_moves. rewrite Hroot. cbn [mbind option_bind].
    rewrite Hpick. cbn [mbind option_bind]. rewrite Hwrank.
    destruct (decide (i = 0)) as [->|Hi0].
    + done.
    + rewrite (proj2 (Z.eqb_neq _ _)) by lia.
      rewrite (proj2 (Z.ltb_lt _ _)) by lia.
      rewrite Nat2Z.id, Hwr. done.
  - destruct (decide (i = 0)); rewrite ?length_insert; apply length_fmap.
  - intros o Ho. destruct (decide (i = 0)).
    + by apply list_elem_of_fmap in Ho as (r & -> & _).
    + apply list_elem_of_lookup in Ho as [j Hj].
      destruct (decide (j = 0)) as [->|Hj0].
      * rewrite list_lookup_insert_eq in Hj
          by (by rewrite length_fmap).
        by simplify_eq.
      * rewrite list_lookup_insert_ne in Hj by done.
        by apply list_lookup_fmap_Some in Hj as (r & -> & _).
  - destruct (decide (i = 0)) as [->|Hi0].
    + rewrite list_lookup_fmap. rewrite Hroot. cbn. rewrite Hroot in Hwr.
      simplify_eq. by destruct wr.
    + rewrite list_lookup_insert_eq by (by rewrite length_fmap).
      by destruct wr.
Qed.

End PickMoves.

Lemma pick_moves_spec_witness :
  let ranks := [(MovePicker.mkMoveInfo 1 7 18 30 0, "pv0"%string);
                (MovePicker.mkMoveInfo 2 8 20 35 1, "pv1"%string)] in
  ∃ i w outs,
    ranks !! i = Some w ∧
    MovePicker.pick_moves ranks
    = Some (outs, if decide (i = 0) then None else Some i) ∧
    outs !! 0 = Some w.
Proof.
  intros ranks.
  destruct (proj1 pick_moves_spec ranks 35%Z)
    as (minScore & i & w & outs & _ & _ & Hi & _ & _ & Hrun & _ & _ & Hroot).
  - discriminate.
  - intros [|[|j]] r Hr; cbn in Hr.
    + injection Hr as <-. reflexivity.
    + injection Hr as <-. reflexivity.
    + discriminate Hr.
  - intros r Hr. apply list_elem_of_In in Hr.
    destruct Hr as [<-|[<-|[]]]; cbn; lia.
  - cbn. lia.
  - exists i, w, outs. split; [exact Hi|]. split; [exact Hrun|exact Hroot].
Defined.

Example pick_moves_transfer :
  MovePicker.pick_moves
    [(MovePicker.mkMoveInfo 1 7 18 30 0, "pv0"%string);
     (MovePicker.mkMoveInfo 2 8 20 35 1, "pv1"%string)]
  = Some ([(MovePicker.mkMoveInfo 2 8 20 35 1, "pv1"%string);
           (MovePicker.mkMoveInfo 2 8 20 35 1, "pv1"%string)], Some 1).
Proof. vm_compute. reflexivity. Qed.

(** Outside the range of C5 the votes are not the totals.  With the scores
    2147483647 and -1 the difference [score - minScore] of the root
    overflows; its low 32 bits are -2^31, so the move of the root has the
    smaller vote and the record of rank 1 is selected. *)
Example pick_moves_overflow :
  MovePicker.vote_total (-1)
    [MovePicker.mkMoveInfo 1 7 0 2147483647 0;
     MovePicker.mkMoveInfo 2 8 0 (-1) 1] 1
  = (2 ^ 31)%Z ∧
  MovePicker.pick_moves
    [(MovePicker.mkMoveInfo 1 7 0 2147483647 0, "pv0"%string);
     (MovePicker.mkMoveInfo 2 8 0 (-1) 1, "pv1"%string)]
  = Some ([(MovePicker.mkMoveInfo 2 8 0 (-1) 1, "pv1"%string);
           (MovePicker.mkMoveInfo 2 8 0 (-1) 1, "pv1"%string)], Some 1).
Proof. vm_compute. split; reflexivity. Qed.

(** ** The input relay *)

Section GetLine.
Import InputRelay.

Lemma to_int_small (n : nat) :
  (Z.of_nat n < 2 ^ 31)%Z → to_int n = Z.of_nat n.
Proof. unfold to_int. lia. Qed.

(** C6: [getline] on the cluster.  When the line read by the root fits an
    [int], every rank returns the same value, the success of the read on
    the root, and every rank ends with the string the root ends with.  At
    the end of the input of the root every rank returns false; on an empty
    line every rank returns true with the empty string. *)
Theorem getline_spec (input : istream) (strs : list string) (str0 : string) :
  strs !! 0 = Some str0 →
  (Z.of_nat (length (list_ascii_of_string (std_getline input str0).2))
   < 2 ^ 31)%Z →
  ∃ outs,
    getline input strs = Some ((std_getline input str0).1, outs) ∧
    length outs = length strs ∧
    (∀ o, o ∈ outs →
       o = (negb (failbit (std_getline input str0).1),
            (std_getline input str0).2)) ∧
    (unread input = [] → ∀ o, o ∈ outs → o.1 = false) ∧
    (eofbit input = false → failbit input = false →
     (∃ rest, unread input = "010"%char :: rest) →
     ∀ o, o ∈ outs → o = (true, ""%string)).
Proof.
  intros Hstr Hfit. unfold getline. rewrite Hstr. cbn [mbind option_bind].
  destruct (std_getline input str0) as [input' str] eqn:Hread.
  cbn [fst snd] in *.
  rewrite to_int_small by done.
  rewrite (proj2 (Z.ltb_ge _ _)) by lia.
  rewrite Nat2Z.id, take_ge by done.
  rewrite string_of_list_ascii_of_string.
  assert (Hall : ∀ o,
    o ∈ (negb (failbit input'), str)
        :: ((λ _ : string, (negb (failbit input'), str)) <$> tail strs) →
    o = (negb (failbit input'), str)).
  { intros o [->|Ho]%elem_of_cons; [done|].
    by apply list_elem_of_fmap in Ho as (? & -> & _). }
  eexists. split; [done|]. split_and!.
  - cbn. rewrite length_fmap. destruct strs; [done|]. done.
  - done.
  - intros Hend o ->%Hall. cbn. unfold std_getline in Hread.
    rewrite Hend in Hread. cbn in Hread.
    destruct (eofbit input || failbit input); by simplify_eq.
  - intros Heof Hfail [rest Hrest] o ->%Hall. unfold std_getline in Hread.
    rewrite Heof, Hfail, Hrest in Hread. cbn in Hread. by simplify_eq.
Qed.

End GetLine.

Lemma getline_spec_witness :
  let input := InputRelay.mkIstream
                 (list_ascii_of_string "position startpos") false false in
  ∃ outs,
    InputRelay.getline input [""; "old"; ""]%string
    = Some ((InputRelay.std_getline input "").1, outs) ∧
    length outs = 3.
Proof.
  intros input.
  destruct (getline_spec input [""; "old"; ""]%string ""%string)
    as (outs & Hrun & Hlen & _).
  - reflexivity.
  - vm_compute. reflexivity.
  - exists outs. split; [exact Hrun|exact Hlen].
Defined.

Example getline_ex :
  InputRelay.getline
    (InputRelay.mkIstream
       (list_ascii_of_string "uci" ++ ["010"%char]
        ++ list_ascii_of_string "quit") false false)
    [""; "old"]%string
  = Some (InputRelay.mkIstream (list_ascii_of_string "quit") false false,
          [(true, "uci"%string); (true, "uci"%string)]).
Proof. vm_compute. reflexivity. Qed.

Example getline_eof :
  InputRelay.getline (InputRelay.mkIstream [] false false) [""; "old"]%string
  = Some (InputRelay.mkIstream [] true true,
          [(false, ""%string); (false, ""%string)]).
Proof. vm_compute. reflexivity. Qed.

(** * Further properties of the code *)

(** ** The acceptance threshold of the cache *)

Lemma replace_front_mono (c : ClusterCache) (e f : KeyedTTEntry) (r : bool)
    (c' : ClusterCache) :
  is_heap compare (buffer c) → buffer c !! 0 = Some f →
  replace e c = Some (r, c') →
  is_heap compare (buffer c') ∧ length (buffer c') = length (buffer c) ∧
  ∃ f', buffer c' !! 0 = Some f' ∧ (depth f.2 ≤ depth f'.2)%Z.
Proof.
  intros Hheap Hf Hrun.
  destruct (replace_step c e f Hf Hheap)
    as (r0 & c0 & Hrun0 & _ & _ & _ & Hr & Hmin & Htrue & Hfalse).
  rewrite Hrun in Hrun0. simplify_eq. destruct r0.
  - destruct (Htrue eq_refl) as (Hheap' & Hlen & rest & Hp & Hp').
    split_and!; [done|done|].
    destruct (lookup_lt_is_Some_2 (buffer c0) 0) as [f' Hf'].
    { rewrite Hlen. by apply lookup_lt_Some in Hf. }
    exists f'. split; [done|].
    assert (Hin : f' ∈ buffer c0) by (apply list_elem_of_lookup; eauto).
    rewrite Hp' in Hin. apply elem_of_cons in Hin as [->|Hin].
    + assert (depth f.2 < depth e.2)%Z by (by apply Hr). lia.
    + apply Hmin. rewrite Hp. by right.
  - rewrite (Hfalse eq_refl). split_and!; [done|done|]. exists f.
    split; [done|lia].
Qed.

Lemma replace_all_front_mono (es : list KeyedTTEntry) :
  ∀ (c : ClusterCache) (f : KeyedTTEntry) rs c',
  is_heap compare (buffer c) → buffer c !! 0 = Some f →
  replace_all es c = Some (rs, c') →
  is_heap compare (buffer c') ∧ length (buffer c') = length (buffer c) ∧
  ∃ f', buffer c' !! 0 = Some f' ∧ (depth f.2 ≤ depth f'.2)%Z.
Proof.
  induction es as [|e es IH]; intros c f rs c' Hheap Hf Hrun;
    cbn [replace_all] in Hrun.
  { simplify_eq. split_and!; [done|done|]. exists f. split; [done|lia]. }
  destruct (replace e c) as [[r c1]|] eqn:Hstep; cbn in Hrun; [|done].
  destruct (replace_all es c1) as [[rs1 c2]|] eqn:Hrest; cbn in Hrun; [|done].
  simplify_eq.
  destruct (replace_front_mono c e f r c1 Hheap Hf Hstep)
    as (Hheap1 & Hlen1 & f1 & Hf1 & Hle1).
  destruct (IH c1 f1 rs1 c' Hheap1 Hf1 Hrest) as (Hheap2 & Hlen2 & f2 & Hf2 & Hle2).
  split_and!; [done|lia|]. exists f2. split; [done|lia].
Qed.

(** X1: between two flushes the threshold of the cache only rises.  After
    any run of [replace] calls on a heap, the front is at least as deep as
    it was, so an entry that is not deeper than the front now is still
    refused after the run, and refusing it leaves the buffer as it is. *)
Theorem replace_threshold_rises (c c1 : ClusterCache) (f : KeyedTTEntry)
    (es : list KeyedTTEntry) (rs : list bool) :
  is_heap compare (buffer c) → buffer c !! 0 = Some f →
  replace_all es c = Some (rs, c1) →
  ∃ f1, buffer c1 !! 0 = Some f1 ∧ (depth f.2 ≤ depth f1.2)%Z ∧
    ∀ e, (depth e.2 ≤ depth f.2)%Z →
      ∃ c2, replace e c1 = Some (false, c2) ∧ buffer c2 = buffer c1 ∧
            TTCacheCounter c2 = wrap64 (TTCacheCounter c1 + 1).
Proof.
  intros Hheap Hf Hrun.
  destruct (replace_all_front_mono es c f rs c1 Hheap Hf Hrun)
    as (Hheap1 & _ & f1 & Hf1 & Hle).
  exists f1. split_and!; [done|done|]. intros e He.
  rewrite (replace_unfold c1 e f1 Hf1).
  assert (compare e f1 = false) as -> by (unfold compare; lia).
  eexists. split; [done|]. by split.
Qed.

Lemma replace_threshold_rises_witness :
  let c := mkClusterCache
             [(1%Z, mkTTEntry 0 0 0 false 0 4); (2%Z, mkTTEntry 0 0 0 false 0 8);
              (3%Z, mkTTEntry 0 0 0 false 0 5)] ([], [])
             (MPI_REQUEST_NULL, MPI_REQUEST_NULL) 0 in
  ∃ c1 f1, buffer c1 !! 0 = Some f1 ∧ (4 ≤ depth f1.2)%Z ∧
    ∃ c2, replace (9%Z, mkTTEntry 0 0 0 false 0 4) c1 = Some (false, c2) ∧
          buffer c2 = buffer c1.
Proof.
  intros c.
  destruct (replace_all [(7%Z, mkTTEntry 0 0 0 false 0 9);
                         (8%Z, mkTTEntry 0 0 0 false 0 6)] c)
    as [[rs c1]|] eqn:Hrun; [|vm_compute in Hrun; discriminate Hrun].
  destruct (replace_threshold_rises c c1 (1%Z, mkTTEntry 0 0 0 false 0 4)
              [(7%Z, mkTTEntry 0 0 0 false 0 9);
               (8%Z, mkTTEntry 0 0 0 false 0 6)] rs)
    as (f1 & Hf1 & Hle & Hrej).
  - apply is_heapb_spec. reflexivity.
  - reflexivity.
  - exact Hrun.
  - destruct (Hrej (9%Z, mkTTEntry 0 0 0 false 0 4)) as (c2 & H2 & Hb & _).
    + cbn. lia.
    + exists c1, f1. split; [exact Hf1|]. split; [exact Hle|].
      exists c2. split; [exact H2|exact Hb].
Defined.

(** ** The shape of the cache is kept by every operation *)

Lemma ClusterCache_new_wf (C size : nat) :
  ClusterCache_wf C size (ClusterCache_new C size).
Proof.
  unfold ClusterCache_wf, ClusterCache_new. cbn.
  rewrite !length_replicate. split_and!; try done. apply is_heap_replicate.
Qed.

Lemma replace_wf (C size : nat) (e : KeyedTTEntry) (c : ClusterCache) :
  0 < C → ClusterCache_wf C size c →
  ∃ r c', replace e c = Some (r, c') ∧ ClusterCache_wf C size c' ∧
          reqsTTSendRecv c' = reqsTTSendRecv c ∧
          TTCacheCounter c' = wrap64 (TTCacheCounter c + 1).
Proof.
  intros HC (Hlen & Hheap & H1 & H2).
  destruct (lookup_lt_is_Some_2 (buffer c) 0) as [f Hf]; [lia|].
  destruct (replace_step c e f Hf Hheap)
    as (r & c' & Hrun & Hcnt & HB & Hreq & _ & _ & Htrue & Hfalse).
  exists r, c'. split_and!; try done. unfold ClusterCache_wf. rewrite HB.
  destruct r.
  - destruct (Htrue eq_refl) as (? & ? & _). split_and!; [lia|done..].
  - by rewrite (Hfalse eq_refl).
Qed.

Lemma set_TTSendRecvBuff_lengths (p : Z) (B : list KeyedTTEntry)
    (c : ClusterCache) (n : nat) :
  length B = n →
  length (TTSendRecvBuffs c).1 = n → length (TTSendRecvBuffs c).2 = n →
  length (TTSendRecvBuffs (set_TTSendRecvBuff p B c)).1 = n ∧
  length (TTSendRecvBuffs (set_TTSendRecvBuff p B c)).2 = n.
Proof. intros. unfold set_TTSendRecvBuff. by destruct (p mod 2 =? 0)%Z. Qed.

Lemma length_TTSendRecvBuff (c : ClusterCache) (p : Z) (n : nat) :
  length (TTSendRecvBuffs c).1 = n → length (TTSendRecvBuffs c).2 = n →
  length (TTSendRecvBuff c p) = n.
Proof. intros. unfold TTSendRecvBuff. by destruct (p mod 2 =? 0)%Z. Qed.

Lemma own_slot_length (C size rank : nat) (B b : list KeyedTTEntry) :
  rank < size → length B = C * size → length b = C →
  length (take (rank * C) B ++ b ++ drop ((rank + 1) * C) B) = C * size.
Proof.
  intros Hr HB Hb. rewrite !length_app, length_take, length_drop, HB, Hb.
  assert (size = rank + S (size - rank - 1)) as -> by lia.
  generalize (size - rank - 1). intros k. nia.
Qed.

Lemma handle_buffer_wf (C size rank : nat) (p : Z) (c : ClusterCache) :
  rank < size → is_uint64 p → ClusterCache_wf C size c →
  ∃ c' evs, handle_buffer C size rank p c = Some (wrap64 (p + 1), c', evs) ∧
            ClusterCache_wf C size c'.
Proof.
  intros Hr Hp (Hlen & Hheap & H1 & H2).
  rewrite (handle_buffer_round C size rank p c Hr Hp Hlen H1 H2).
  eexists _, _. split; [done|]. unfold ClusterCache_wf.
  cbn [buffer TTSendRecvBuffs set_reqsTTSendRecv set_TTCacheCounter set_buffer].
  rewrite length_replicate. split_and!; [done|apply is_heap_replicate|..];
    apply set_TTSendRecvBuff_lengths; try done;
    apply own_slot_length; try done; by apply length_TTSendRecvBuff.
Qed.

Lemma save_wf
    (tte_save : TTEntry → Key → Z → bool → Z → Z → Z → Z → TTEntry)
    (C : nat) (s : Cluster) (thread : Thread) (tte : TTEntry)
    (k : Key) (v : Z) (PvHit : bool) (b d m ev : Z) :
  0 < C → rank_wf C (s, thread) →
  ∃ s' thread' evs,
    save tte_save C s thread tte k v PvHit b d m ev
    = Some (s', thread', tte_save tte k v PvHit b d m ev, evs) ∧
    rank_wf C (s', thread') ∧
    world_rank s' = world_rank s ∧ world_size s' = world_size s ∧
    Threads s' = Threads s.
Proof.
  intros HC (Hr & Hp & Hwf). cbn [fst snd] in *. unfold save.
  destruct (3 * ONE_PLY <? d)%Z; [|by eexists _, _, _].
  destruct (replace_wf C (world_size s) (k, tte_save tte k v PvHit b d m ev)
              (ttCache thread) HC Hwf) as (r & c1 & -> & Hwf1 & Hreq & _).
  cbn -[MPI_Testall_reqs handle_buffer].
  destruct (_ <=? _)%Z; [|by eexists _, _, _].
  rewrite (surjective_pairing (MPI_Testall_reqs c1)), MPI_Testall_reqs_cache.
  destruct (MPI_Testall_reqs c1).1; [|by eexists _, _, _].
  destruct (handle_buffer_wf C (world_size s) (world_rank s) (sendRecvPosted s)
              (set_reqsTTSendRecv (MPI_REQUEST_NULL, MPI_REQUEST_NULL) c1))
    as (c3 & evs & -> & Hwf3); [done|done|done|].
  cbn. eexists _, _, _. split; [done|]. split_and!; try done.
  unfold rank_wf. cbn. split_and!; try done.
  unfold is_uint64, wrap64. lia.
Qed.

Lemma signals_poll_world_rank s : world_rank (signals_poll s).1 = world_rank s.
Proof. rewrite signals_poll_state. by destruct (reqSignals s). Qed.

Lemma iallreduce_complete_world_rank others s :
  world_rank (iallreduce_complete others s) = world_rank s.
Proof. unfold iallreduce_complete. by destruct (reqSignals s). Qed.

Lemma signals_sync_loop_world_rank sched :
  ∀ s s' evs, signals_sync_loop sched s = Some (s', evs) →
  world_rank s' = world_rank s.
Proof.
  induction sched as [|env sched IH]; intros s s' evs Hrun;
    cbn [signals_sync_loop] in Hrun;
    destruct (stopSignalsPosted s <? Z.of_nat (world_size s))%Z;
    simplify_eq; try done.
  destruct (signals_poll _) as [s2 ev1] eqn:Hpoll.
  destruct (signals_sync_loop sched s2) as [[s3 ev2]|] eqn:Hloop;
    cbn in Hrun; simplify_eq.
  rewrite (IH _ _ _ Hloop). change s2 with (s2, ev1).1. rewrite <- Hpoll.
  rewrite signals_poll_world_rank. destruct env; [|done].
  apply iallreduce_complete_world_rank.
Qed.

Lemma signals_sync_finish_world g others1 others2 s s' evs :
  signals_sync_finish g others1 others2 s = Some (s', evs) →
  world_rank s' = world_rank s ∧ world_size s' = world_size s.
Proof.
  rewrite signals_sync_finish_unfold. cbn zeta.
  destruct (_ =? g)%Z; [|done]. intros [= <- _].
  unfold MPI_Wait_reqSignals.
  cbn [signals_process world_rank world_size set_reqSignals].
  destruct (signalsCallCounter s <? g)%Z;
    cbn [signals_send fst world_rank world_size set_reqSignals];
    by rewrite !iallreduce_complete_world_rank,
         !iallreduce_complete_world_size.
Qed.

Lemma signals_sync_world sched g others1 others2 s s' evs :
  signals_sync sched g others1 others2 s = Some (s', evs) →
  world_rank s' = world_rank s ∧ world_size s' = world_size s ∧
  sendRecvPosted s' = sendRecvPosted s.
Proof.
  unfold signals_sync. intros Hsync.
  destruct (signals_sync_loop sched s) as [[s1 ev1]|] eqn:Hloop;
    cbn in Hsync; [|done].
  destruct (signals_sync_finish _ _ _ s1) as [[s3 ev3]|] eqn:Hfin;
    cbn in Hsync; simplify_eq.
  destruct (signals_sync_finish_world _ _ _ _ _ _ Hfin) as [-> ->].
  rewrite (signals_sync_finish_sendRecvPosted _ _ _ _ _ _ Hfin).
  rewrite (signals_sync_loop_world_rank _ _ _ _ Hloop).
  rewrite (signals_sync_loop_sendRecvPosted _ _ _ _ Hloop).
  by destruct (signals_sync_loop_exit _ _ _ _ Hloop) as (_ & -> & _).
Qed.

(** One operation: it is defined unless it is one that may end the program,
    and it keeps the rank and its thread in shape. *)
Lemma exec_wf
    (tte_save : TTEntry → Key → Z → bool → Z → Z → Z → Z → TTEntry)
    (C : nat) (op : operation) (st : Cluster * Thread) :
  0 < C → rank_wf C st →
  (may_abort op = false → is_Some (exec tte_save C op st)) ∧
  (∀ st', exec tte_save C op st = Some st' →
          rank_wf C st' ∧ world_rank st'.1 = world_rank st.1 ∧
          world_size st'.1 = world_size st.1).
Proof.
  intros HC Hwf. destruct st as [s t].
  pose proof Hwf as (Hr & Hp & Hc). cbn [fst snd] in *.
  destruct op as [|e| | | | |sched g others1 others2| | |now_elapsed dp
                 |tte k v PvHit b d m ev| | |];
    cbn -[handle_buffer save signals_sync cluster_info signals_poll
          ClusterCache_new];
    try (split; [done|by intros st' [= <-]]).
  - split; [done|]. intros st' [= <-]. cbn. split; [|done].
    unfold rank_wf. cbn. split_and!; [done|done|apply ClusterCache_new_wf].
  - destruct (replace_wf C (world_size s) e (ttCache t) HC Hc)
      as (r & c' & -> & Hwf' & _). cbn. split; [done|].
    intros st' [= <-]. by split.
  - destruct (handle_buffer_wf C (world_size s) (world_rank s)
                (sendRecvPosted s) (ttCache t) Hr Hp Hc)
      as (c' & evs & -> & Hwf'). cbn. split; [done|].
    intros st' [= <-]. split; [|done]. unfold rank_wf. cbn.
    split_and!; try done. unfold is_uint64, wrap64. lia.
  - split; [done|].
    destruct (signals_sync _ _ _ _ _) as [[s2 evs]|] eqn:Hsync; cbn; [|done].
    intros st' [= <-]. cbn.
    destruct (signals_sync_world _ _ _ _ _ _ _ Hsync) as (Hr2 & Hs2 & Hp2).
    unfold rank_wf. cbn. by rewrite Hr2, Hs2, Hp2.
  - split; [done|]. intros st' [= <-]. cbn -[signals_poll].
    unfold rank_wf. cbn -[signals_poll].
    rewrite signals_poll_world_rank, signals_poll_world_size,
      signals_poll_sendRecvPosted. done.
  - split; [done|]. destruct (cluster_info _ _ _ _); cbn; [|done].
    by intros st' [= <-].
  - destruct (save_wf tte_save C s t tte k v PvHit b d m ev HC Hwf)
      as (s' & t' & evs & -> & Hwf' & Hr' & Hs' & _). cbn. split; [done|].
    by intros st' [= <-].
Qed.

Lemma exec_all_wf
    (tte_save : TTEntry → Key → Z → bool → Z → Z → Z → Z → TTEntry)
    (C : nat) (ops : list operation) :
  ∀ st, 0 < C → rank_wf C st →
  (Forall (λ op, may_abort op = false) ops →
   is_Some (exec_all tte_save C ops st)) ∧
  (∀ st', exec_all tte_save C ops st = Some st' →
     rank_wf C st' ∧ world_rank st'.1 = world_rank st.1 ∧
     world_size st'.1 = world_size st.1).
Proof.
  induction ops as [|op ops IH]; intros st HC Hwf; cbn [exec_all].
  { split; [done|]. by intros st' [= <-]. }
  destruct (exec_wf tte_save C op st HC Hwf) as [Hdef Hkeep].
  destruct (exec tte_save C op st) as [st1|]; cbn.
  - destruct (Hkeep st1 eq_refl) as (Hwf1 & Hr1 & Hs1).
    destruct (IH st1 HC Hwf1) as [IHdef IHkeep]. split.
    + intros Hall. apply IHdef. by inversion Hall.
    + intros st' Hrun. destruct (IHkeep st' Hrun) as (? & -> & ->). done.
  - split; [|done]. intros Hall. inversion Hall; subst.
    by destruct Hdef.
Qed.

(** X2: from the constructor of the cache on, every operation finds the
    cache in shape.  On a rank of the cluster ([rank() < size()]) and with
    [TTCacheSize > 0], a run that starts with the constructor and goes on
    with any operations other than [cluster_info] and [signals_sync] is
    defined: [replace] never reads the front of an empty array,
    [handle_buffer] never writes outside the two vectors.  Whatever the
    operations, the state after a run has a heap of [TTCacheSize] cells, two
    vectors of [TTCacheSize * size()] cells, and the rank and size it had. *)
Theorem exec_all_defined
    (tte_save : TTEntry → Key → Z → bool → Z → Z → Z → Z → TTEntry)
    (TTCacheSize : nat) (ops : list operation) (st : Cluster * Thread) :
  0 < TTCacheSize → world_rank st.1 < world_size st.1 →
  (Forall (λ op, may_abort op = false) ops →
   is_Some (exec_all tte_save TTCacheSize (Op_ClusterCache :: ops) st)) ∧
  (∀ st', exec_all tte_save TTCacheSize (Op_ClusterCache :: ops) st = Some st' →
     ClusterCache_wf TTCacheSize (world_size st.1) (ttCache st'.2) ∧
     world_rank st'.1 = world_rank st.1 ∧ world_size st'.1 = world_size st.1).
Proof.
  intros HC Hr. cbn [exec_all exec mbind option_bind].
  assert (Hwf : rank_wf TTCacheSize (ClusterCache_ctor TTCacheSize st)).
  { unfold rank_wf, is_uint64. cbn. split_and!; [done|lia|lia|].
    apply ClusterCache_new_wf. }
  destruct (exec_all_wf tte_save TTCacheSize ops _ HC Hwf) as [Hdef Hkeep].
  split; [done|]. intros st' Hrun.
  destruct (Hkeep st' Hrun) as ((_ & _ & Hshape) & Hr' & Hs').
  rewrite Hs' in Hshape. done.
Qed.

Lemma exec_all_defined_witness :
  let tte_save := λ (_ : TTEntry) (_ : Key) v PvHit b d m ev,
                    mkTTEntry m v ev PvHit b d in
  let st := (Cluster_start 1 3 (mkThreadPool 0 0 0 false),
             mkThread 0 (mkClusterCache [] ([], []) (Pending, Pending) 9) 0
               true) in
  is_Some (exec_all tte_save 2
             [Op_ClusterCache;
              Op_save (mkTTEntry 0 0 0 false 0 0) 11 30 true 1 8 77 25;
              Op_save (mkTTEntry 0 0 0 false 0 0) 12 31 true 1 9 78 26;
              Op_signals_poll; Op_handle_buffer] st).
Proof.
  intros tte_save st.
  apply (exec_all_defined tte_save 2
           [Op_save (mkTTEntry 0 0 0 false 0 0) 11 30 true 1 8 77 25;
            Op_save (mkTTEntry 0 0 0 false 0 0) 12 31 true 1 9 78 26;
            Op_signals_poll; Op_handle_buffer] st).
  - lia.
  - cbn. lia.
  - repeat constructor.
Defined.

(** ** The first exchange of a thread *)




Section FirstExchange.
Context (tte_save : TTEntry → Key → Z → bool → Z → Z → Z → Z → TTEntry).
Context (C : nat).



End FirstExchange.




(** ** The ring of the exchange *)

Lemma ring_arith (size rank : nat) :
  rank < size →
  (rank + 1) mod size < size ∧ (rank + size - 1) mod size < size ∧
  ((rank + 1) mod size + size - 1) mod size = rank ∧
  ((rank + size - 1) mod size + 1) mod size = rank.
Proof.
  intros Hr.
  assert (Hwrap : ∀ x, x < size → (x + size) mod size = x).
  { intros x Hx. replace (x + size) with (x + 1 * size) by lia.
    rewrite Nat.Div0.mod_add. by apply Nat.mod_small. }
  split_and!; try (apply Nat.mod_upper_bound; lia).
  - destruct (decide (rank + 1 = size)) as [Heq|Hne].
    + rewrite Heq, Nat.Div0.mod_same.
      replace (0 + size - 1) with rank by lia. by apply Nat.mod_small.
    + rewrite (Nat.mod_small (rank + 1)) by lia.
      replace (rank + 1 + size - 1) with (rank + size) by lia. by apply Hwrap.
  - destruct rank as [|r].
    + cbn [Nat.add]. rewrite (Nat.mod_small (size - 1)) by lia.
      replace (size - 1 + 1) with size by lia. apply Nat.Div0.mod_same.
    + replace (S r + size - 1) with (r + size) by lia.
      rewrite Hwrap by lia. replace (r + 1) with (S r) by lia.
      by apply Nat.mod_small.
Qed.

(** The calls of a round end with the receive and the send, and there is
    no other transfer among them. *)
Lemma handle_buffer_posts (C size rank : nat) (p : Z) (c : ClusterCache) :
  rank < size → is_uint64 p → ClusterCache_wf C size c →
  ∃ c' evs,
    handle_buffer C size rank p c
    = Some (wrap64 (p + 1), c',
            evs ++
            [MPI_Irecv (Z.to_nat ((p + 1) mod 2)) (C * size)
               ((rank + size - 1) mod size) 42 TTComm;
             MPI_Isend (Z.to_nat (p mod 2)) (C * size)
               ((rank + 1) mod size) 42 TTComm]) ∧
    Forall (λ e, match e with
                 | TT_probe _ | TTEntry_save _ _ _ _ _ _ _ => True
                 | _ => False
                 end) evs ∧
    length evs = 2 * ((size - 1) * C).
Proof.
  intros Hr Hp (Hlen & _ & H1 & H2).
  rewrite (handle_buffer_round C size rank p c Hr Hp Hlen H1 H2).
  eexists _, _. rewrite (app_assoc (flat_map _ _)). split; [done|].
  assert (Hsaved : ∀ l : list KeyedTTEntry,
            Forall (λ e, match e with
                         | TT_probe _ | TTEntry_save _ _ _ _ _ _ _ => True
                         | _ => False
                         end) (flat_map save_received l) ∧
            length (flat_map save_received l) = 2 * length l).
  { induction l as [|x l [IH1 IH2]]; cbn; [by split|]. split.
    - by repeat apply Forall_cons_2.
    - cbn in IH2. lia. }
  split.
  - apply Forall_app. split; apply Hsaved.
  - rewrite length_app, !(proj2 (Hsaved _)), length_take, length_drop.
    rewrite (length_TTSendRecvBuff c p (C * size) H1 H2).
    assert (size = rank + S (size - rank - 1)) as -> by lia.
    generalize (size - rank - 1). intros k.
    replace (rank + S k - 1) with (rank + k) by lia. nia.
Qed.

(** X4: the ring closes.  In a round, a rank of the cluster posts exactly
    one receive and one send, as its last two calls, both of
    [TTCacheSize * size()] entries with tag 42 on [TTComm] and on different
    vectors; before them it probes and saves [(size() - 1) * TTCacheSize]
    entries.  The rank it sends to is a rank of the cluster whose own
    receive names it as the source, and the rank it receives from is one
    whose own send names it as the destination. *)
Theorem handle_buffer_ring (TTCacheSize size rank : nat) (p : Z)
    (c : ClusterCache) :
  rank < size → is_uint64 p → ClusterCache_wf TTCacheSize size c →
  ∃ p' c' evs bufr bufs source dest,
    handle_buffer TTCacheSize size rank p c
    = Some (p', c',
            evs ++ [MPI_Irecv bufr (TTCacheSize * size) source 42 TTComm;
                    MPI_Isend bufs (TTCacheSize * size) dest 42 TTComm]) ∧
    Forall (λ e, match e with
                 | TT_probe _ | TTEntry_save _ _ _ _ _ _ _ => True
                 | _ => False
                 end) evs ∧
    length evs = 2 * ((size - 1) * TTCacheSize) ∧
    bufr ≠ bufs ∧ source < size ∧ dest < size ∧
    (∀ q d, is_uint64 q → ClusterCache_wf TTCacheSize size d →
       ∃ q' d' evs' bufr' bufs' dest',
         handle_buffer TTCacheSize size dest q d
         = Some (q', d',
                 evs' ++
                 [MPI_Irecv bufr' (TTCacheSize * size) rank 42 TTComm;
                  MPI_Isend bufs' (TTCacheSize * size) dest' 42 TTComm])) ∧
    (∀ q d, is_uint64 q → ClusterCache_wf TTCacheSize size d →
       ∃ q' d' evs' bufr' bufs' source',
         handle_buffer TTCacheSize size source q d
         = Some (q', d',
                 evs' ++
                 [MPI_Irecv bufr' (TTCacheSize * size) source' 42 TTComm;
                  MPI_Isend bufs' (TTCacheSize * size) rank 42 TTComm])).
Proof.
  intros Hr Hp Hwf.
  destruct (ring_arith size rank Hr) as (Hnext & Hprev & Hback & Hforth).
  destruct (handle_buffer_posts TTCacheSize size rank p c Hr Hp Hwf)
    as (c' & evs & Hrun & Honly & Hcount).
  eexists _, c', evs, _, _, _, _. split; [exact Hrun|].
  split_and!; try done.
  - assert (p mod 2 = 0 ∨ p mod 2 = 1)%Z as [H0|H1] by lia.
    + replace ((p + 1) mod 2)%Z with 1%Z by lia. rewrite H0. done.
    + replace ((p + 1) mod 2)%Z with 0%Z by lia. rewrite H1. done.
  - intros q d Hq Hd.
    destruct (handle_buffer_posts TTCacheSize size _ q d Hnext Hq Hd)
      as (d' & evs' & Hrun' & _). rewrite Hback in Hrun'.
    by eexists _, d', evs', _, _, _.
  - intros q d Hq Hd.
    destruct (handle_buffer_posts TTCacheSize size _ q d Hprev Hq Hd)
      as (d' & evs' & Hrun' & _). rewrite Hforth in Hrun'.
    by eexists _, d', evs', _, _, _.
Qed.

Lemma handle_buffer_ring_witness :
  ∃ p' c' evs bufr bufs source dest,
    handle_buffer 2 3 2 0 (ClusterCache_new 2 3)
    = Some (p', c',
            evs ++ [MPI_Irecv bufr 6 source 42 TTComm;
                    MPI_Isend bufs 6 dest 42 TTComm]) ∧
    length evs = 8 ∧ source < 3 ∧ dest < 3.
Proof.
  destruct (handle_buffer_ring 2 3 2 0 (ClusterCache_new 2 3))
    as (p' & c' & evs & bufr & bufs & source & dest & Hrun & _ & Hn & _
        & Hsource & Hdest & _).
  - lia.
  - unfold is_uint64. lia.
  - apply ClusterCache_new_wf.
  - exists p', c', evs, bufr, bufs, source, dest.
    split; [exact Hrun|]. split; [exact Hn|]. split; [exact Hsource|exact Hdest].
Defined.

(** ** The signal loop across ranks *)

Lemma Signals_sum_fields (l : list Signals) :
  SIG_NODES (Signals_sum l) = wrap64 (foldr Z.add 0%Z (SIG_NODES <$> l)) ∧
  SIG_STOP (Signals_sum l) = wrap64 (foldr Z.add 0%Z (SIG_STOP <$> l)) ∧
  SIG_TB (Signals_sum l) = wrap64 (foldr Z.add 0%Z (SIG_TB <$> l)) ∧
  SIG_TTS (Signals_sum l) = wrap64 (foldr Z.add 0%Z (SIG_TTS <$> l)).
Proof.
  induction l as [|v l (IH1 & IH2 & IH3 & IH4)]; [done|].
  change (Signals_sum (v :: l)) with (Signals_add v (Signals_sum l)).
  cbn [foldr fmap list_fmap Signals_add SIG_NODES SIG_STOP SIG_TB SIG_TTS].
  rewrite IH1, IH2, IH3, IH4. unfold wrap64.
  by rewrite !Z.add_mod_idemp_r by lia.
Qed.

Lemma wrap64_others (a x : Z) : wrap64 (wrap64 (a + x) - a) = wrap64 x.
Proof.
  unfold wrap64. rewrite Zminus_mod_idemp_l. f_equal. lia.
Qed.

(** X5: what a poll learns from a completed all-reduce.  When the
    all-reduce that was outstanding has completed with the vectors
    [others] of the other ranks, [signals_poll] makes no blocking call;
    it leaves in [nodesSearchedOthers], [tbHitsOthers] and [TTsavesOthers]
    the totals of the other ranks alone, in 64-bit arithmetic and whatever
    this rank itself had sent, so that [nodes_searched], [tb_hits] and
    [TT_saves] return these totals plus the current local ones; and it
    posts the next all-reduce, with the current local totals. *)
Theorem signals_poll_others (others : list Signals) (s : Cluster) :
  reqSignals s = Pending →
  let s' := (signals_poll (iallreduce_complete others s)).1 in
  (signals_poll (iallreduce_complete others s)).2
  = [MPI_Test true; MPI_Iallreduce signalsComm] ∧
  nodesSearchedOthers s' = wrap64 (foldr Z.add 0%Z (SIG_NODES <$> others)) ∧
  tbHitsOthers s' = wrap64 (foldr Z.add 0%Z (SIG_TB <$> others)) ∧
  TTsavesOthers s' = wrap64 (foldr Z.add 0%Z (SIG_TTS <$> others)) ∧
  nodes_searched s'
  = wrap64 (foldr Z.add 0%Z (SIG_NODES <$> others)
            + Threads_nodes_searched (Threads s)) ∧
  tb_hits s'
  = wrap64 (foldr Z.add 0%Z (SIG_TB <$> others)
            + Threads_tb_hits (Threads s)) ∧
  TT_saves s'
  = wrap64 (foldr Z.add 0%Z (SIG_TTS <$> others)
            + Threads_TT_saves (Threads s)) ∧
  reqSignals s' = Pending ∧
  signalsCallCounter s' = wrap64 (signalsCallCounter s + 1) ∧
  SIG_NODES (signalsSend s') = Threads_nodes_searched (Threads s) ∧
  SIG_TB (signalsSend s') = Threads_tb_hits (Threads s) ∧
  SIG_TTS (signalsSend s') = Threads_TT_saves (Threads s).
Proof.
  intros Hreq s'.
  assert (Hs' : s' = (signals_send
                        (signals_process
                           (set_reqSignals MPI_REQUEST_NULL
                              (iallreduce_complete others s)))).1).
  { unfold s'. rewrite signals_poll_state. unfold iallreduce_complete.
    by rewrite Hreq. }
  assert (Hev : (signals_poll (iallreduce_complete others s)).2
                = [MPI_Test true; MPI_Iallreduce signalsComm]).
  { unfold signals_poll, MPI_Test_reqSignals, iallreduce_complete.
    by rewrite Hreq. }
  clearbody s'. subst s'. unfold iallreduce_complete. rewrite Hreq.
  destruct (Signals_sum_fields others) as (Hn & _ & Ht & Hs).
  unfold nodes_searched, tb_hits, TT_saves.
  cbn [signals_send signals_process set_reqSignals set_signalsRecv fst
       nodesSearchedOthers tbHitsOthers TTsavesOthers reqSignals
       signalsCallCounter signalsSend signalsRecv Threads Signals_sum foldr
       Signals_add SIG_NODES SIG_TB SIG_TTS SIG_STOP].
  change (foldr Signals_add Signals_zero others) with (Signals_sum others).
  rewrite Hn, Ht, Hs, !wrap64_others.
  assert (Hidem : ∀ x, wrap64 (wrap64 x) = wrap64 x).
  { intros x. unfold wrap64. apply Z.mod_mod. lia. }
  rewrite !Hidem.
  assert (Hpool : ∀ t b,
    (Threads_nodes_searched (if b : bool then
        mkThreadPool (Threads_nodes_searched t) (Threads_tb_hits t)
          (Threads_TT_saves t) true else t) = Threads_nodes_searched t) ∧
    (Threads_tb_hits (if b then
        mkThreadPool (Threads_nodes_searched t) (Threads_tb_hits t)
          (Threads_TT_saves t) true else t) = Threads_tb_hits t) ∧
    (Threads_TT_saves (if b then
        mkThreadPool (Threads_nodes_searched t) (Threads_tb_hits t)
          (Threads_TT_saves t) true else t) = Threads_TT_saves t)).
  { intros t []; done. }
  destruct (Hpool (Threads s)
              (0 <? wrap64 (SIG_STOP (signalsSend s)
                            + SIG_STOP (Signals_sum others)))%Z)
    as (Hp1 & Hp2 & Hp3).
  rewrite Hp1, Hp2, Hp3, !wrap64_add_l. by split_and!.
Qed.

Lemma signals_poll_others_witness :
  let s := (signals_send (Cluster_start 0 3 (mkThreadPool 100 5 7 false))).1 in
  let others := [mkSignals 30 0 1 2; mkSignals 12 0 0 4] in
  nodesSearchedOthers (signals_poll (iallreduce_complete others s)).1 = 42%Z ∧
  nodes_searched (signals_poll (iallreduce_complete others s)).1 = 142%Z.
Proof.
  intros s others.
  destruct (signals_poll_others others s) as (_ & Hn & _ & _ & Hs & _).
  - reflexivity.
  - split; [exact Hn|exact Hs].
Defined.

Lemma stop_sum_count (l : list Cluster) :
  foldr Z.add 0%Z
    (SIG_STOP <$> ((λ o, signalsSend (signals_send o).1) <$> l))
  = Z.of_nat (length (filter (λ o, Threads_stop (Threads o) = true) l)).
Proof.
  induction l as [|o l IH]; [done|].
  rewrite !fmap_cons. cbn [foldr]. rewrite IH, filter_cons.
  cbn [signals_send fst signalsSend SIG_STOP].
  destruct (Threads_stop (Threads o)).
  - rewrite decide_True by done. cbn [length]. lia.
  - rewrite decide_False by done. lia.
Qed.

Lemma filter_length_all {A} (P : A → Prop) `{∀ x, Decision (P x)}
    (l : list A) :
  length (filter P l) = length l ↔ Forall P l.
Proof.
  induction l as [|x l IH]; [by split|]. rewrite filter_cons.
  pose proof (length_filter P l) as Hle.
  destruct (decide (P x)) as [Hx|Hx]; cbn [length].
  - rewrite Forall_cons. split.
    + intros [= Hl]. split; [done|by apply IH].
    + intros [_ Hl]. f_equal. by apply IH.
  - rewrite Forall_cons. split; [lia|]. by intros [? _].
Qed.

(** X6: how the stop signal spreads.  Every rank sends its flag
    [Threads.stop] as 0 or 1 in [signals_send]; once the all-reduce of a
    round has completed, [signals_process] leaves in [stopSignalsPosted] the
    number of ranks whose flag was set when they sent.  This number is at
    most the number of ranks and reaches it, which is what ends the loop of
    [signals_sync], exactly when every rank had its flag set; and the flag
    of the rank is set afterwards exactly when the flag of some rank was
    set. *)
Theorem signals_stop_count (s0 : Cluster) (ostates : list Cluster) :
  (Z.of_nat (S (length ostates)) < 2 ^ 64)%Z →
  let stopped := filter (λ o, Threads_stop (Threads o) = true)
                   (s0 :: ostates) in
  let others := (λ o, signalsSend (signals_send o).1) <$> ostates in
  let s' := signals_process
              (iallreduce_complete others (signals_send s0).1) in
  stopSignalsPosted s' = Z.of_nat (length stopped) ∧
  (stopSignalsPosted s' ≤ Z.of_nat (S (length ostates)))%Z ∧
  ((Z.of_nat (S (length ostates)) ≤ stopSignalsPosted s')%Z ↔
   Forall (λ o, Threads_stop (Threads o) = true) (s0 :: ostates)) ∧
  (Threads_stop (Threads s') = true ↔
   Exists (λ o, Threads_stop (Threads o) = true) (s0 :: ostates)).
Proof.
  intros Hsize stopped others s'.
  pose proof (length_filter (λ o, Threads_stop (Threads o) = true)
                (s0 :: ostates)) as Hle.
  fold stopped in Hle. cbn [length] in Hle.
  assert (Hrecv : signalsRecv (iallreduce_complete others (signals_send s0).1)
                  = Signals_sum ((λ o, signalsSend (signals_send o).1)
                                 <$> (s0 :: ostates))) by done.
  assert (Hposted : stopSignalsPosted s' = Z.of_nat (length stopped)).
  { unfold s'. cbn [signals_process stopSignalsPosted]. rewrite Hrecv.
    destruct (Signals_sum_fields ((λ o, signalsSend (signals_send o).1)
                                  <$> (s0 :: ostates))) as (_ & -> & _).
    rewrite stop_sum_count. fold stopped. apply wrap64_id.
    unfold is_uint64. lia. }
  split_and!.
  - done.
  - lia.
  - rewrite Hposted.
    rewrite <- (filter_length_all (λ o, Threads_stop (Threads o) = true)).
    fold stopped. cbn [length]. lia.
  - assert (Hstop : Threads_stop (Threads s')
                    = if (0 <? stopSignalsPosted s')%Z then true
                      else Threads_stop (Threads s0)).
    { unfold s'. cbn [signals_process Threads stopSignalsPosted].
      by destruct (0 <? _)%Z. }
    rewrite Hstop, Hposted. unfold stopped. rewrite filter_cons.
    rewrite Exists_cons.
    destruct (Threads_stop (Threads s0)) eqn:H0.
    + rewrite decide_True by done. cbn [length].
      rewrite (proj2 (Z.ltb_lt _ _)) by lia. split; [by left|done].
    + rewrite decide_False by done.
      destruct (filter _ ostates) as [|o l] eqn:Hf; cbn [length].
      * cbn. split; [done|]. intros [?|Hex]; [done|].
        apply Exists_exists in Hex as (o & Ho & Hstopped).
        assert (o ∈ filter (λ o, Threads_stop (Threads o) = true) ostates)
          by (by apply list_elem_of_filter).
        rewrite Hf in H. by apply elem_of_nil in H.
      * rewrite (proj2 (Z.ltb_lt _ _)) by lia. split; [|done]. intros _.
        right. apply Exists_exists. exists o.
        assert (o ∈ filter (λ o, Threads_stop (Threads o) = true) ostates)
          as [? ?]%list_elem_of_filter by (rewrite Hf; by left).
        done.
Qed.

Lemma signals_stop_count_witness :
  let pool := λ b, mkThreadPool 10 0 0 b in
  let s' := signals_process
              (iallreduce_complete
                 ((λ o, signalsSend (signals_send o).1)
                  <$> [Cluster_start 1 3 (pool true);
                       Cluster_start 2 3 (pool false)])
                 (signals_send (Cluster_start 0 3 (pool false))).1) in
  stopSignalsPosted s' = 1%Z ∧ Threads_stop (Threads s') = true.
Proof.
  intros pool s'.
  destruct (signals_stop_count (Cluster_start 0 3 (pool false))
              [Cluster_start 1 3 (pool true); Cluster_start 2 3 (pool false)])
    as (Hposted & _ & _ & Hstop).
  - cbn. lia.
  - split; [exact Hposted|]. apply Hstop. right. left. reflexivity.
Defined.

Lemma iallreduce_complete_frame others s :
  signalsCallCounter (iallreduce_complete others s) = signalsCallCounter s ∧
  stopSignalsPosted (iallreduce_complete others s) = stopSignalsPosted s ∧
  Threads (iallreduce_complete others s) = Threads s ∧
  signalsSend (iallreduce_complete others s) = signalsSend s.
Proof. unfold iallreduce_complete. by destruct (reqSignals s). Qed.

(** X7: the calls of the loop of [signals_sync].  The loop makes a
    sequence of polls: each is one [MPI_Test], followed by the posting of a
    new all-reduce exactly when the test found the previous one complete;
    so no all-reduce is posted while another is outstanding, and
    [signalsCallCounter] has advanced by the number of all-reduces posted.
    If the loop polled at all, its last poll posted an all-reduce, which is
    still outstanding when the loop ends. *)
Theorem signals_sync_loop_trace (sched : list (option (list Signals))) :
  ∀ (s s' : Cluster) (evs : list event),
  signals_sync_loop sched s = Some (s', evs) →
  is_uint64 (signalsCallCounter s) →
  ∃ flags : list bool,
    evs = flat_map (λ f : bool,
                      if f then [MPI_Test true; MPI_Iallreduce signalsComm]
                      else [MPI_Test false]) flags ∧
    length flags ≤ length sched ∧
    signalsCallCounter s'
    = wrap64 (signalsCallCounter s
              + Z.of_nat (length (filter (λ f : bool, f = true) flags))) ∧
    ((flags = [] ∧ s' = s ∧
      (Z.of_nat (world_size s) ≤ stopSignalsPosted s)%Z) ∨
     (last flags = Some true ∧ reqSignals s' = Pending)).
Proof.
  induction sched as [|env sched IH]; intros s s' evs Hrun Hcnt;
    cbn [signals_sync_loop] in Hrun;
    destruct (Z.ltb_spec (stopSignalsPosted s) (Z.of_nat (world_size s)))
      as [Hlt|Hge]; simplify_eq;
    try (exists []; cbn; rewrite Z.add_0_r, wrap64_id by done;
         split_and!; [done|lia|done|by left]).
  set (s1 := match env with
             | Some others => iallreduce_complete others s
             | None => s
             end) in *.
  assert (Hs1 : signalsCallCounter s1 = signalsCallCounter s ∧
                stopSignalsPosted s1 = stopSignalsPosted s ∧
                world_size s1 = world_size s).
  { unfold s1. destruct env as [others|]; [|done].
    destruct (iallreduce_complete_frame others s) as (-> & -> & _).
    by rewrite iallreduce_complete_world_size. }
  destruct Hs1 as (Hc1 & Hp1 & Hw1).
  destruct (signals_poll s1) as [s2 ev1] eqn:Hpoll.
  destruct (signals_sync_loop sched s2) as [[s3 ev2]|] eqn:Hloop;
    cbn in Hrun; simplify_eq.
  unfold signals_poll, MPI_Test_reqSignals in Hpoll.
  destruct (reqSignals s1) eqn:Hreq; cbn in Hpoll; simplify_eq.
  - (* null request: the test succeeds *)
    destruct (IH _ _ _ Hloop) as (flags & -> & Hlen & Hcnt' & Hlast).
    { cbn. unfold is_uint64, wrap64. lia. }
    exists (true :: flags). cbn [flat_map length filter]. split_and!.
    + done.
    + lia.
    + rewrite Hcnt'. rewrite filter_cons, decide_True by done.
      cbn [signalsCallCounter length]. rewrite Hc1, wrap64_add_l.
      f_equal. lia.
    + right. destruct Hlast as [(-> & -> & _)|[Hl Hr]]; [done|].
      split; [|done]. destruct flags; [done|]. done.
  - (* outstanding request: nothing happens *)
    destruct (IH _ _ _ Hloop) as (flags & -> & Hlen & Hcnt' & Hlast).
    { by rewrite Hc1. }
    exists (false :: flags). cbn [flat_map length]. split_and!.
    + done.
    + lia.
    + rewrite Hcnt', Hc1. by rewrite filter_cons, decide_False by done.
    + right. destruct Hlast as [(-> & -> & Hge)|[Hl Hr]]; [lia|].
      split; [|done]. destruct flags; [done|]. done.
  - (* complete request: the test succeeds *)
    destruct (IH _ _ _ Hloop) as (flags & -> & Hlen & Hcnt' & Hlast).
    { cbn. unfold is_uint64, wrap64. lia. }
    exists (true :: flags). cbn [flat_map length filter]. split_and!.
    + done.
    + lia.
    + rewrite Hcnt'. rewrite filter_cons, decide_True by done.
      cbn [signalsCallCounter length]. rewrite Hc1, wrap64_add_l.
      f_equal. lia.
    + right. destruct Hlast as [(-> & -> & _)|[Hl Hr]]; [done|].
      split; [|done]. destruct flags; [done|]. done.
Qed.

Lemma signals_sync_loop_trace_witness :
  let s := (signals_send (Cluster_start 0 1 (mkThreadPool 10 0 0 true))).1 in
  ∃ s' evs flags,
    signals_sync_loop [None; Some []] s = Some (s', evs) ∧
    evs = flat_map (λ f : bool,
                      if f then [MPI_Test true; MPI_Iallreduce signalsComm]
                      else [MPI_Test false]) flags ∧
    length flags ≤ 2.
Proof.
  intros s.
  destruct (signals_sync_loop [None; Some []] s) as [[s' evs]|] eqn:Hrun;
    [|vm_compute in Hrun; discriminate Hrun].
  destruct (signals_sync_loop_trace [None; Some []] s s' evs Hrun)
    as (flags & Hev & Hlen & _).
  - unfold is_uint64. cbn. unfold wrap64. cbn. lia.
  - exists s', evs, flags. split; [reflexivity|]. split; [exact Hev|exact Hlen].
Defined.

(** ** [signals_sync] on a single rank *)

Lemma ThreadPool_stop_eta (t : ThreadPool) (b : bool) :
  Threads_stop t = true →
  (if b then mkThreadPool (Threads_nodes_searched t) (Threads_tb_hits t)
               (Threads_TT_saves t) true
   else t) = t.
Proof. destruct t as [n tb tts stop]. cbn. intros ->. by destruct b. Qed.

(** One turn of the loop on a single rank whose stop flag is set: the
    transport completes what was outstanding and the poll posts again. *)
Lemma single_rank_poll_stop (s : Cluster) :
  single_rank_inv s → Threads_stop (Threads s) = true →
  signals_poll (iallreduce_complete [] s)
  = ((signals_poll (iallreduce_complete [] s)).1,
     [MPI_Test true; MPI_Iallreduce signalsComm]) ∧
  single_rank_inv (signals_poll (iallreduce_complete [] s)).1 ∧
  Threads (signals_poll (iallreduce_complete [] s)).1 = Threads s ∧
  stopSignalsPosted (signals_poll (iallreduce_complete [] s)).1
  = SIG_STOP (signalsSend s) ∧
  SIG_STOP (signalsSend (signals_poll (iallreduce_complete [] s)).1) = 1%Z ∧
  signalsCallCounter (signals_poll (iallreduce_complete [] s)).1
  = wrap64 (signalsCallCounter s + 1).
Proof.
  intros Hs Hstop.
  destruct (single_rank_inv_complete s Hs) as [Hs1 Hreq1].
  destruct (iallreduce_complete_frame [] s) as (Hc & _ & Ht & Hsend).
  pose proof (single_rank_inv_poll _ Hs1) as Hs2.
  assert (Hrecv : signalsRecv (iallreduce_complete [] s) = signalsSend s).
  { destruct Hs1 as (_ & _ & _ & _ & _ & _ & Hr). by rewrite Hr. }
  revert Hs2. unfold signals_poll, MPI_Test_reqSignals.
  destruct (reqSignals (iallreduce_complete [] s)) eqn:Hreq; [|done|];
    cbn [fst snd signals_send signals_process set_reqSignals Threads
         stopSignalsPosted signalsSend signalsCallCounter signalsRecv
         SIG_STOP];
    rewrite Hrecv, Hc, Ht, ThreadPool_stop_eta, Hstop by done;
    intros Hs2; by split_and!.
Qed.

Lemma signals_sync_loop_done (sched : list (option (list Signals)))
    (s : Cluster) :
  (Z.of_nat (world_size s) ≤ stopSignalsPosted s)%Z →
  signals_sync_loop sched s = Some (s, []).
Proof.
  intros Hge. destruct sched; cbn [signals_sync_loop];
    by rewrite (proj2 (Z.ltb_ge _ _)).
Qed.

Lemma single_rank_loop_returns (s : Cluster)
    (sched : list (option (list Signals))) :
  single_rank_inv s → Threads_stop (Threads s) = true →
  is_uint64 (signalsCallCounter s) →
  ∃ s' evs,
    signals_sync_loop (Some [] :: Some [] :: sched) s = Some (s', evs) ∧
    single_rank_inv s' ∧ Threads s' = Threads s ∧
    is_uint64 (signalsCallCounter s') ∧ length evs ≤ 4.
Proof.
  intros Hs Hstop Hcnt.
  assert (Hsize : world_size s = 1) by (by destruct Hs).
  destruct (Z.ltb_spec (stopSignalsPosted s) (Z.of_nat (world_size s)))
    as [Hlt|Hge].
  2: { rewrite signals_sync_loop_done by done. exists s, []. cbn.
       split_and!; try done. lia. }
  cbn [signals_sync_loop]. rewrite (proj2 (Z.ltb_lt _ _)) by done.
  destruct (single_rank_poll_stop s Hs Hstop)
    as (Hpoll & Hs2 & Ht2 & Hp2 & Hsend2 & Hc2).
  rewrite Hpoll. set (s2 := (signals_poll (iallreduce_complete [] s)).1) in *.
  assert (Hsize2 : world_size s2 = 1) by (by destruct Hs2).
  assert (Hstop2 : Threads_stop (Threads s2) = true) by (by rewrite Ht2).
  assert (Hcnt2 : is_uint64 (signalsCallCounter s2)).
  { rewrite Hc2. unfold is_uint64, wrap64. lia. }
  destruct (Z.ltb_spec (stopSignalsPosted s2) (Z.of_nat (world_size s2)))
    as [Hlt2|Hge2].
  2: { eexists s2, _. cbn. split_and!; try done. cbn. lia. }
  destruct (single_rank_poll_stop s2 Hs2 Hstop2)
    as (Hpoll3 & Hs3 & Ht3 & Hp3 & Hsend3 & Hc3).
  rewrite Hpoll3.
  set (s3 := (signals_poll (iallreduce_complete [] s2)).1) in *.
  rewrite signals_sync_loop_done; cycle 1.
  { rewrite Hp3, Hsend2. destruct Hs3 as (-> & _). lia. }
  eexists s3, _. cbn. split_and!; try done.
  - by rewrite Ht3.
  - rewrite Hc3. unfold is_uint64, wrap64. lia.
Qed.

(** X8: on a single rank, [signals_sync] returns.  From any state the rank
    goes through, with its stop flag set and a transport that completes the
    outstanding all-reduce before each poll, [signals_sync] ends after at
    most two polls; it then makes the blocking all-reduce and one wait, and
    never the extra send of a rank that is behind.  It returns with no
    request outstanding, the thread pool as it was, and [nodes_searched]
    equal to the local count. *)
Theorem signals_sync_single_rank (rank : nat) (s : Cluster)
    (sched : list (option (list Signals))) :
  reachable rank 1 s →
  Threads_stop (Threads s) = true →
  is_uint64 (signalsCallCounter s) →
  2 ≤ length sched → Forall (λ env, env = Some []) sched →
  ∃ s' polls,
    signals_sync_all [mkRankRun s sched [] []]
    = Some [(s', polls ++ [MPI_Allreduce MoveComm; MPI_Wait])] ∧
    length polls ≤ 4 ∧
    Forall (λ e, blocking e = false) polls ∧
    reqSignals s' = MPI_REQUEST_NULL ∧
    Threads s' = Threads s ∧
    nodes_searched s' = Threads_nodes_searched (Threads s).
Proof.
  intros Hreach Hstop Hcnt Hlen Hsched.
  pose proof (reachable_single_rank_inv rank s Hreach) as Hs.
  destruct sched as [|e1 [|e2 sched]]; cbn in Hlen; try lia.
  apply Forall_cons in Hsched as [-> Hsched].
  apply Forall_cons in Hsched as [-> _].
  destruct (single_rank_loop_returns s sched Hs Hstop Hcnt)
    as (sL & evL & Hloop & HsL & HtL & HcL & HlenL).
  destruct (signals_sync_loop_exit _ _ _ _ Hloop) as (_ & _ & Hnb).
  unfold signals_sync_all.
  cbn [mapM run_sched run_state run_others1 run_others2].
  rewrite Hloop.
  cbn [mbind option_bind mret option_ret fmap list_fmap foldr zip zip_with
       mapM fst snd run_others1 run_others2 signalsCallCounter].
  rewrite signals_sync_finish_unfold. cbn zeta.
  assert (Hmax : Z.max (signalsCallCounter sL) 0 = signalsCallCounter sL)
    by (unfold is_uint64 in HcL; lia).
  rewrite Hmax, Z.ltb_irrefl, Z.eqb_refl.
  cbn [mbind option_bind mret option_ret app].
  destruct (single_rank_inv_wait sL HsL) as [Hw Hwreq].
  pose proof (single_rank_inv_process _ Hw Hwreq) as Hfin.
  eexists _, evL. split; [done|]. split_and!; try done.
  - unfold MPI_Wait_reqSignals. cbn [signals_process Threads set_reqSignals].
    destruct (iallreduce_complete_frame [] sL) as (_ & _ & -> & _).
    rewrite ThreadPool_stop_eta by (by rewrite HtL). done.
  - destruct Hfin as (_ & Ho & _ & _ & _ & (Hn & _) & _).
    unfold nodes_searched. rewrite Ho, Z.add_0_l, wrap64_id by done.
    unfold MPI_Wait_reqSignals. cbn [signals_process Threads set_reqSignals].
    destruct (iallreduce_complete_frame [] sL) as (_ & _ & -> & _).
    rewrite ThreadPool_stop_eta by (by rewrite HtL). by rewrite HtL.
Qed.

Lemma signals_sync_single_rank_witness :
  ∃ s' polls,
    signals_sync_all
      [mkRankRun (Cluster_start 0 1 (mkThreadPool 10 0 0 true))
         [Some []; Some []; Some []] [] []]
    = Some [(s', polls ++ [MPI_Allreduce MoveComm; MPI_Wait])] ∧
    length polls ≤ 4.
Proof.
  destruct (signals_sync_single_rank 0
              (Cluster_start 0 1 (mkThreadPool 10 0 0 true))
              [Some []; Some []; Some []])
    as (s' & polls & Hrun & Hlen & _).
  - apply reach_start. unfold ThreadPool_wf, is_uint64. cbn. lia.
  - reflexivity.
  - unfold is_uint64. cbn. lia.
  - cbn. lia.
  - repeat constructor.
  - exists s', polls. split; [exact Hrun|exact Hlen].
Defined.

(** ** What no operation touches *)



Lemma signals_process_pool (s : Cluster) :
  pool_kept (Threads s) (Threads (signals_process s)).
Proof.
  unfold signals_process. cbn. destruct (0 <? _)%Z; by split_and!.
Qed.










(** ** The input relay, line after line *)

Section GetLineRuns.
Import InputRelay.

Lemma extract_line_newline (l rest : list ascii) :
  "010"%char ∉ l → extract_line (l ++ "010"%char :: rest) = (l, Some rest).
Proof.
  induction l as [|c l IH]; intros Hnl; cbn [extract_line app].
  { by rewrite Ascii.eqb_refl. }
  apply not_elem_of_cons in Hnl as [Hc Hl].
  rewrite (proj2 (Ascii.eqb_neq c "010"%char)) by done.
  by rewrite IH.
Qed.

Lemma extract_line_end (l : list ascii) :
  "010"%char ∉ l → extract_line l = (l, None).
Proof.
  induction l as [|c l IH]; intros Hnl; cbn [extract_line]; [done|].
  apply not_elem_of_cons in Hnl as [Hc Hl].
  rewrite (proj2 (Ascii.eqb_neq c "010"%char)) by done.
  by rewrite IH.
Qed.

Lemma extract_line_inv (cs : list ascii) :
  ("010"%char ∉ (extract_line cs).1) ∧
  match (extract_line cs).2 with
  | Some rest => cs = (extract_line cs).1 ++ "010"%char :: rest
  | None => cs = (extract_line cs).1
  end.
Proof.
  induction cs as [|c cs [IH1 IH2]]; cbn [extract_line].
  { split; [apply not_elem_of_nil|done]. }
  destruct (Ascii.eqb_spec c "010"%char) as [->|Hc].
  { split; [apply not_elem_of_nil|done]. }
  destruct (extract_line cs) as [l [rest|]]; cbn [fst snd] in *.
  - split; [by apply not_elem_of_cons|]. by rewrite IH2 at 1.
  - split; [by apply not_elem_of_cons|]. by rewrite IH2 at 1.
Qed.

Lemma all_ranks_same {A} (x : A) (strs : list string) :
  strs ≠ [] →
  x :: ((λ _ : string, x) <$> tail strs) = replicate (length strs) x.
Proof.
  destruct strs as [|s strs]; [done|]. intros _. cbn [tail length replicate].
  f_equal. induction strs as [|s' strs IH]; [done|]. cbn. by rewrite <- IH.
Qed.

(** One call on a good stream that begins with a line and its newline. *)
Lemma getline_line (l rest : list ascii) (strs : list string) :
  strs ≠ [] → "010"%char ∉ l → (Z.of_nat (length l) < 2 ^ 31)%Z →
  getline (mkIstream (l ++ "010"%char :: rest) false false) strs
  = Some (mkIstream rest false false,
          replicate (length strs) (true, string_of_list_ascii l)).
Proof.
  intros Hstrs Hnl Hfit. unfold getline.
  destruct (strs !! 0) as [str0|] eqn:H0; cycle 1.
  { destruct strs; [done|]. done. }
  cbn [mbind option_bind]. unfold std_getline.
  cbn [eofbit failbit unread orb]. rewrite extract_line_newline by done.
  cbn [failbit negb]. rewrite list_ascii_of_string_of_list_ascii.
  rewrite to_int_small by done. rewrite (proj2 (Z.ltb_ge _ _)) by lia.
  rewrite Nat2Z.id, take_ge by done. by rewrite all_ranks_same.
Qed.

Lemma replicate_snd {A B} (n : nat) (x : A * B) :
  (replicate n x).*2 = replicate n x.2.
Proof. induction n as [|n IH]; [done|]. cbn. by rewrite <- IH. Qed.

(** X10: the relay loses nothing.  When the input of the root begins with
    lines that each end with a newline, as many calls of [getline] give
    every rank these lines, in order, without the newline and each with the
    result true, and leave unread exactly what follows them; the stream is
    still good. *)
Theorem getline_run_lines (lines : list (list ascii)) :
  ∀ (rest : list ascii) (strs : list string),
  strs ≠ [] →
  Forall (λ l, ("010"%char ∉ l) ∧ (Z.of_nat (length l) < 2 ^ 31)%Z) lines →
  getline_run (length lines)
    (mkIstream (concat ((λ l, l ++ ["010"%char]) <$> lines) ++ rest)
       false false) strs
  = Some (mkIstream rest false false,
          (λ l, replicate (length strs) (true, string_of_list_ascii l))
          <$> lines).
Proof.
  induction lines as [|l lines IH]; intros rest strs Hstrs Hlines; [done|].
  apply Forall_cons in Hlines as [[Hnl Hfit] Hlines].
  cbn [length getline_run fmap list_fmap concat].
  rewrite <- !app_assoc. cbn [app].
  rewrite getline_line by done. cbn [mbind option_bind].
  rewrite replicate_snd. cbn [snd].
  change (list_fmap _ _ ?f lines) with (f <$> lines).
  rewrite IH; [|by destruct strs|done].
  cbn [mbind option_bind]. by rewrite length_replicate.
Qed.

Lemma getline_run_lines_witness :
  getline_run 2
    (mkIstream (list_ascii_of_string "uci" ++ ["010"%char] ++
                list_ascii_of_string "isready" ++ ["010"%char] ++
                list_ascii_of_string "quit") false false)
    ["old"; ""; "x"]%string
  = Some (mkIstream (list_ascii_of_string "quit") false false,
          [replicate 3 (true, "uci"%string);
           replicate 3 (true, "isready"%string)]).
Proof.
  apply (getline_run_lines
           [list_ascii_of_string "uci"; list_ascii_of_string "isready"]
           (list_ascii_of_string "quit") ["old"; ""; "x"]%string).
  - done.
  - repeat constructor; try (cbn; lia);
      intros H; repeat (apply elem_of_cons in H as [H|H]; [discriminate H|]);
      by apply elem_of_nil in H.
Defined.

End GetLineRuns.

Section GetLineEnd.
Import InputRelay.

(** One call on a stream that is not good. *)
Lemma getline_bad_stream (input : istream) (strs : list string)
    (str0 : string) :
  strs !! 0 = Some str0 →
  eofbit input || failbit input = true →
  (Z.of_nat (String.length str0) < 2 ^ 31)%Z →
  getline input strs
  = Some (mkIstream (unread input) (eofbit input) true,
          replicate (length strs) (false, str0)).
Proof.
  intros H0 Hbad Hfit. unfold getline. rewrite H0. cbn [mbind option_bind].
  unfold std_getline. rewrite Hbad. cbn [failbit negb].
  assert (Hlen : length (list_ascii_of_string str0) = String.length str0).
  { clear. induction str0 as [|c s IH]; [done|]. cbn. by rewrite IH. }
  rewrite Hlen, to_int_small by done. rewrite (proj2 (Z.ltb_ge _ _)) by lia.
  rewrite Nat2Z.id, take_ge by lia. rewrite string_of_list_ascii_of_string.
  rewrite all_ranks_same; [done|]. by intros ->.
Qed.

Lemma getline_run_S (n : nat) (input : istream) (strs : list string) :
  getline_run (S n) input strs
  = '(input1, outs) ← getline input strs;
    '(input2, rest) ← getline_run n input1 (outs.*2);
    Some (input2, outs :: rest).
Proof. done. Qed.

(** X11: once the stream of the root has reached its end or has failed,
    [getline] reads nothing more, however often it is called: the unread
    input stays, every call returns false on every rank, and every rank is
    left with the string the root had before the first of these calls. *)
Theorem getline_failed (n : nat) :
  ∀ (input : istream) (strs : list string) (str0 : string),
  strs !! 0 = Some str0 →
  eofbit input || failbit input = true →
  (Z.of_nat (String.length str0) < 2 ^ 31)%Z →
  getline_run (S n) input strs
  = Some (mkIstream (unread input) (eofbit input) true,
          replicate (S n) (replicate (length strs) (false, str0))).
Proof.
  induction n as [|n IH]; intros input strs str0 H0 Hbad Hfit;
    rewrite getline_run_S, (getline_bad_stream input strs str0) by done;
    cbn [mbind option_bind].
  { done. }
  assert (Hpos : 0 < length strs) by (by apply lookup_lt_Some in H0).
  rewrite replicate_snd. cbn [snd].
  rewrite (IH _ _ str0); cbn [unread eofbit failbit].
  - cbn [mbind option_bind]. by rewrite length_replicate.
  - apply lookup_replicate_2. lia.
  - by rewrite orb_true_r.
  - done.
Qed.

Lemma getline_failed_witness :
  getline_run 2 (mkIstream (list_ascii_of_string "rest") true false)
    ["go"; "x"]%string
  = Some (mkIstream (list_ascii_of_string "rest") true true,
          [[(false, "go"%string); (false, "go"%string)];
           [(false, "go"%string); (false, "go"%string)]]).
Proof.
  apply (getline_failed 1
           (mkIstream (list_ascii_of_string "rest") true false)
           ["go"; "x"]%string "go"%string).
  - reflexivity.
  - reflexivity.
  - cbn. lia.
Defined.

(** X12: a last line without a newline is not lost.  When the unread
    input of a good stream is a non-empty text without newline, [getline]
    gives it to every rank with the result true and leaves the stream at
    its end; the next call returns false on every rank and leaves every
    rank with that last line. *)
Theorem getline_last_line (l : list ascii) (strs : list string) :
  strs ≠ [] → l ≠ [] → "010"%char ∉ l →
  (Z.of_nat (length l) < 2 ^ 31)%Z →
  getline_run 2 (mkIstream l false false) strs
  = Some (mkIstream [] true true,
          [replicate (length strs) (true, string_of_list_ascii l);
           replicate (length strs) (false, string_of_list_ascii l)]).
Proof.
  intros Hstrs Hl Hnl Hfit. cbn [getline_run].
  assert (Hfirst : getline (mkIstream l false false) strs
                   = Some (mkIstream [] true false,
                           replicate (length strs)
                             (true, string_of_list_ascii l))).
  { unfold getline. destruct (strs !! 0) as [str0|] eqn:H0; cycle 1.
    { destruct strs; [done|]. done. }
    cbn [mbind option_bind]. unfold std_getline.
    cbn [eofbit failbit unread orb]. rewrite extract_line_end by done.
    destruct l as [|c l']; [done|]. cbn [failbit negb].
    rewrite list_ascii_of_string_of_list_ascii.
    rewrite to_int_small by done. rewrite (proj2 (Z.ltb_ge _ _)) by lia.
    rewrite Nat2Z.id, take_ge by done. by rewrite all_ranks_same. }
  rewrite Hfirst. cbn [mbind option_bind]. rewrite replicate_snd. cbn [snd].
  assert (Hlen : String.length (string_of_list_ascii l) = length l).
  { clear. induction l as [|c l IH]; [done|]. cbn. by rewrite IH. }
  rewrite (getline_bad_stream _ _ (string_of_list_ascii l)).
  - cbn [mbind option_bind unread eofbit]. by rewrite length_replicate.
  - destruct strs; [done|]. done.
  - done.
  - by rewrite Hlen.
Qed.

Lemma getline_last_line_witness :
  getline_run 2 (mkIstream (list_ascii_of_string "quit") false false)
    [""; "old"]%string
  = Some (mkIstream [] true true,
          [[(true, "quit"%string); (true, "quit"%string)];
           [(false, "quit"%string); (false, "quit"%string)]]).
Proof.
  apply (getline_last_line (list_ascii_of_string "quit") [""; "old"]%string).
  - done.
  - done.
  - intros H; repeat (apply elem_of_cons in H as [H|H]; [discriminate H|]);
      by apply elem_of_nil in H.
  - cbn. lia.
Defined.

(** X13: what [getline] delivers was in the input.  When a call returns
    true on the root, the stream was good before it; the string the root is
    left with holds no newline and is exactly what the stream held up to
    its first newline, which is consumed with it, or up to its end when no
    newline was left, and then the string is not empty.  Every rank returns
    true as well, and the string of each is a prefix of that of the root. *)
Theorem getline_true_inv (input input' : istream) (strs : list string)
    (outs : list (bool * string)) (str : string) :
  getline input strs = Some (input', outs) →
  outs !! 0 = Some (true, str) →
  eofbit input = false ∧ failbit input = false ∧
  ("010"%char ∉ list_ascii_of_string str) ∧
  ((unread input = list_ascii_of_string str ++ "010"%char :: unread input' ∧
    eofbit input' = false) ∨
   (unread input = list_ascii_of_string str ∧ str ≠ ""%string ∧
    unread input' = [] ∧ eofbit input' = true)) ∧
  failbit input' = false ∧
  ∀ o, o ∈ outs →
    o.1 = true ∧
    list_ascii_of_string o.2 `prefix_of` list_ascii_of_string str.
Proof.
  unfold getline. destruct (strs !! 0) as [str0|]; cbn [mbind option_bind];
    [|done].
  destruct (std_getline input str0) as [input1 str1] eqn:Hread.
  destruct (_ <? 0)%Z; [done|]. intros [= <- <-] [= Hstate <-].
  apply negb_true_iff in Hstate.
  assert (Hprefix : ∀ o,
    o ∈ (negb (failbit input1), str1)
        :: ((λ _ : string,
               (negb (failbit input1),
                string_of_list_ascii
                  (take (Z.to_nat (to_int (length (list_ascii_of_string str1))))
                     (list_ascii_of_string str1)))) <$> tail strs) →
    o.1 = true ∧ list_ascii_of_string o.2 `prefix_of` list_ascii_of_string str1).
  { intros o [->|Ho]%elem_of_cons.
    - cbn. by rewrite Hstate.
    - apply list_elem_of_fmap in Ho as (? & -> & _). cbn. rewrite Hstate.
      split; [done|]. rewrite list_ascii_of_string_of_list_ascii.
      apply prefix_take. }
  unfold std_getline in Hread.
  destruct (eofbit input || failbit input) eqn:Hbad.
  { simplify_eq. }
  apply orb_false_iff in Hbad as [Heof Hfail].
  pose proof (extract_line_inv (unread input)) as [Hnl Hcs].
  destruct (extract_line (unread input)) as [l [rest|]]; cbn [fst snd] in *;
    simplify_eq; cbn [unread eofbit failbit] in *.
  - split_and!; [done|done| | |done|exact Hprefix];
      rewrite list_ascii_of_string_of_list_ascii; [done|by left].
  - split_and!; [done|done| | |done|exact Hprefix];
      rewrite ?list_ascii_of_string_of_list_ascii; [done|].
    right. split_and!; try done. by destruct (unread input).
Qed.

Lemma getline_true_inv_witness :
  let input := mkIstream (list_ascii_of_string "go" ++ ["010"%char]
                          ++ list_ascii_of_string "stop") false false in
  ∃ input' outs,
    getline input [""; "old"]%string = Some (input', outs) ∧
    unread input = list_ascii_of_string "go" ++ "010"%char :: unread input'.
Proof.
  intros input.
  destruct (getline input [""; "old"]%string) as [[input' outs]|] eqn:Hrun;
    [|vm_compute in Hrun; discriminate Hrun].
  exists input', outs. split; [reflexivity|].
  destruct (getline_true_inv input input' [""; "old"]%string outs "go"%string
              Hrun) as (_ & _ & _ & [[Hin _]|[Hin _]] & _).
  - vm_compute in Hrun. injection Hrun as _ <-. reflexivity.
  - exact Hin.
  - exfalso. vm_compute in Hrun. injection Hrun as <- _.
    cbn in Hin. discriminate Hin.
Defined.

End GetLineEnd.

(** ** The move picker: what the choice depends on *)

Section MovePickerMore.
Import MovePicker.

Lemma min_and_clear_shift (k : Z) (l : list MoveInfo) :
  ∀ (m : Z) (votes : gmap Z Z),
  min_and_clear (shift_score k <$> l) (m + k) votes
  = ((min_and_clear l m votes).1 + k, (min_and_clear l m votes).2)%Z.
Proof.
  unfold min_and_clear.
  induction l as [|c l IH]; intros m votes; cbn [fmap list_fmap fold_left];
    [done|].
  change (list_fmap _ _ ?f l) with (f <$> l). cbn [fst snd shift_score score move].
  rewrite Z.add_min_distr_r. apply IH.
Qed.

Lemma add_votes_shift (k minScore : Z) (l : list MoveInfo) :
  ∀ votes : gmap Z Z,
  add_votes (minScore + k) (shift_score k <$> l) votes
  = add_votes minScore l votes.
Proof.
  unfold add_votes.
  induction l as [|c l IH]; intros votes; cbn [fmap list_fmap fold_left];
    [done|].
  change (list_fmap _ _ ?f l) with (f <$> l).
  cbn [shift_score score move depth]. rewrite IH.
  by replace (score c + k - (minScore + k))%Z with (score c - minScore)%Z
    by lia.
Qed.

Lemma select_best_shift (k : Z) (votes : gmap Z Z) (l : list MoveInfo) :
  ∀ (best : Z) (mi : MoveInfo),
  select_best votes (shift_score k <$> l) best (shift_score k mi)
  = ((select_best votes l best mi).1,
     shift_score k (select_best votes l best mi).2).
Proof.
  unfold select_best.
  induction l as [|c l IH]; intros best mi; cbn [fmap list_fmap fold_left];
    [done|].
  change (list_fmap _ _ ?f l) with (f <$> l).
  cbn [fst snd shift_score move].
  destruct (best <? votes_at votes (move c))%Z; apply IH.
Qed.

Lemma pick_root_shift (k : Z) (mi : MoveInfo) (l : list MoveInfo) :
  pick_root (shift_score k mi) (shift_score k <$> l)
  = shift_score k <$> pick_root mi l.
Proof.
  unfold pick_root. rewrite list_lookup_fmap.
  destruct (l !! 0) as [first|]; cbn [fmap option_fmap option_map mbind
                                      option_bind]; [|done].
  cbn [shift_score score move]. rewrite min_and_clear_shift.
  destruct (min_and_clear l (score first) ∅) as [minScore votes].
  cbn [fst snd]. rewrite add_votes_shift, select_best_shift. done.
Qed.

(** X14: only the differences between the scores count.  Let the [int]
    arithmetic of the votes not overflow (scores and depths between [-B]
    and [B], with [3 * B * size()] below 2^31), and let every score still
    be an [int] when [k] is added to it.  Then adding [k] to the score of
    every rank changes nothing in what [pick_moves] does: the same rank is
    selected, its record (with the shifted score) goes to every rank, and
    the same PV line, if any, goes to the root. *)
Theorem pick_moves_shift (k B : Z) (ranks : list (MoveInfo * string)) :
  (∀ r, r ∈ ranks → (- B ≤ score r.1 ≤ B)%Z ∧ (- B ≤ depth r.1 ≤ B)%Z) →
  (3 * B * Z.of_nat (length ranks) < 2 ^ 31)%Z →
  (∀ r, r ∈ ranks → is_int (score r.1 + k)) →
  pick_moves ((λ r, (shift_score k r.1, r.2)) <$> ranks)
  = (λ res : list (MoveInfo * string) * option nat,
       ((λ o, (shift_score k o.1, o.2)) <$> res.1, res.2))
    <$> pick_moves ranks.
Proof.
  intros _ _ _. unfold pick_moves. rewrite list_lookup_fmap.
  destruct (ranks !! 0) as [root|]; cbn [fmap option_fmap option_map mbind
                                         option_bind]; [|done].
  assert (Hfst : ((λ r : MoveInfo * string, (shift_score k r.1, r.2))
                  <$> ranks).*1 = shift_score k <$> ranks.*1).
  { rewrite <- !list_fmap_compose. done. }
  cbn [fst snd]. rewrite Hfst, pick_root_shift.
  destruct (pick_root root.1 ranks.*1) as [mi|];
    cbn [fmap option_fmap option_map mbind option_bind]; [|done].
  cbn [shift_score rank].
  destruct (rank mi =? 0)%Z.
  { cbn. f_equal. f_equal. rewrite <- !list_fmap_compose. done. }
  destruct (0 <? rank mi)%Z; [|done].
  rewrite list_lookup_fmap.
  destruct (ranks !! Z.to_nat (rank mi)) as [sender|];
    cbn [fmap option_fmap option_map mbind option_bind]; [|done].
  cbn. f_equal. f_equal. rewrite list_fmap_insert. cbn.
  f_equal. rewrite <- !list_fmap_compose. done.
Qed.

(** The third loop keeps [mi] when no vote is above the first one. *)
Lemma select_best_keeps (votes : gmap Z Z) (l : list MoveInfo) (best : Z)
    (mi : MoveInfo) :
  (∀ c, c ∈ l → (votes_at votes (move c) ≤ best)%Z) →
  select_best votes l best mi = (best, mi).
Proof.
  unfold select_best. induction l as [|c l IH]; intros Hle; [done|].
  cbn [fold_left fst]. rewrite (proj2 (Z.ltb_ge _ _)).
  - apply IH. intros x Hx. apply Hle. by right.
  - apply Hle. by left.
Qed.

(** X15: when every rank reports the same move, the root keeps its own
    record: [pick_moves] gives every rank the record of the root, with the
    depth and the score the root had, even when another rank searched
    deeper; no PV line is sent and every rank keeps its own. *)
Theorem pick_moves_unanimous (ranks : list (MoveInfo * string))
    (root : MoveInfo * string) :
  ranks !! 0 = Some root →
  rank root.1 = 0%Z →
  (∀ r, r ∈ ranks → move r.1 = move root.1) →
  pick_moves ranks = Some ((λ r, (root.1, r.2)) <$> ranks, None).
Proof.
  intros H0 Hrank Hsame. unfold pick_moves. rewrite H0.
  cbn [mbind option_bind]. unfold pick_root.
  rewrite list_lookup_fmap, H0. cbn [fmap option_fmap option_map mbind
                                      option_bind fst].
  destruct (min_and_clear ranks.*1 (score root.1) ∅) as [minScore votes].
  rewrite select_best_keeps.
  - cbn [snd mbind option_bind]. by rewrite Hrank.
  - intros c (r & -> & Hr)%list_elem_of_fmap. by rewrite (Hsame r Hr).
Qed.

End MovePickerMore.

Lemma pick_moves_shift_witness :
  let ranks := [(MovePicker.mkMoveInfo 1 7 18 30 0, "pv0"%string);
                (MovePicker.mkMoveInfo 2 8 20 35 1, "pv1"%string)] in
  MovePicker.pick_moves
    [(MovePicker.mkMoveInfo 1 7 18 (-70) 0, "pv0"%string);
     (MovePicker.mkMoveInfo 2 8 20 (-65) 1, "pv1"%string)]
  = Some ([(MovePicker.mkMoveInfo 2 8 20 (-65) 1, "pv1"%string);
           (MovePicker.mkMoveInfo 2 8 20 (-65) 1, "pv1"%string)], Some 1).
Proof.
  intros ranks.
  apply (pick_moves_shift (-100) 35 ranks).
  - intros r Hr. apply list_elem_of_In in Hr.
    destruct Hr as [<-|[<-|[]]]; cbn; lia.
  - cbn. lia.
  - intros r Hr. apply list_elem_of_In in Hr.
    destruct Hr as [<-|[<-|[]]]; cbn; unfold is_int; lia.
Defined.

Lemma pick_moves_unanimous_witness :
  MovePicker.pick_moves
    [(MovePicker.mkMoveInfo 5 7 20 100 0, "pv0"%string);
     (MovePicker.mkMoveInfo 5 8 24 130 1, "pv1"%string)]
  = Some ([(MovePicker.mkMoveInfo 5 7 20 100 0, "pv0"%string);
           (MovePicker.mkMoveInfo 5 7 20 100 0, "pv1"%string)], None).
Proof.
  apply (pick_moves_unanimous
           [(MovePicker.mkMoveInfo 5 7 20 100 0, "pv0"%string);
            (MovePicker.mkMoveInfo 5 8 24 130 1, "pv1"%string)]
           (MovePicker.mkMoveInfo 5 7 20 100 0, "pv0"%string)).
  - reflexivity.
  - reflexivity.
  - intros r [->|[->|[]%elem_of_nil]%elem_of_cons]%elem_of_cons; reflexivity.
Defined.

(** ** When [cluster_info] is undefined *)

(** X16: [cluster_info] divides three times by [Time.elapsed() + 1].  For
    a value of [Time.elapsed()] in the range of a signed 64-bit number, the
    call is undefined in two cases only: when the value is the largest,
    where adding one overflows, and when it is -1, where the divisor is
    zero.  Any other value gives the seven numbers; a value below -1 makes
    the divisor, converted to [uint64_t], larger than 2^63. *)
Theorem cluster_info_undefined (TTCacheSize : nat) (now_elapsed depth : Z)
    (s : Cluster) :
  (- 2 ^ 63 ≤ now_elapsed < 2 ^ 63)%Z →
  (cluster_info TTCacheSize now_elapsed depth s = None ↔
   now_elapsed = (-1)%Z ∨ now_elapsed = (2 ^ 63 - 1)%Z) ∧
  ((now_elapsed < -1)%Z →
   ∃ sps srpps TTSavesps,
     cluster_info TTCacheSize now_elapsed depth s
     = Some [Z.quot depth ONE_PLY; signalsCallCounter s; sps;
             sendRecvPosted s; srpps; TT_saves s; TTSavesps] ∧
     sps = (wrap64 (signalsCallCounter s * 1000)
            / (2 ^ 64 + now_elapsed + 1))%Z ∧
     (2 ^ 63 < 2 ^ 64 + now_elapsed + 1)%Z).
Proof.
  intros Hrange. unfold cluster_info.
  destruct (Z.ltb_spec (now_elapsed + 1) (2 ^ 63)) as [Hlt|Hge]; cycle 1.
  { split; [|lia]. split; [intros _; lia|done]. }
  change (ONE_PLY =? 0)%Z with false. cbn match. unfold udiv64.
  destruct (Z.eqb_spec (wrap64 (now_elapsed + 1)) 0) as [Hz|Hnz].
  - cbn [mbind option_bind]. split.
    + split; [|done]. intros _. left. unfold wrap64 in Hz. lia.
    + intros Hneg. exfalso. unfold wrap64 in Hz. lia.
  - cbn [mbind option_bind]. split.
    + split; [done|]. intros [-> | ->]; [|lia]. by vm_compute in Hnz.
    + intros Hneg. eexists _, _, _. split; [done|].
      assert (wrap64 (now_elapsed + 1) = 2 ^ 64 + now_elapsed + 1)%Z as ->
        by (unfold wrap64; lia).
      split; [done|lia].
Qed.

Lemma cluster_info_undefined_witness :
  cluster_info 16 (-1) 12 (Cluster_start 0 2 (mkThreadPool 1000 0 7 false))
  = None.
Proof.
  apply (cluster_info_undefined 16 (-1) 12
           (Cluster_start 0 2 (mkThreadPool 1000 0 7 false))).
  - lia.
  - left. reflexivity.
Defined.

(** ** The MPI session *)

Section SessionFacts.
Import Session.

Ltac handle_in :=
  cbn [Session.comms];
  repeat (rewrite elem_of_difference || rewrite elem_of_union
          || rewrite elem_of_singleton);
  lia.

Lemma MPI_Comm_dup_active (m : MPI) :
  active m = true →
  MPI_Comm_dup m
  = Some (mkMPI (provided m) (comm_world_rank m) (comm_world_size m)
            (initialized m) (finalized m) ({[fresh m]} ∪ comms m) (types m)
            (S (fresh m)),
          Some (fresh m)).
Proof. unfold MPI_Comm_dup. by intros ->. Qed.

Lemma MPI_Comm_free_held (h : nat) (m : MPI) :
  active m = true → h ∈ comms m →
  MPI_Comm_free (Some h) m
  = Some (mkMPI (provided m) (comm_world_rank m) (comm_world_size m)
            (initialized m) (finalized m) (comms m ∖ {[h]}) (types m)
            (fresh m),
          None).
Proof.
  unfold MPI_Comm_free. intros -> Hh. by rewrite bool_decide_eq_true_2.
Qed.

(** What [init] leaves when it returns: the datatype is [fresh m] and the
    four communicators are the next four handles. *)
Lemma init_returns (m : MPI) (st : Statics) :
  initialized m = false → finalized m = false →
  provided m = MPI_THREAD_MULTIPLE →
  init m st
  = Some (mkMPI MPI_THREAD_MULTIPLE (comm_world_rank m) (comm_world_size m)
            true false
            ({[S (S (S (S (fresh m))))]} ∪
             ({[S (S (S (fresh m)))]} ∪
              ({[S (S (fresh m))]} ∪ ({[S (fresh m)]} ∪ comms m))))
            (<[fresh m := mkDatatype 1
                             [f_move; f_ponder; f_depth; f_score; f_rank]
                             true]> (types m))
            (S (S (S (S (S (fresh m)))))),
          Returned (mkStatics (Some (comm_world_rank m)) (comm_world_size m)
                      (Some (S (S (S (S (fresh m))))))
                      (Some (S (fresh m))) (Some (S (S (fresh m))))
                      (Some (S (S (S (fresh m))))) (Some (fresh m)))).
Proof.
  intros Hinit Hfin Hprov. unfold init, MPI_Init_thread.
  rewrite Hinit, Hprov, Hfin. cbn [mbind option_bind level Nat.ltb Nat.leb].
  unfold MPI_Type_create_hindexed_block, active.
  cbn [initialized finalized andb negb length Nat.eqb mbind option_bind
       provided comm_world_rank comm_world_size comms types fresh].
  unfold MPI_Type_commit, active.
  cbn [initialized finalized andb negb mbind option_bind
       provided comm_world_rank comm_world_size comms types fresh].
  rewrite lookup_insert_eq.
  cbn [initialized finalized andb negb mbind option_bind blocklength
       displacements provided comm_world_rank comm_world_size comms types
       fresh].
  rewrite insert_insert_eq.
  rewrite !MPI_Comm_dup_active by done.
  repeat (rewrite MPI_Comm_dup_active by done;
          cbn [mbind option_bind provided comm_world_rank comm_world_size
               initialized finalized comms types fresh]).
  done.
Qed.

(** X17: how [init] ends.  On a library that has not been initialised,
    [init] exits with [EXIT_FAILURE] after writing a message and a newline
    to [std::cerr] when the library grants less than
    [MPI_THREAD_MULTIPLE], before it has created
    any communicator or datatype; otherwise it returns with [rank()] and
    [size()] those of [MPI_COMM_WORLD], a committed datatype of five blocks
    of one [MPI_INT] at the displacements of [move], [ponder], [depth],
    [score] and [rank], and four communicators that are new and pairwise
    distinct, so that the input relay, the exchange of entries, the move
    picker and the signal loop never share one. *)
Theorem init_outcome (m : MPI) (st : Statics) :
  initialized m = false → finalized m = false → MPI_wf m →
  (level (provided m) < level MPI_THREAD_MULTIPLE →
   ∃ m',
     init m st
     = Some (m', Exited EXIT_FAILURE
                   (String.append
                      "Stockfish requires support for MPI_THREAD_MULTIPLE."
                      endl)) ∧
     initialized m' = true ∧ finalized m' = false ∧
     comms m' = comms m ∧ types m' = types m) ∧
  (level MPI_THREAD_MULTIPLE ≤ level (provided m) →
   ∃ m' st' i t v s d,
     init m st = Some (m', Returned st') ∧
     rank st' = Some (comm_world_rank m) ∧ size st' = comm_world_size m ∧
     InputComm st' = Some i ∧ TTComm st' = Some t ∧ MoveComm st' = Some v ∧
     signalsComm st' = Some s ∧ MIDatatype st' = Some d ∧
     NoDup [i; t; v; s] ∧
     (∀ c, c ∈ [i; t; v; s] → c ∉ comms m) ∧
     comms m' = {[i; t; v; s]} ∪ comms m ∧
     types m !! d = None ∧
     types m' = <[d := mkDatatype 1
                          [f_move; f_ponder; f_depth; f_score; f_rank]
                          true]> (types m) ∧
     MPI_wf m').
Proof.
  intros Hinit Hfin [Hcomms Htypes]. split.
  - intros Hlow. unfold init, MPI_Init_thread. rewrite Hinit.
    cbn [mbind option_bind]. rewrite (proj2 (Nat.ltb_lt _ _)) by done.
    eexists. split; [done|]. by cbn.
  - intros Hhigh.
    assert (Hprov : provided m = MPI_THREAD_MULTIPLE)
      by (destruct (provided m); cbn in Hhigh; by try lia).
    rewrite (init_returns m st Hinit Hfin Hprov).
    eexists _, _, _, _, _, _, _. split; [done|].
    cbn [rank size world_rank world_size InputComm TTComm MoveComm
         signalsComm MIDatatype comms types fresh].
    assert (Hnew : ∀ k, fresh m ≤ k → k ∉ comms m).
    { intros k Hk Hin. specialize (Hcomms k Hin). lia. }
    split_and!; try done.
    + repeat (apply NoDup_cons; split;
              [rewrite ?elem_of_cons, elem_of_nil; lia|]).
      apply NoDup_nil_2.
    + intros c Hc. apply Hnew.
      rewrite !elem_of_cons, elem_of_nil in Hc. lia.
    + apply set_eq. intros x.
      rewrite !elem_of_union, !elem_of_singleton. tauto.
    + destruct (types m !! fresh m) as [x|] eqn:Hx; [|done].
      assert (fresh m < fresh m) by (apply Htypes; eauto). lia.
    + split.
      * intros c Hc. cbn [comms fresh] in *.
        rewrite !elem_of_union, !elem_of_singleton in Hc.
        destruct Hc as [->|[->|[->|[->|Hc]]]]; try lia.
        specialize (Hcomms c Hc). lia.
      * intros x Hx. cbn [types fresh] in *.
        destruct (decide (x = fresh m)) as [->|Hne]; [lia|].
        rewrite lookup_insert_ne in Hx by done.
        specialize (Htypes x Hx). lia.
Qed.

Lemma init_outcome_witness :
  let m := mkMPI MPI_THREAD_SERIALIZED 2 4 false false ∅ ∅ 1 in
  ∃ m',
    init m Statics_start
    = Some (m', Exited EXIT_FAILURE
                  (String.append
                     "Stockfish requires support for MPI_THREAD_MULTIPLE."
                     endl)) ∧
    comms m' = comms m.
Proof.
  intros m.
  destruct (init_outcome m Statics_start) as [Hlow _].
  - reflexivity.
  - reflexivity.
  - split; [intros c Hc|intros t [x Hx]].
    + by apply elem_of_empty in Hc.
    + cbn in Hx. by rewrite lookup_empty in Hx.
  - destruct Hlow as (m' & Hrun & _ & _ & Hc & _); [cbn; lia|].
    exists m'. split; [exact Hrun|exact Hc].
Defined.

(** X18: [finalize] gives back what [init] took.  After an [init] that
    returned, [finalize] is defined: it frees the datatype and the four
    communicators that [init] created and nothing else, so that the library
    holds what it held before [init], and finalises MPI; the five handles
    are null again, while [rank()] and [size()] keep their values.  A second
    [finalize], or a second [init], is then an error of the library, and so
    is a [finalize] before any [init]. *)
Theorem init_finalize (m : MPI) (st : Statics) :
  initialized m = false → finalized m = false → MPI_wf m →
  provided m = MPI_THREAD_MULTIPLE →
  ∃ m1 st1 m2 st2,
    init m st = Some (m1, Returned st1) ∧
    finalize m1 st1 = Some (m2, st2) ∧
    comms m2 = comms m ∧ types m2 = types m ∧
    initialized m2 = true ∧ finalized m2 = true ∧
    st2 = mkStatics (Some (comm_world_rank m)) (comm_world_size m)
            None None None None None ∧
    finalize m2 st2 = None ∧
    (∀ st', init m2 st' = None) ∧
    finalize m Statics_start = None.
Proof.
  intros Hinit Hfin [Hcomms Htypes] Hprov.
  rewrite (init_returns m st Hinit Hfin Hprov).
  eexists _, _, _, _. split; [done|].
  assert (Hnew : ∀ k, fresh m ≤ k → k ∉ comms m).
  { intros k Hk Hin. specialize (Hcomms k Hin). lia. }
  assert (Hd : types m !! fresh m = None).
  { destruct (types m !! fresh m) as [x|] eqn:Hx; [|done].
    assert (fresh m < fresh m) by (apply Htypes; eauto). lia. }
  unfold finalize, MPI_Type_free, active.
  cbn [MIDatatype InputComm TTComm MoveComm signalsComm world_rank world_size
       mbind option_bind initialized finalized andb negb provided
       comm_world_rank comm_world_size comms types fresh].
  rewrite lookup_insert_eq.
  cbn [mbind option_bind]. rewrite delete_insert_id by done.
  rewrite MPI_Comm_free_held; [|done|handle_in].
  cbn [mbind option_bind provided comm_world_rank comm_world_size
       initialized finalized comms types fresh].
  rewrite MPI_Comm_free_held; [|done|handle_in].
  cbn [mbind option_bind provided comm_world_rank comm_world_size
       initialized finalized comms types fresh].
  rewrite MPI_Comm_free_held; [|done|handle_in].
  cbn [mbind option_bind provided comm_world_rank comm_world_size
       initialized finalized comms types fresh].
  rewrite MPI_Comm_free_held; [|done|handle_in].
  cbn [mbind option_bind provided comm_world_rank comm_world_size
       initialized finalized comms types fresh].
  unfold MPI_Finalize, active.
  cbn [mbind option_bind provided comm_world_rank comm_world_size
       initialized finalized comms types fresh andb negb].
  split; [done|]. cbn [comms types initialized finalized].
  split_and!; try done.
  apply set_eq. intros x.
  repeat (rewrite elem_of_difference || rewrite elem_of_union
          || rewrite elem_of_singleton).
  split; [tauto|]. intros Hx. specialize (Hcomms x Hx).
  split_and!; try lia. tauto.
Qed.

Lemma init_finalize_witness :
  let m := mkMPI MPI_THREAD_MULTIPLE 2 4 false false ∅ ∅ 1 in
  ∃ m1 st1 m2 st2,
    init m Statics_start = Some (m1, Returned st1) ∧
    finalize m1 st1 = Some (m2, st2) ∧
    comms m2 = comms m ∧ finalized m2 = true.
Proof.
  intros m.
  destruct (init_finalize m Statics_start)
    as (m1 & st1 & m2 & st2 & H1 & H2 & Hc & _ & _ & Hf & _).
  - reflexivity.
  - reflexivity.
  - split; [intros c Hc|intros t [x Hx]].
    + by apply elem_of_empty in Hc.
    + cbn in Hx. by rewrite lookup_empty in Hx.
  - reflexivity.
  - exists m1, st1, m2, st2. split; [exact H1|]. split; [exact H2|].
    split; [exact Hc|exact Hf].
Defined.

End SessionFacts.

(** ** The assertion of [signals_sync] *)

Lemma cluster_inv_start (ranks : list Cluster) :
  cluster_start ranks → cluster_inv ranks.
Proof.
  intros Hstart s q Hs Hq. unfold cluster_start in Hstart.
  rewrite Forall_forall in Hstart.
  destruct (Hstart s Hs) as [-> _], (Hstart q Hq) as [-> _].
  unfold is_uint64. lia.
Qed.

(** A step changes one rank: it is enough to compare the new state of that
    rank with the states of the others, and with itself. *)
Lemma cluster_inv_insert (ranks : list Cluster) (r : nat) (s s' : Cluster) :
  cluster_inv ranks → ranks !! r = Some s →
  is_uint64 (signalsCallCounter s') →
  (signalsCallCounter s ≤ signalsCallCounter s')%Z →
  (∀ q, q ∈ ranks → (signalsCallCounter s' ≤ signalsCallCounter q + 1)%Z) →
  (reqSignals s' ≠ Pending →
   ∀ q, q ∈ ranks → (signalsCallCounter s' ≤ signalsCallCounter q)%Z) →
  cluster_inv (<[r := s']> ranks).
Proof.
  intros Hinv Hr Hu Hmono Hlag Hdone.
  assert (Hs : s ∈ ranks) by (apply list_elem_of_lookup; eauto).
  assert (Hin : ∀ x, x ∈ <[r := s']> ranks → x = s' ∨ x ∈ ranks).
  { intros x [i Hi]%list_elem_of_lookup.
    destruct (decide (i = r)) as [->|Hne].
    - rewrite list_lookup_insert_eq in Hi by (by eapply lookup_lt_Some).
      left. congruence.
    - rewrite list_lookup_insert_ne in Hi by done. right.
      apply list_elem_of_lookup. eauto. }
  intros a b [->|Ha]%Hin [->|Hb]%Hin.
  - split_and!; [done|lia|intros; lia].
  - split_and!; [done|by apply Hlag|intros Hreq; by apply Hdone].
  - destruct (Hinv a s Ha Hs) as (Hua & Hla & Hda).
    split_and!; [done|lia|intros Hreq; specialize (Hda Hreq); lia].
  - by apply Hinv.
Qed.

Lemma cluster_inv_step (a : cluster_action) (ranks ranks' : list Cluster) :
  cluster_do a ranks = Some ranks' → cluster_inv ranks → cluster_inv ranks'.
Proof.
  intros Hstep Hinv. destruct a as [r t|r|r others]; cbn [cluster_do] in Hstep;
    destruct (ranks !! r) as [s|] eqn:Hr; cbn [mbind option_bind] in Hstep;
    try done;
    assert (Hs : s ∈ ranks) by (apply list_elem_of_lookup; eauto).
  - injection Hstep as <-.
    apply (cluster_inv_insert ranks r s); [done|done|..];
      cbn [set_Threads signalsCallCounter reqSignals].
    + by destruct (Hinv s s Hs Hs).
    + lia.
    + intros q Hq. by destruct (Hinv s q Hs Hq) as (_ & ? & _).
    + intros Hp q Hq. destruct (Hinv s q Hs Hq) as (_ & _ & Hd). by apply Hd.
  - destruct (Z.ltb_spec (signalsCallCounter s) (2 ^ 64 - 1)) as [Hsmall|];
      [|done].
    injection Hstep as <-.
    destruct (Hinv s s Hs Hs) as (Hu & _ & _).
    rewrite signals_poll_state.
    assert (reqSignals s = Pending ∨ reqSignals s ≠ Pending) as [Hp|Hp]
      by (destruct (reqSignals s); by eauto).
    { rewrite Hp. rewrite list_insert_id by done. done. }
    assert (Hposted :
      signalsCallCounter
        (signals_send (signals_process (set_reqSignals MPI_REQUEST_NULL s))).1
      = (signalsCallCounter s + 1)%Z ∧
      reqSignals
        (signals_send (signals_process (set_reqSignals MPI_REQUEST_NULL s))).1
      = Pending).
    { cbn. split; [|done]. apply wrap64_id. unfold is_uint64 in *. lia. }
    destruct Hposted as [Hc Hq'].
    assert (Hcase :
      (match reqSignals s with
       | Pending => s
       | _ => (signals_send
                 (signals_process (set_reqSignals MPI_REQUEST_NULL s))).1
       end)
      = (signals_send
           (signals_process (set_reqSignals MPI_REQUEST_NULL s))).1)
      by (by destruct (reqSignals s)).
    rewrite Hcase.
    apply (cluster_inv_insert ranks r s); [done|done|..].
    + rewrite Hc. unfold is_uint64 in *. lia.
    + rewrite Hc. lia.
    + intros q Hq. rewrite Hc.
      destruct (Hinv s q Hs Hq) as (_ & _ & Hd). specialize (Hd Hp). lia.
    + by rewrite Hq'.
  - destruct (reqSignals s) eqn:Hreq; try done.
    destruct (forallb _ ranks) eqn:Hall; [|done]. injection Hstep as <-.
    rewrite forallb_forall in Hall.
    destruct (iallreduce_complete_frame others s) as (Hc & _).
    apply (cluster_inv_insert ranks r s); [done|done|..]; rewrite Hc.
    + by destruct (Hinv s s Hs Hs).
    + lia.
    + intros q Hq. by destruct (Hinv s q Hs Hq) as (_ & ? & _).
    + intros _ q Hq. apply Z.leb_le, Hall. by apply list_elem_of_In.
Qed.

Lemma cluster_inv_reach (acts : list cluster_action) :
  ∀ ranks0 ranks,
  cluster_run acts ranks0 = Some ranks → cluster_inv ranks0 →
  cluster_inv ranks.
Proof.
  induction acts as [|a acts IH]; intros ranks0 ranks Hrun Hinv;
    cbn [cluster_run] in Hrun; [by simplify_eq|].
  destruct (cluster_do a ranks0) as [ranks1|] eqn:Hstep; cbn in Hrun; [|done].
  apply (IH ranks1 ranks Hrun). by eapply cluster_inv_step.
Qed.

Lemma foldr_max_bound (l : list Z) (b : Z) :
  (0 ≤ b)%Z → (∀ x, x ∈ l → (x ≤ b)%Z) → (foldr Z.max 0%Z l ≤ b)%Z.
Proof.
  intros Hb. induction l as [|y l IH]; intros Hall; cbn; [done|].
  apply Z.max_lub.
  - apply Hall. by left.
  - apply IH. intros x Hx. apply Hall. by right.
Qed.

(** X19: the assertion of [signals_sync] holds.  Start a search with no
    all-reduce posted and let the ranks poll, and the transport complete
    their all-reduces, in any order, an all-reduce completing only once
    every rank has posted it.  Then no rank is ever more than one
    all-reduce ahead of another.  So when every rank has left the loop of
    [signals_sync] and the blocking all-reduce gives each the maximum of the
    counters, every rank is at the maximum or one below it; the single
    extra send of the ranks below brings them to it, the assertion
    [signalsCallCounter == globalCounter] holds on every rank, and
    [signals_sync] returns on every rank with the counter at the maximum
    and no request outstanding. *)
Theorem signals_sync_assert_holds (acts : list cluster_action)
    (ranks0 ranks : list Cluster) (runs : list rank_run) :
  cluster_start ranks0 →
  cluster_run acts ranks0 = Some ranks →
  run_state <$> runs = ranks →
  Forall (λ s, (Z.of_nat (world_size s) ≤ stopSignalsPosted s)%Z) ranks →
  (∀ s q, s ∈ ranks → q ∈ ranks →
     (signalsCallCounter s ≤ signalsCallCounter q + 1)%Z) ∧
  Forall (λ s, (foldr Z.max 0%Z (signalsCallCounter <$> ranks) - 1
                ≤ signalsCallCounter s
                ≤ foldr Z.max 0%Z (signalsCallCounter <$> ranks))%Z) ranks ∧
  ∃ results,
    signals_sync_all runs = Some results ∧
    Forall2 (λ s res,
               signalsCallCounter res.1
               = foldr Z.max 0%Z (signalsCallCounter <$> ranks) ∧
               reqSignals res.1 = MPI_REQUEST_NULL ∧
               world_rank res.1 = world_rank s)
      ranks results.
Proof.
  intros Hstart Hreach Hruns Hdone.
  pose proof (cluster_inv_reach acts ranks0 ranks Hreach
                (cluster_inv_start ranks0 Hstart)) as Hinv.
  set (g := foldr Z.max 0%Z (signalsCallCounter <$> ranks)).
  assert (Hlag : ∀ s q, s ∈ ranks → q ∈ ranks →
                        (signalsCallCounter s ≤ signalsCallCounter q + 1)%Z).
  { intros s q Hs Hq. by destruct (Hinv s q Hs Hq) as (_ & ? & _). }
  assert (Hg : ∀ s, s ∈ ranks →
                    (g - 1 ≤ signalsCallCounter s ≤ g)%Z).
  { intros s Hs. split.
    - assert (g ≤ signalsCallCounter s + 1)%Z; [|lia].
      apply foldr_max_bound.
      + destruct (Hinv s s Hs Hs) as (Hu & _). unfold is_uint64 in Hu. lia.
      + intros x (q & -> & Hq)%list_elem_of_fmap. by apply Hlag.
    - apply foldr_max_ge, list_elem_of_fmap. by exists s. }
  split; [done|]. split; [by apply Forall_forall|].
  (* every loop has ended *)
  assert (Hloops :
    mapM (λ r, signals_sync_loop (run_sched r) (run_state r)) runs
    = Some ((λ r, (run_state r, [])) <$> runs)).
  { apply mapM_Some. subst ranks. clear -Hdone.
    induction runs as [|r runs IH]; [constructor|].
    rewrite fmap_cons in Hdone. apply Forall_cons in Hdone as [Hr Hdone].
    rewrite fmap_cons. constructor; [|by apply IH].
    by apply signals_sync_loop_done. }
  unfold signals_sync_all. rewrite Hloops. cbn [mbind option_bind].
  assert (Hgg : foldr Z.max 0%Z
                  ((λ l : Cluster * list event, signalsCallCounter l.1)
                   <$> ((λ r, (run_state r, [])) <$> runs)) = g).
  { unfold g. subst ranks. by rewrite <- !list_fmap_compose. }
  rewrite Hgg. clear Hloops Hgg.
  assert (Hfin : ∀ r, r ∈ runs →
    ∃ s2 ev2,
      signals_sync_finish g (run_others1 r) (run_others2 r) (run_state r)
      = Some (s2, ev2) ∧
      signalsCallCounter s2 = g ∧ reqSignals s2 = MPI_REQUEST_NULL ∧
      world_rank s2 = world_rank (run_state r)).
  { intros r Hr.
    assert (Hs : run_state r ∈ ranks).
    { subst ranks. apply list_elem_of_fmap. by exists r. }
    destruct (Hinv _ _ Hs Hs) as (Hu & _).
    destruct (signals_sync_finish_returns g (run_others1 r) (run_others2 r)
                (run_state r)) as [[s2 ev2] Hrun].
    - done.
    - specialize (Hg _ Hs). lia.
    - specialize (Hg _ Hs). unfold is_uint64 in *. split; [lia|].
      assert (g ≤ signalsCallCounter (run_state r) + 1)%Z by lia.
      assert (signalsCallCounter (run_state r) < 2 ^ 64)%Z by lia.
      destruct (Z.eq_dec g (signalsCallCounter (run_state r))) as [->|Hne];
        [lia|].
      assert (g = signalsCallCounter (run_state r) + 1)%Z as Hg1 by lia.
      (* a rank at the maximum exists, and its counter is a 64-bit number *)
      assert (Hex : ∃ q, q ∈ ranks ∧ signalsCallCounter q = g).
      { assert (Hne' : ranks ≠ []) by (intros E; rewrite E in Hs;
                                        by apply elem_of_nil in Hs).
        assert (Hpos : (0 < g)%Z) by lia.
        clear -Hne' Hpos. subst g.
        induction ranks as [|q ranks IH]; [done|]. cbn in *.
        destruct (Z.max_spec (signalsCallCounter q)
                    (foldr Z.max 0%Z (signalsCallCounter <$> ranks)))
          as [[Hlt Heq]|[Hle Heq]].
        - destruct ranks as [|q' ranks']; [cbn in *; lia|].
          destruct IH as (x & Hx & Hxe); [done|cbn in *; lia|].
          exists x. split; [by right|]. rewrite Heq. done.
        - exists q. split; [by left|]. by rewrite Heq. }
      destruct Hex as (q & Hq & Hqg).
      destruct (Hinv q q Hq Hq) as (Huq & _). unfold is_uint64 in Huq. lia.
    - exists s2, ev2. split; [done|].
      destruct (signals_sync_finish_spec _ _ _ _ _ _ Hrun) as (_ & ? & ? & _).
      destruct (signals_sync_finish_world _ _ _ _ _ _ Hrun) as [? _].
      done. }
  subst ranks. clearbody g. clear -Hfin.
  induction runs as [|r runs IH].
  { exists []. split; [done|]. constructor. }
  destruct (Hfin r) as (s2 & ev2 & Hrun & Hc & Hq & Hw); [by left|].
  destruct IH as (results & Hres & Hall).
  { intros r' Hr'. apply Hfin. by right. }
  exists ((s2, ev2) :: results). split.
  - rewrite !fmap_cons. cbn [zip zip_with mapM fst snd mbind option_bind].
    rewrite Hrun. cbn [mbind option_bind].
    change (zip_with pair runs
              ((λ r : rank_run, (run_state r, @nil event)) <$> runs))
      with (zip runs ((λ r : rank_run, (run_state r, @nil event)) <$> runs)).
    rewrite Hres. done.
  - rewrite fmap_cons. by constructor.
Qed.

Lemma signals_sync_assert_holds_witness :
  let pool := mkThreadPool 10 0 0 true in
  let ranks0 := [Cluster_start 0 2 pool; Cluster_start 1 2 pool] in
  let v := mkSignals 10 1 0 0 in
  let acts := [Act_poll 0; Act_poll 1; Act_complete 0 [v]; Act_complete 1 [v];
               Act_poll 0; Act_poll 1; Act_complete 0 [v]; Act_poll 0] in
  ∃ ranks results,
    cluster_run acts ranks0 = Some ranks ∧
    signalsCallCounter <$> ranks = [3; 2]%Z ∧
    signals_sync_all ((λ s, mkRankRun s [] [v] [v]) <$> ranks) = Some results ∧
    Forall2 (λ s res,
               signalsCallCounter res.1
               = foldr Z.max 0%Z (signalsCallCounter <$> ranks) ∧
               reqSignals res.1 = MPI_REQUEST_NULL ∧
               world_rank res.1 = world_rank s)
      ranks results.
Proof.
  intros pool ranks0 v acts.
  destruct (cluster_run acts ranks0) as [ranks|] eqn:Hrun;
    [|vm_compute in Hrun; discriminate Hrun].
  assert (Hcounters : signalsCallCounter <$> ranks = [3; 2]%Z).
  { vm_compute in Hrun. injection Hrun as <-. reflexivity. }
  assert (Hdone : Forall (λ s, (Z.of_nat (world_size s)
                                ≤ stopSignalsPosted s)%Z) ranks).
  { vm_compute in Hrun. injection Hrun as <-.
    repeat constructor; cbn; lia. }
  destruct (signals_sync_assert_holds acts ranks0 ranks
              ((λ s, mkRankRun s [] [v] [v]) <$> ranks))
    as (_ & _ & results & Hres & Hall).
  - repeat constructor.
  - exact Hrun.
  - rewrite <- list_fmap_compose. apply list_fmap_id.
  - exact Hdone.
  - exists ranks, results. split; [reflexivity|]. split; [exact Hcounters|].
    split; [exact Hres|exact Hall].
Defined.

(** ** A new search starts clean *)

Lemma polls_pending
    (tte_save : TTEntry → Key → Z → bool → Z → Z → Z → Z → TTEntry)
    (C : nat) (n : nat) (s : Cluster) (t : Thread) :
  reqSignals s = Pending →
  exec_all tte_save C (replicate n Op_signals_poll) (s, t) = Some (s, t).
Proof.
  intros Hreq. induction n as [|n IH]; [done|].
  cbn [replicate exec_all exec mbind option_bind fst snd].
  rewrite signals_poll_state, Hreq. exact IH.
Qed.

(** X20: a new search starts clean.  After [signals_init], and as long as
    no all-reduce completes, any number of polls leaves the totals of the
    other ranks and [stopSignalsPosted] at zero, so that [nodes_searched],
    [tb_hits] and [TT_saves] return the local totals increased by nothing
    and no stop signal of an earlier search reaches the thread pool, which
    is left as it is.  At most one all-reduce is posted meanwhile: by the
    first poll, unless one was still outstanding at [signals_init]. *)
Theorem signals_init_fresh
    (tte_save : TTEntry → Key → Z → bool → Z → Z → Z → Z → TTEntry)
    (TTCacheSize : nat) (n : nat) (st : Cluster * Thread) :
  ∃ s',
    exec_all tte_save TTCacheSize
      (Op_signals_init :: replicate n Op_signals_poll) st
    = Some (s', st.2) ∧
    nodesSearchedOthers s' = 0%Z ∧ tbHitsOthers s' = 0%Z ∧
    TTsavesOthers s' = 0%Z ∧ stopSignalsPosted s' = 0%Z ∧
    sendRecvPosted s' = 0%Z ∧
    Threads s' = Threads st.1 ∧
    nodes_searched s' = wrap64 (Threads_nodes_searched (Threads st.1)) ∧
    signalsCallCounter s'
    = (if decide (n = 0) then 0%Z
       else match reqSignals st.1 with Pending => 0%Z | _ => 1%Z end).
Proof.
  destruct st as [s t]. cbn [exec_all exec mbind option_bind fst snd].
  destruct n as [|n].
  { eexists. split; [done|]. by cbn. }
  rewrite decide_False by done.
  destruct (reqSignals s) eqn:Hreq.
  - cbn [replicate exec_all exec mbind option_bind fst snd].
    rewrite signals_poll_state.
    cbn [signals_init reqSignals]. rewrite Hreq.
    rewrite polls_pending by done.
    eexists. split; [done|]. unfold nodes_searched. by cbn.
  - rewrite polls_pending by (cbn; by rewrite Hreq).
    eexists. split; [done|]. unfold nodes_searched. by cbn.
  - cbn [replicate exec_all exec mbind option_bind fst snd].
    rewrite signals_poll_state.
    cbn [signals_init reqSignals]. rewrite Hreq.
    rewrite polls_pending by done.
    eexists. split; [done|]. unfold nodes_searched. by cbn.
Qed.

(** ** The common state after [signals_sync] *)

(** When every loop has ended, [signals_sync] on the cluster is its last
    part on every rank. *)
Lemma signals_sync_all_done (runs : list rank_run) :
  Forall (λ r, (Z.of_nat (world_size (run_state r))
                ≤ stopSignalsPosted (run_state r))%Z) runs →
  signals_sync_all runs
  = mapM (λ r, signals_sync_finish
                 (foldr Z.max 0%Z
                    (signalsCallCounter <$> (run_state <$> runs)))
                 (run_others1 r) (run_others2 r) (run_state r)) runs.
Proof.
  intros Hdone. unfold signals_sync_all.
  assert (Hloops :
    mapM (λ r, signals_sync_loop (run_sched r) (run_state r)) runs
    = Some ((λ r, (run_state r, [])) <$> runs)).
  { apply mapM_Some. induction Hdone as [|r runs Hr _ IH]; [constructor|].
    rewrite fmap_cons. constructor; [|done]. by apply signals_sync_loop_done. }
  rewrite Hloops. cbn [mbind option_bind].
  assert (Hg : foldr Z.max 0%Z
                 ((λ l : Cluster * list event, signalsCallCounter l.1)
                  <$> ((λ r, (run_state r, [])) <$> runs))
               = foldr Z.max 0%Z
                   (signalsCallCounter <$> (run_state <$> runs))).
  { by rewrite <- !list_fmap_compose. }
  rewrite Hg. generalize (foldr Z.max 0%Z
                            (signalsCallCounter <$> (run_state <$> runs))).
  intros g. clear. induction runs as [|r runs IH]; [done|].
  rewrite fmap_cons. cbn [zip zip_with mapM fst snd].
  change (zip_with pair runs
            ((λ r : rank_run, (run_state r, @nil event)) <$> runs))
    with (zip runs ((λ r : rank_run, (run_state r, @nil event)) <$> runs)).
  rewrite IH.
  destruct (signals_sync_finish g _ _ (run_state r)) as [[s2 ev2]|];
    cbn [mbind option_bind]; [|done].
  done.
Qed.

Lemma sum_delete {A} (f : A → Z) (l : list A) (i : nat) (x : A) :
  l !! i = Some x →
  (foldr Z.add 0 (f <$> delete i l) + f x = foldr Z.add 0 (f <$> l))%Z.
Proof.
  revert i. induction l as [|y l IH]; intros [|i] Hi; try done.
  - cbn in Hi. simplify_eq. change (delete 0 (x :: l)) with l.
    rewrite fmap_cons. cbn [foldr]. lia.
  - cbn in Hi. specialize (IH i Hi).
    change (delete (S i) (y :: l)) with (y :: delete i l).
    rewrite !fmap_cons. cbn [foldr]. lia.
Qed.

(** A wait that completes the outstanding all-reduce, then
    [signals_process]. *)
Lemma process_wait_pending (others : list Signals) (s : Cluster) :
  reqSignals s = Pending →
  signalsRecv (signals_process (MPI_Wait_reqSignals others s))
  = Signals_sum (signalsSend s :: others) ∧
  signalsSend (signals_process (MPI_Wait_reqSignals others s))
  = signalsSend s ∧
  nodesSearchedOthers (signals_process (MPI_Wait_reqSignals others s))
  = wrap64 (SIG_NODES (Signals_sum (signalsSend s :: others))
            - SIG_NODES (signalsSend s)) ∧
  tbHitsOthers (signals_process (MPI_Wait_reqSignals others s))
  = wrap64 (SIG_TB (Signals_sum (signalsSend s :: others))
            - SIG_TB (signalsSend s)) ∧
  TTsavesOthers (signals_process (MPI_Wait_reqSignals others s))
  = wrap64 (SIG_TTS (Signals_sum (signalsSend s :: others))
            - SIG_TTS (signalsSend s)) ∧
  stopSignalsPosted (signals_process (MPI_Wait_reqSignals others s))
  = SIG_STOP (Signals_sum (signalsSend s :: others)) ∧
  pool_kept (Threads s) (Threads (signals_process (MPI_Wait_reqSignals others s))).
Proof.
  intros Hreq.
  assert (Hw : MPI_Wait_reqSignals others s
               = set_reqSignals MPI_REQUEST_NULL
                   (set_reqSignals Complete
                      (set_signalsRecv (Signals_sum (signalsSend s :: others))
                         s))).
  { unfold MPI_Wait_reqSignals, iallreduce_complete. by rewrite Hreq. }
  rewrite Hw. split_and!; try done.
  apply (signals_process_pool
           (set_reqSignals MPI_REQUEST_NULL
              (set_reqSignals Complete
                 (set_signalsRecv (Signals_sum (signalsSend s :: others))
                    s)))).
Qed.

(** The last part of [signals_sync] on one rank whose all-reduce is
    outstanding and which is at most one call behind. *)
Lemma signals_sync_finish_state (g : Z) (others1 others2 : list Signals)
    (s : Cluster) :
  reqSignals s = Pending →
  is_uint64 (signalsCallCounter s) → is_uint64 g →
  (signalsCallCounter s ≤ g ≤ signalsCallCounter s + 1)%Z →
  ∃ s' evs,
    signals_sync_finish g others1 others2 s = Some (s', evs) ∧
    signalsRecv s' = Signals_sum (final_vector g s :: others2) ∧
    nodesSearchedOthers s'
    = wrap64 (SIG_NODES (Signals_sum (final_vector g s :: others2))
              - SIG_NODES (final_vector g s)) ∧
    tbHitsOthers s'
    = wrap64 (SIG_TB (Signals_sum (final_vector g s :: others2))
              - SIG_TB (final_vector g s)) ∧
    TTsavesOthers s'
    = wrap64 (SIG_TTS (Signals_sum (final_vector g s :: others2))
              - SIG_TTS (final_vector g s)) ∧
    stopSignalsPosted s'
    = SIG_STOP (Signals_sum (final_vector g s :: others2)) ∧
    pool_kept (Threads s) (Threads s').
Proof.
  intros Hreq Hu Hg Hlag. rewrite signals_sync_finish_unfold. cbn zeta.
  unfold final_vector.
  destruct (Z.ltb_spec (signalsCallCounter s) g) as [Hlt|Hge].
  - set (s1 := (signals_send (MPI_Wait_reqSignals others1 s)).1).
    assert (Hs1 : reqSignals s1 = Pending ∧
                  signalsCallCounter s1 = wrap64 (signalsCallCounter s + 1) ∧
                  signalsSend s1 = signalsSend (signals_send s).1 ∧
                  Threads s1 = Threads s).
    { unfold s1, MPI_Wait_reqSignals.
      cbn [signals_send fst reqSignals signalsCallCounter signalsSend Threads
           set_reqSignals].
      destruct (iallreduce_complete_frame others1 s) as (-> & _ & -> & _).
      done. }
    destruct Hs1 as (Hq1 & Hc1 & Hv1 & Ht1).
    rewrite Hc1, (proj2 (Z.eqb_eq _ _))
      by (unfold wrap64, is_uint64 in *; lia).
    eexists _, _. split; [done|].
    destruct (process_wait_pending others2 s1 Hq1)
      as (-> & _ & -> & -> & -> & -> & Hpool).
    rewrite Hv1. split_and!; try done. by rewrite <- Ht1.
  - rewrite (proj2 (Z.eqb_eq _ _)) by lia.
    eexists _, _. split; [done|].
    destruct (process_wait_pending others2 s Hreq)
      as (-> & _ & -> & -> & -> & -> & Hpool).
    by split_and!.
Qed.

(** X21: the ranks agree after [signals_sync].  Let every rank have left
    the loop with its all-reduce outstanding, at most one call behind the
    maximum, and let the last all-reduce give every rank the vectors the
    other ranks contributed to it.  Then [signals_sync] returns on every
    rank, and every rank holds the same sums: its received vector and
    [stopSignalsPosted] are those of the whole cluster, and its totals of
    the other ranks are the sums over the other ranks.  A rank whose thread
    pool still shows the totals it contributed returns from
    [nodes_searched], [tb_hits] and [TT_saves] the totals of the whole
    cluster, the same on every such rank. *)
Theorem signals_sync_all_agree (runs : list rank_run) :
  let states := run_state <$> runs in
  let g := foldr Z.max 0%Z (signalsCallCounter <$> states) in
  let final := final_vector g <$> states in
  Forall (λ s, (Z.of_nat (world_size s) ≤ stopSignalsPosted s)%Z ∧
               reqSignals s = Pending ∧
               is_uint64 (signalsCallCounter s) ∧
               (g ≤ signalsCallCounter s + 1)%Z) states →
  (∀ i r, runs !! i = Some r → run_others2 r = delete i final) →
  ∃ results,
    signals_sync_all runs = Some results ∧
    length results = length runs ∧
    ∀ i r res, runs !! i = Some r → results !! i = Some res →
      SIG_NODES (signalsRecv res.1)
      = wrap64 (foldr Z.add 0%Z (SIG_NODES <$> final)) ∧
      SIG_TB (signalsRecv res.1)
      = wrap64 (foldr Z.add 0%Z (SIG_TB <$> final)) ∧
      SIG_TTS (signalsRecv res.1)
      = wrap64 (foldr Z.add 0%Z (SIG_TTS <$> final)) ∧
      stopSignalsPosted res.1
      = wrap64 (foldr Z.add 0%Z (SIG_STOP <$> final)) ∧
      nodesSearchedOthers res.1
      = wrap64 (foldr Z.add 0%Z (SIG_NODES <$> delete i final)) ∧
      tbHitsOthers res.1
      = wrap64 (foldr Z.add 0%Z (SIG_TB <$> delete i final)) ∧
      TTsavesOthers res.1
      = wrap64 (foldr Z.add 0%Z (SIG_TTS <$> delete i final)) ∧
      (Threads_nodes_searched (Threads (run_state r))
       = SIG_NODES (final_vector g (run_state r)) →
       nodes_searched res.1
       = wrap64 (foldr Z.add 0%Z (SIG_NODES <$> final))) ∧
      (Threads_tb_hits (Threads (run_state r))
       = SIG_TB (final_vector g (run_state r)) →
       tb_hits res.1 = wrap64 (foldr Z.add 0%Z (SIG_TB <$> final))) ∧
      (Threads_TT_saves (Threads (run_state r))
       = SIG_TTS (final_vector g (run_state r)) →
       TT_saves res.1 = wrap64 (foldr Z.add 0%Z (SIG_TTS <$> final))).
Proof.
  intros states g final Hstates Hothers.
  assert (Hin : ∀ r, r ∈ runs →
    (Z.of_nat (world_size (run_state r)) ≤ stopSignalsPosted (run_state r))%Z ∧
    reqSignals (run_state r) = Pending ∧
    is_uint64 (signalsCallCounter (run_state r)) ∧
    (signalsCallCounter (run_state r) ≤ g ≤ signalsCallCounter (run_state r) + 1)%Z).
  { intros r Hr. rewrite Forall_forall in Hstates.
    destruct (Hstates (run_state r)) as (? & ? & ? & ?).
    { apply list_elem_of_fmap. by exists r. }
    split_and!; try done.
    apply foldr_max_ge, list_elem_of_fmap. exists (run_state r).
    split; [done|]. apply list_elem_of_fmap. by exists r. }
  assert (Hg : is_uint64 g).
  { apply foldr_max_uint64, Forall_fmap. unfold states.
    apply Forall_fmap, Forall_forall. intros r Hr. cbn.
    by destruct (Hin r Hr) as (_ & _ & ? & _). }
  rewrite signals_sync_all_done; cycle 1.
  { apply Forall_forall. intros r Hr. by destruct (Hin r Hr). }
  fold states. fold g.
  assert (Hfin : ∀ r, r ∈ runs →
    is_Some (signals_sync_finish g (run_others1 r) (run_others2 r)
               (run_state r))).
  { intros r Hr. destruct (Hin r Hr) as (_ & Hq & Hu & Hlag).
    destruct (signals_sync_finish_state g (run_others1 r) (run_others2 r)
                (run_state r) Hq Hu Hg Hlag) as (s' & evs & -> & _). eauto. }
  destruct (mapM_is_Some_2
              (λ r, signals_sync_finish g (run_others1 r) (run_others2 r)
                      (run_state r)) runs) as [results Hres].
  { apply Forall_forall. intros r Hr. by apply Hfin. }
  exists results. split; [done|].
  pose proof (mapM_Some_1 _ _ _ Hres) as Hall.
  split; [symmetry; by eapply Forall2_length|].
  intros i r res Hr Hi.
  pose proof (Forall2_lookup_lr _ _ _ _ _ _ Hall Hr Hi) as Hrun.
  cbn beta in Hrun.
  assert (Hrin : r ∈ runs) by (apply list_elem_of_lookup; eauto).
  destruct (Hin r Hrin) as (_ & Hq & Hu & Hlag).
  destruct (signals_sync_finish_state g (run_others1 r) (run_others2 r)
              (run_state r) Hq Hu Hg Hlag)
    as (s' & evs & Hrun' & Hrecv & Hn & Ht & Hs & Hstop & Hpool).
  rewrite Hrun in Hrun'. injection Hrun' as ->. cbn [fst].
  rewrite (Hothers i r Hr) in *.
  assert (Hfv : final !! i = Some (final_vector g (run_state r))).
  { unfold final, states. by rewrite !list_lookup_fmap, Hr. }
  set (fv := final_vector g (run_state r)) in *.
  destruct (Signals_sum_fields (fv :: delete i final))
    as (Hsn & Hss & Hst & Hsts).
  rewrite !fmap_cons in Hsn, Hss, Hst, Hsts. cbn [foldr] in Hsn, Hss, Hst, Hsts.
  rewrite (Z.add_comm (SIG_NODES fv)), (sum_delete SIG_NODES final i fv Hfv)
    in Hsn.
  rewrite (Z.add_comm (SIG_STOP fv)), (sum_delete SIG_STOP final i fv Hfv)
    in Hss.
  rewrite (Z.add_comm (SIG_TB fv)), (sum_delete SIG_TB final i fv Hfv) in Hst.
  rewrite (Z.add_comm (SIG_TTS fv)), (sum_delete SIG_TTS final i fv Hfv)
    in Hsts.
  assert (Hoth : ∀ (f : Signals → Z) total,
            f (Signals_sum (fv :: delete i final)) = wrap64 total →
            (foldr Z.add 0 (f <$> delete i final) + f fv)%Z = total →
            wrap64 (f (Signals_sum (fv :: delete i final)) - f fv)
            = wrap64 (foldr Z.add 0%Z (f <$> delete i final))).
  { intros f total -> <-. unfold wrap64.
    rewrite Zminus_mod_idemp_l. f_equal. lia. }
  assert (Htot : ∀ (f : Signals → Z) x,
            wrap64 (wrap64 (foldr Z.add 0%Z (f <$> delete i final)) + x)
            = wrap64 (foldr Z.add 0%Z (f <$> delete i final) + x)).
  { intros f x. apply wrap64_add_l. }
  destruct Hpool as (Hpn & Hpt & Hps & _).
  rewrite Hrecv, Hstop, Hn, Ht, Hs.
  rewrite (Hoth SIG_NODES _ Hsn (sum_delete SIG_NODES final i fv Hfv)).
  rewrite (Hoth SIG_TB _ Hst (sum_delete SIG_TB final i fv Hfv)).
  rewrite (Hoth SIG_TTS _ Hsts (sum_delete SIG_TTS final i fv Hfv)).
  split_and!; try done.
  - intros Hlocal. unfold nodes_searched. rewrite Hn.
    rewrite (Hoth SIG_NODES _ Hsn (sum_delete SIG_NODES final i fv Hfv)).
    rewrite Htot, Hpn, Hlocal. f_equal.
    apply (sum_delete SIG_NODES final i fv Hfv).
  - intros Hlocal. unfold tb_hits. rewrite Ht.
    rewrite (Hoth SIG_TB _ Hst (sum_delete SIG_TB final i fv Hfv)).
    rewrite Htot, Hpt, Hlocal. f_equal.
    apply (sum_delete SIG_TB final i fv Hfv).
  - intros Hlocal. unfold TT_saves. rewrite Hs.
    rewrite (Hoth SIG_TTS _ Hsts (sum_delete SIG_TTS final i fv Hfv)).
    rewrite Htot, Hps, Hlocal. f_equal.
    apply (sum_delete SIG_TTS final i fv Hfv).
Qed.

Lemma signals_sync_all_agree_witness :
  let pool0 := mkThreadPool 10 1 2 true in
  let pool1 := mkThreadPool 20 3 4 true in
  let v0 := mkSignals 10 1 1 2 in
  let v1 := mkSignals 20 1 3 4 in
  let w1 := mkSignals 25 1 3 4 in
  let ranks0 := [Cluster_start 0 2 pool0; Cluster_start 1 2 pool1] in
  let acts := [Act_poll 0; Act_poll 1; Act_complete 0 [v1];
               Act_complete 1 [v0]; Act_poll 0; Act_poll 1;
               Act_complete 0 [v1]; Act_poll 0;
               Act_search 1 (mkThreadPool 25 3 4 true)] in
  ∃ ranks results,
    cluster_run acts ranks0 = Some ranks ∧
    signalsCallCounter <$> ranks = [3; 2]%Z ∧
    signals_sync_all
      (zip_with (λ s o, mkRankRun s [] [v0] o) ranks [[w1]; [v0]])
    = Some results ∧
    (λ res : Cluster * list event, nodes_searched res.1) <$> results
    = [35; 35]%Z ∧
    (λ res : Cluster * list event, tb_hits res.1) <$> results = [4; 4]%Z ∧
    (λ res : Cluster * list event, TT_saves res.1) <$> results = [6; 6]%Z ∧
    (λ res : Cluster * list event, nodesSearchedOthers res.1) <$> results
    = [25; 10]%Z.
Proof.
  intros pool0 pool1 v0 v1 w1 ranks0 acts.
  destruct (cluster_run acts ranks0) as [ranks|] eqn:Hrun;
    [|vm_compute in Hrun; discriminate Hrun].
  vm_compute in Hrun. injection Hrun as <-.
  match goal with
  | |- ∃ ranks results, Some ?l = Some ranks ∧ _ => set (ranks := l)
  end.
  destruct (signals_sync_all_agree
              (zip_with (λ s o, mkRankRun s [] [v0] o) ranks [[w1]; [v0]]))
    as (results & Hres & Hlen & Hall).
  - repeat constructor; cbn; lia.
  - intros [|[|i]] r Hr; cbn in Hr; [| |discriminate Hr];
      injection Hr as <-; reflexivity.
  - exists ranks, results. split; [reflexivity|]. split; [reflexivity|].
    split; [exact Hres|].
    destruct results as [|r0 [|r1 [|r2 results]]]; try discriminate Hlen.
    destruct (Hall 0%nat _ r0 eq_refl eq_refl)
      as (_ & _ & _ & _ & Ho0 & _ & _ & Hn0 & Ht0 & Hs0).
    destruct (Hall 1%nat _ r1 eq_refl eq_refl)
      as (_ & _ & _ & _ & Ho1 & _ & _ & Hn1 & Ht1 & Hs1).
    cbn [fmap list_fmap].
    rewrite (Hn0 eq_refl), (Hn1 eq_refl), (Ht0 eq_refl), (Ht1 eq_refl),
      (Hs0 eq_refl), (Hs1 eq_refl), Ho0, Ho1.
    split_and!; reflexivity.
Defined.
